(** * File-based DOM state: canonical serializer, frame stitcher and
      session orchestrator

    A shallow embedding of [domExtractor.ts] ([AIDomBuilderInjection]) and
    [domState.ts] ([extractFullDom], [DomState], [formatDiffName]) as given
    in the technical design document, followed by the properties of the
    specification that concern them.

    Conventions of the embedding.
    - JavaScript strings are [string]s over 8-bit code units (read as
      Latin-1); the character classes ([\s], [toLowerCase], the class
      patterns) are the JavaScript ones restricted to that range.
    - [Set]s of tag names are [gset string], the [ATTR_ORDER] object is a
      [gmap string Z]; the [in] operator additionally sees the property
      names every object literal inherits from [Object.prototype].
    - The builder, the stitcher and [DomState] mutate fields; they are
      written in state-passing style, exceptions as [option]/flags, file
      system and rendering-context calls as an event trace.
    - [js-beautify], [diff.createPatch] and [path.join] are libraries
      outside the repository; they are fields of a [Libs] record.
    - [DomState] is given twice: on a file system that carries out every
      operation, and in [FallibleFs] on one that can reject an operation,
      which makes the method throw where the source awaits it.

    The multiplexer is embedded after them: [InstanceManager]
    ([instance-manager.ts]), which starts the child servers and gives them
    the environment variables [DomState] resolves its directory from, the
    text computed by [AuthManager], [ToolRegistry], the dispatch of
    [ToolRouter] and the tool discovery of [MultiplexerServer]. *)

From Stdlib Require Import String Ascii List ZArith Lia Bool Permutation Sorted DecimalString
  DecimalNat QArith Qround.
From stdpp Require Import gmap strings.
Import ListNotations.
Open Scope string_scope.
Open Scope list_scope.
Set Warnings "-register-all".

(** ** JavaScript string primitives used by the sources *)
Module JS.

Definition code (c : ascii) : N := N_of_ascii c.

Definition between (lo hi : N) (c : ascii) : bool :=
  (lo <=? code c)%N && (code c <=? hi)%N.

(** [\s] and the characters stripped by [trim]: TAB, LF, VT, FF, CR, SP, NBSP. *)
Definition isWhiteSpace (c : ascii) : bool :=
  between 9 13 c || (code c =? 32)%N || (code c =? 160)%N.

Definition isDigit (c : ascii) : bool := between 48 57 c.
Definition isUpper (c : ascii) : bool := between 65 90 c.
Definition isLower (c : ascii) : bool := between 97 122 c.
(** [[a-zA-Z0-9]] *)
Definition isAlnum (c : ascii) : bool := isLower c || isUpper c || isDigit c.
(** [[a-f0-9]] under the [i] flag *)
Definition isHex (c : ascii) : bool :=
  isDigit c || between 97 102 c || between 65 70 c.

Definition toLowerChar (c : ascii) : ascii :=
  if isUpper c || between 192 214 c || between 216 222 c
  then ascii_of_N (code c + 32) else c.

Fixpoint toLowerCase (s : string) : string :=
  match s with
  | EmptyString => EmptyString
  | String c s' => String (toLowerChar c) (toLowerCase s')
  end.

(** The double quote character, as a string. *)
Definition quote : string := String (ascii_of_N 34) EmptyString.

Definition quoted (s : string) : string := quote +:+ s +:+ quote.

(** A JavaScript string is truthy iff it is not empty. *)
Definition truthy (s : string) : bool :=
  match s with EmptyString => false | String _ _ => true end.

Definition startsWith (s p : string) : bool := String.prefix p s.

Fixpoint includes (s p : string) : bool :=
  if String.prefix p s then true
  else match s with
       | EmptyString => false
       | String _ s' => includes s' p
       end.

Fixpoint drop (n : nat) (s : string) : string :=
  match n, s with
  | O, _ => s
  | S n', String _ s' => drop n' s'
  | S _, EmptyString => EmptyString
  end.

Fixpoint take (n : nat) (s : string) : string :=
  match n, s with
  | S n', String c s' => String c (take n' s')
  | _, _ => EmptyString
  end.

(** [s.slice(0, n)] *)
Definition slice0 (n : nat) (s : string) : string := take n s.

(** Position of the first occurrence of [p] in [s], as the text before and
    after it. *)
Fixpoint splitAtFirst (s p : string) : option (string * string) :=
  if String.prefix p s then Some (EmptyString, drop (String.length p) s)
  else match s with
       | EmptyString => None
       | String c s' =>
           match splitAtFirst s' p with
           | Some (before, after) => Some (String c before, after)
           | None => None
           end
       end.

(** [GetSubstitution] for a string pattern (no capture groups): [$$], [$&],
    [$`] and [$'] are expanded, any other [$] is literal. *)
Fixpoint getSubstitution (matched before after repl : string) : string :=
  match repl with
  | EmptyString => EmptyString
  | String c rest =>
      if (code c =? 36)%N then
        match rest with
        | String d rest' =>
            if (code d =? 36)%N then String c (getSubstitution matched before after rest')
            else if (code d =? 38)%N then matched +:+ getSubstitution matched before after rest'
            else if (code d =? 96)%N then before +:+ getSubstitution matched before after rest'
            else if (code d =? 39)%N then after +:+ getSubstitution matched before after rest'
            else String c (getSubstitution matched before after rest)
        | EmptyString => String c EmptyString
        end
      else String c (getSubstitution matched before after rest)
  end.

(** [s.replace(p, repl)] with a string pattern: the first occurrence only. *)
Definition replace (s p repl : string) : string :=
  match splitAtFirst s p with
  | Some (before, after) => before +:+ getSubstitution p before after repl +:+ after
  | None => s
  end.

(** [s.replace(/c/g, r)] for a one-character pattern. *)
Fixpoint replaceAll (c : ascii) (r : string) (s : string) : string :=
  match s with
  | EmptyString => EmptyString
  | String d s' =>
      if Ascii.eqb c d then r +:+ replaceAll c r s' else String d (replaceAll c r s')
  end.

Fixpoint trimStart (s : string) : string :=
  match s with
  | String c s' => if isWhiteSpace c then trimStart s' else s
  | EmptyString => EmptyString
  end.

Fixpoint trimEnd (s : string) : string :=
  match s with
  | EmptyString => EmptyString
  | String c s' =>
      match trimEnd s' with
      | EmptyString => if isWhiteSpace c then EmptyString else String c EmptyString
      | t => String c t
      end
  end.

Definition trim (s : string) : string := trimEnd (trimStart s).

(** [s.split(/\s+/)]: [cur] is the token being read, [sep] tells that the
    previous character belonged to a separator run. *)
Fixpoint splitWs (cur : string) (sep : bool) (s : string) : list string :=
  match s with
  | EmptyString => [cur]
  | String c s' =>
      if isWhiteSpace c then
        if sep then splitWs cur true s' else cur :: splitWs EmptyString true s'
      else splitWs (cur +:+ String c EmptyString) false s'
  end.

Definition split_whitespace (s : string) : list string := splitWs EmptyString false s.

(** [arr.join(sep)] *)
Definition join (sep : string) (l : list string) : string := String.concat sep l.

(** [String(n)] for a non-negative integer. *)
Definition ofNat (n : nat) : string := NilZero.string_of_uint (Nat.to_uint n).

Fixpoint repeatChar (n : nat) (c : ascii) : string :=
  match n with O => EmptyString | S n' => String c (repeatChar n' c) end.

(** [s.padStart(n, c)] with a one-character filler. *)
Definition padStart (n : nat) (c : ascii) (s : string) : string :=
  repeatChar (n - String.length s) c +:+ s.

(** JavaScript numbers as far as the comparator needs them. *)
Inductive number := Num (z : Z) | NaN.

Definition minus (a b : number) : number :=
  match a, b with
  | Num x, Num y => Num (x - y)
  | _, _ => NaN
  end.

Section ArraySort.
Context {A : Type}.
Variable comparefn : A -> A -> number.

(** [SortCompare]: a comparator result that is [NaN] counts as [+0]. *)
Definition sortCompare (x y : A) : Z :=
  match comparefn x y with Num v => v | NaN => 0 end.

Fixpoint insert (x : A) (sorted : list A) : list A :=
  match sorted with
  | [] => [x]
  | y :: rest => if (0 <? sortCompare x y)%Z then y :: insert x rest else x :: sorted
  end.

(** [arr.sort(comparefn)]: the sort is stable; with a consistent
    comparator every stable sort returns this list (for an inconsistent
    one ECMAScript leaves the order to the implementation). *)
Definition sort (l : list A) : list A := fold_right insert [] l.
End ArraySort.

End JS.

(** ** domExtractor.ts: the in-page serializer *)
Module DomExtractor.
Import JS.

(** *** The DOM as the walk reads it *)

(** [_ariaRef], attached to an element by [captureSnapshot()]. *)
Record ElementIdentity := { role : string; name : string; ref : string }.

(** [shadowRoot] is [Some] for an open shadow tree only; a closed one is
    [null] to the walk. *)
Inductive Element :=
| mkElement (tagName : string)
            (attributes : list (string * string))
            (_ariaRef : option ElementIdentity)
            (childNodes : list Node)
            (shadowRoot : option (list Node))
with Node :=
| ElementNode (el : Element)
| TextNode (textContent : string)
| CommentNode (data : string)
| OtherNode (nodeType : nat) (data : string).

Definition tagName (el : Element) : string :=
  match el with mkElement t _ _ _ _ => t end.
Definition attributes (el : Element) : list (string * string) :=
  match el with mkElement _ a _ _ _ => a end.
Definition _ariaRef (el : Element) : option ElementIdentity :=
  match el with mkElement _ _ r _ _ => r end.
Definition childNodes (el : Element) : list Node :=
  match el with mkElement _ _ _ c _ => c end.
Definition shadowRoot (el : Element) : option (list Node) :=
  match el with mkElement _ _ _ _ s => s end.

(** [el.getAttribute(name)] *)
Definition getAttribute (el : Element) (n : string) : option string :=
  match List.find (fun a => String.eqb (fst a) n) (attributes el) with
  | Some a => Some (snd a)
  | None => None
  end.

(** [(el as any)._ariaRef?.ref] *)
Definition ariaRef_ref (el : Element) : option string :=
  match _ariaRef el with Some i => Some (ref i) | None => None end.

(** *** Constants *)

Definition SKIP_TAGS : gset string :=
  {[ "SCRIPT"; "STYLE"; "NOSCRIPT"; "TEMPLATE" ]}.

Definition VOID_TAGS : gset string :=
  {[ "AREA"; "BASE"; "BR"; "COL"; "EMBED"; "HR";
     "IMG"; "INPUT"; "LINK"; "META"; "SOURCE"; "TRACK"; "WBR" ]}.

Definition SVG_NOISE_ATTRS : gset string := {[ "d"; "points" ]}.

(** [Set.prototype.has] *)
Definition has (s : gset string) (x : string) : bool := bool_decide (x ∈ s).

(** The properties of the [ATTR_ORDER] object literal. *)
Definition ATTR_ORDER_entries : list (string * Z) :=
  [ ("id", 0); ("type", 1); ("name", 2); ("role", 3);
    ("href", 10); ("src", 11); ("action", 12); ("method", 13); ("for", 14);
    ("value", 20); ("placeholder", 21); ("required", 22); ("disabled", 23);
    ("checked", 24); ("selected", 25); ("multiple", 26); ("readonly", 27);
    ("class", 40); ("alt", 41); ("title", 42); ("target", 43); ("rel", 44) ]%Z.

Definition ATTR_ORDER : gmap string Z := list_to_map ATTR_ORDER_entries.

(** Property names an object literal inherits: [name in ATTR_ORDER] holds
    for them too, and [ATTR_ORDER[name]] is then a function or an object. *)
Definition Object_prototype_keys : list string :=
  [ "constructor"; "__defineGetter__"; "__defineSetter__"; "hasOwnProperty";
    "__lookupGetter__"; "__lookupSetter__"; "isPrototypeOf";
    "propertyIsEnumerable"; "toString"; "valueOf"; "__proto__";
    "toLocaleString" ].

Definition inherited (n : string) : bool :=
  existsb (String.eqb n) Object_prototype_keys.

(** [/^(css|sc|emotion|styled|jsx)-/] *)
Definition pattern_framework_prefix (cls : string) : bool :=
  existsb (fun p => startsWith cls (p +:+ "-"))
          ["css"; "sc"; "emotion"; "styled"; "jsx"].

Fixpoint allChars (f : ascii -> bool) (s : string) : bool :=
  match s with
  | EmptyString => true
  | String c s' => f c && allChars f s'
  end.

(** [/^_[a-zA-Z0-9]{5,}$/] *)
Definition pattern_module_hash (cls : string) : bool :=
  match cls with
  | String c rest =>
      (code c =? 95)%N && (5 <=? String.length rest)%nat && allChars isAlnum rest
  | EmptyString => false
  end.

(** [run] hexadecimal characters immediately precede [s]. *)
Fixpoint hexRun (run : nat) (s : string) : bool :=
  match s with
  | EmptyString => false
  | String c s' =>
      if isHex c then (if (8 <=? S run)%nat then true else hexRun (S run) s')
      else hexRun 0 s'
  end.

(** [/[a-f0-9]{8,}/i] *)
Definition pattern_long_hex (cls : string) : bool := hexRun 0 cls.

Definition GENERATED_CLASS_PATTERNS : list (string -> bool) :=
  [ pattern_framework_prefix; pattern_module_hash; pattern_long_hex ].

(** *** Helper functions *)

Definition shouldSkipAttribute (n : string) : bool :=
  if startsWith n "on" then true
  else if String.eqb n "style" then true
  else if startsWith n "data-" then true
  else false.

(** The value is a number for an own key and for a name outside the table;
    for an inherited key it is not a number, which the subtraction in the
    comparator turns into [NaN]. *)
Definition attrOrder (n : string) : number :=
  match ATTR_ORDER !! n with
  | Some k => Num k
  | None =>
      if inherited n then NaN
      else if startsWith n "aria-" then Num 5
      else Num 30
  end.

Definition filterClasses (classStr : string) : string :=
  join " "
    (List.filter
       (fun cls => truthy cls && negb (existsb (fun p => p cls) GENERATED_CLASS_PATTERNS))
       (split_whitespace classStr)).

Definition escapeHtml (text : string) : string :=
  replaceAll ">" "&gt;" (replaceAll "<" "&lt;" (replaceAll "&" "&amp;" text)).

Definition escapeAttr (value : string) : string :=
  replaceAll ">" "&gt;"
    (replaceAll "<" "&lt;"
       (replaceAll (ascii_of_N 34) "&quot;" (replaceAll "&" "&amp;" value))).

(** *** The builder class *)

Record AIDomBuilder := { _html : list string; _iframeRefs : list string }.

Definition new_AIDomBuilder : AIDomBuilder := {| _html := []; _iframeRefs := [] |}.

(** [this._html.push(s)] *)
Definition push_html (s : string) (b : AIDomBuilder) : AIDomBuilder :=
  {| _html := _html b ++ [s]; _iframeRefs := _iframeRefs b |}.

(** [this._iframeRefs.push(r)] *)
Definition push_iframeRef (r : string) (b : AIDomBuilder) : AIDomBuilder :=
  {| _html := _html b; _iframeRefs := _iframeRefs b ++ [r] |}.

Definition _isSvgNoise (el : Element) (attrName : string) : bool :=
  has SVG_NOISE_ATTRS attrName
  && (String.eqb (tagName el) "PATH" || String.eqb (tagName el) "POLYGON").

Definition _shouldSkipElement (el : Element) : bool :=
  if has SKIP_TAGS (tagName el) then true
  else if String.eqb (tagName el) "LINK"
          && match getAttribute el "rel" with
             | Some v => String.eqb v "stylesheet"
             | None => false
             end
  then true
  else false.

(** The first loop of [_serializeAttributes]: [attrs] is the array being
    filled by [attrs.push]. *)
Fixpoint collectAttributes (el : Element) (source attrs : list (string * string))
  : list (string * string) :=
  match source with
  | [] => attrs
  | (n, v) :: rest =>
      if shouldSkipAttribute n then collectAttributes el rest attrs
      else if String.eqb n "ref" then collectAttributes el rest attrs
      else if _isSvgNoise el n then collectAttributes el rest (attrs ++ [(n, "...")])
      else if String.eqb n "class" then
        let filtered := filterClasses v in
        if truthy filtered then collectAttributes el rest (attrs ++ [("class", filtered)])
        else collectAttributes el rest attrs
      else collectAttributes el rest (attrs ++ [(n, v)])
  end.

(** [(a, b) => attrOrder(a[0]) - attrOrder(b[0])] *)
Definition compareAttrs (a b : string * string) : number :=
  minus (attrOrder (fst a)) (attrOrder (fst b)).

(** The attribute array after [attrs.sort(...)]. *)
Definition sortedAttributes (el : Element) : list (string * string) :=
  sort compareAttrs (collectAttributes el (attributes el) []).

Definition attributeText (a : string * string) : string :=
  " " +:+ fst a +:+ "=" +:+ quote +:+ escapeAttr (snd a) +:+ quote.

Definition _serializeAttributes (el : Element) (b : AIDomBuilder) : AIDomBuilder :=
  fold_left (fun b a => push_html (attributeText a) b) (sortedAttributes el) b.

Definition _serializeRef (el : Element) (b : AIDomBuilder) : AIDomBuilder :=
  match ariaRef_ref el with
  | Some r => if truthy r then push_html (" ref=" +:+ quote +:+ r +:+ quote) b else b
  | None => b
  end.

(** The child loop, over the element serializer it dispatches to. *)
Definition serializeChildrenWith
  (serializeElement : Element -> AIDomBuilder -> AIDomBuilder)
  : list Node -> AIDomBuilder -> AIDomBuilder :=
  fix loop (children : list Node) (b : AIDomBuilder) {struct children} :=
    match children with
    | [] => b
    | child :: rest =>
        loop rest
          match child with
          | TextNode text =>
              if truthy (trim text) then push_html (escapeHtml text) b else b
          | ElementNode el => serializeElement el b
          | _ => b
          end
    end.

Fixpoint _serializeElement (el : Element) (b : AIDomBuilder) {struct el} : AIDomBuilder :=
  match el with
  | mkElement tag _ _ children shadow =>
      if _shouldSkipElement el then b
      else
        let tagLower := toLowerCase tag in
        let b :=
          if String.eqb tag "IFRAME" then
            match ariaRef_ref el with
            | Some r => if truthy r then push_iframeRef r b else b
            | None => b
            end
          else b in
        let b := push_html ("<" +:+ tagLower) b in
        let b := _serializeAttributes el b in
        let b := _serializeRef el b in
        let b := push_html ">" b in
        if has VOID_TAGS tag then b
        else
          let b := serializeChildrenWith _serializeElement children b in
          let b :=
            match shadow with
            | Some shadowChildren =>
                let b := push_html "<!-- shadow-root -->" b in
                let b := serializeChildrenWith _serializeElement shadowChildren b in
                push_html "<!-- /shadow-root -->" b
            | None => b
            end in
          push_html ("</" +:+ tagLower +:+ ">") b
  end.

Definition _serializeChildren : list Node -> AIDomBuilder -> AIDomBuilder :=
  serializeChildrenWith _serializeElement.

(** [{ html, iframeRefs }] *)
Record ExtractionResult := { html : string; iframeRefs : list string }.

(** [build(root)], with the builder object it leaves behind. *)
Definition build (root : Element) (this : AIDomBuilder) : ExtractionResult * AIDomBuilder :=
  let this := {| _html := []; _iframeRefs := _iframeRefs this |} in
  let this := {| _html := _html this; _iframeRefs := [] |} in
  let this := _serializeElement root this in
  ({| html := join "" (_html this); iframeRefs := _iframeRefs this |}, this).

(** A document, as far as the injection reads it: [document.body]. *)
Record Document := { body : Element }.

Definition AIDomBuilderInjection (document : Document) : ExtractionResult :=
  fst (build (body document) new_AIDomBuilder).

End DomExtractor.

(** ** domState.ts: frame stitching and the per-session orchestrator *)
Module DomState.
Import JS DomExtractor.

(** *** The page as the host process reaches it *)

(** A rendering context with its document and the child frames that
    [locator('aria-ref=REF').contentFrame()] can still enter; a ref that is
    not listed (navigated away, detached, cross-origin) makes the call on
    that frame throw. *)
Inductive Frame :=
| mkFrame (document : Document) (contentFrames : list (string * Frame)).

Definition document (f : Frame) : Document :=
  match f with mkFrame d _ => d end.
Definition contentFrames (f : Frame) : list (string * Frame) :=
  match f with mkFrame _ c => c end.

(** [mainFrame = None]: the page was closed or is navigating, so
    [page.evaluate] rejects. *)
Record Page := { mainFrame : option Frame }.

Fixpoint contentFrame (frames : list (string * Frame)) (r : string) : option Frame :=
  match frames with
  | [] => None
  | (r', f) :: rest => if String.eqb r' r then Some f else contentFrame rest r
  end.

(** [frame.evaluate(AIDomBuilderInjection)] *)
Definition evaluate (f : Frame) : ExtractionResult :=
  AIDomBuilderInjection (document f).

(** The sequence-numbered file of one diff. *)
Record DiffArtifact := { sequence : nat; path : string; content : string }.

(** What a call does outside the process: serializer runs in a rendering
    context (the main one or the frame behind a ref) and file operations. *)
Inductive Event :=
| Evaluate (target : option string)
| Mkdir (dir : string)
| WriteFile (file content : string)
| WriteDiff (d : DiffArtifact)
| Rm (dir : string).

Definition LF : string := String (ascii_of_N 10) EmptyString.

Definition iframeEmpty (r : string) : string :=
  "<iframe ref=" +:+ quote +:+ r +:+ quote +:+ "></iframe>".

Definition iframeStitched (r childHtml : string) : string :=
  "<iframe ref=" +:+ quote +:+ r +:+ quote +:+ ">" +:+ LF +:+ "<!-- BEGIN IFRAME " +:+ r +:+ " -->"
  +:+ LF +:+ childHtml +:+ LF +:+ "<!-- END IFRAME " +:+ r +:+ " -->" +:+ LF
  +:+ "</iframe>".

(** The variable [html] of [extractFullDom] together with the trace. *)
Definition Stitching : Type := string * list Event.

(** The inner loop over [child.iframeRefs]. A throwing [contentFrame] call
    leaves the loop for the enclosing [catch]; [html] keeps what was
    assigned so far. *)
Fixpoint stitchNested (frame : Frame) (childRefs : list string) (st : Stitching)
  : Stitching :=
  match childRefs with
  | [] => st
  | childRef :: rest =>
      match contentFrame (contentFrames frame) childRef with
      | None => st
      | Some nestedFrame =>
          let nested := evaluate nestedFrame in
          stitchNested frame rest
            (replace (fst st) (iframeEmpty childRef)
                     (iframeStitched childRef (html nested)),
             snd st ++ [Evaluate (Some childRef)])
      end
  end.

(** The [try { ... } catch { }] body of the outer loop for one ref. *)
Definition stitchFrame (main : Frame) (st : Stitching) (r : string) : Stitching :=
  match contentFrame (contentFrames main) r with
  | None => st
  | Some frame =>
      let child := evaluate frame in
      stitchNested frame (iframeRefs child)
        (replace (fst st) (iframeEmpty r) (iframeStitched r (html child)),
         snd st ++ [Evaluate (Some r)])
  end.

(** The loop [for (const ref of main.iframeRefs)]. *)
Definition stitchAll (main : Frame) (refs : list string) (st : Stitching) : Stitching :=
  fold_left (stitchFrame main) refs st.

(** [extractFullDom(page)]; [None] is a rejected promise. *)
Definition extractFullDom (page : Page) : option string * list Event :=
  match mainFrame page with
  | None => (None, [])
  | Some frame =>
      let main := evaluate frame in
      let st := stitchAll frame (iframeRefs main) (html main, [Evaluate None]) in
      (Some (fst st), snd st)
  end.

(** *** Libraries outside the repository *)
Record Libs := {
  (** [html_beautify(html, BEAUTIFY_OPTIONS)] of js-beautify *)
  html_beautify : string -> string;
  (** [diff.createPatch(fileName, oldStr, newStr, undefined, undefined, { context: 3 })] *)
  createPatch : string -> string -> string -> string;
  (** [path.join(...segments)] *)
  path_join : list string -> string
}.

Definition prettyPrintHtml (L : Libs) (raw : string) : string := html_beautify L raw.

(** *** formatDiffName *)

Record ToolArgs := { arg_ref : option string; arg_value : option string }.

(** [.replace(/[^a-zA-Z0-9-]/g, '-')] *)
Fixpoint sanitizeChars (s : string) : string :=
  match s with
  | EmptyString => EmptyString
  | String c s' =>
      String (if isAlnum c || (code c =? 45)%N then c else "-"%char) (sanitizeChars s')
  end.

(** [.replace(/-+/g, '-')] *)
Fixpoint collapseHyphens (s : string) : string :=
  match s with
  | EmptyString => EmptyString
  | String c s' =>
      if (code c =? 45)%N then
        match s' with
        | String d _ => if (code d =? 45)%N then collapseHyphens s'
                        else String c (collapseHyphens s')
        | EmptyString => String c EmptyString
        end
      else String c (collapseHyphens s')
  end.

Definition formatDiffName (counter : nat) (toolName : string) (toolArgs : ToolArgs) : string :=
  let num := padStart 3 "0" (ofNat counter) in
  let action := replace toolName "browser_" "" in
  let r := match arg_ref toolArgs with Some r => r | None => "" end in
  let value := match arg_value toolArgs with Some v => slice0 20 v | None => "" end in
  let suffix :=
    collapseHyphens (sanitizeChars (join "-" (List.filter truthy [r; value]))) in
  num +:+ "-" +:+ action +:+ (if truthy suffix then "-" +:+ suffix else "") +:+ ".diff".

(** *** class DomState *)

Record DomState := {
  _previousDom : option string;
  _diffCounter : nat;
  _stateDir : option string
}.

Definition new_DomState : DomState :=
  {| _previousDom := None; _diffCounter := 0; _stateDir := None |}.

(** [process.env] as read by [_ensureStateDir]. *)
Record Env := {
  PW_DOM_STATE_INSTANCE_ID : option string;
  PW_DOM_STATE_WORKSPACE : option string
}.

(** The [Context] members [_ensureStateDir] calls. *)
Record Context := { hasExplicitRoots : bool; firstRootPath : string }.

(** Truthiness of a [string | undefined]. *)
Definition defined (o : option string) : bool :=
  match o with Some s => truthy s | None => false end.

Record DomStateResult := {
  domPath : string;
  ariaPath : string;
  diffPath : option string;
  diff : option string
}.

(** The arguments of one [update()] call and the environment it runs in. *)
Record Call := {
  page : Page;
  context : Context;
  env : Env;
  toolName : string;
  toolArgs : ToolArgs;
  ariaSnapshot : string
}.

Section WithLibs.
Variable L : Libs.

Definition _ensureStateDir (this : DomState) (e : Env) (ctx : Context)
  : option string * DomState * list Event :=
  if defined (_stateDir this) then (_stateDir this, this, [])
  else
    let resolved :=
      if defined (PW_DOM_STATE_INSTANCE_ID e) && defined (PW_DOM_STATE_WORKSPACE e) then
        match PW_DOM_STATE_INSTANCE_ID e, PW_DOM_STATE_WORKSPACE e with
        | Some instanceId, Some muxWorkspace =>
            Some (path_join L [muxWorkspace; ".playwright-mcp"; "browser-state"; instanceId])
        | _, _ => None
        end
      else if hasExplicitRoots ctx then
        Some (path_join L [firstRootPath ctx; ".playwright-mcp"; "browser-state"])
      else None in
    match resolved with
    | None => (None, this, [])
    | Some dir =>
        (Some dir,
         {| _previousDom := _previousDom this;
            _diffCounter := _diffCounter this;
            _stateDir := Some dir |},
         [Mkdir dir; Mkdir (path_join L [dir; "diffs"])])
    end.

Definition update (this : DomState) (c : Call)
  : option DomStateResult * DomState * list Event :=
  (* 1. Resolve workspace directory *)
  let '(stateDir, this, ev1) := _ensureStateDir this (env c) (context c) in
  match stateDir with
  | None => (None, this, ev1)
  | Some dir =>
      if negb (truthy dir) then (None, this, ev1)
      else
        (* 2. Extract DOM from browser *)
        let '(extracted, ev2) := extractFullDom (page c) in
        match extracted with
        | None => (None, this, ev1 ++ ev2)
        | Some rawHtml =>
            (* 3. Pretty-print *)
            let dom := prettyPrintHtml L rawHtml in
            (* 4. Compute diff against previous *)
            let diffStr :=
              match _previousDom this with
              | Some previous =>
                  let patch := createPatch L "dom.html" previous dom in
                  if includes patch "@@" then Some patch else None
              | None => None
              end in
            (* 5. Write files *)
            let domPath := path_join L [dir; "dom.html"] in
            let ariaPath := path_join L [dir; "accessibility-tree.yaml"] in
            let ev3 := [WriteFile domPath dom; WriteFile ariaPath (ariaSnapshot c)] in
            (* 6. Write diff file *)
            let '(diffPath, counter, ev4) :=
              match diffStr with
              | Some d =>
                  if truthy d then
                    let counter := S (_diffCounter this) in
                    let diffName := formatDiffName counter (toolName c) (toolArgs c) in
                    let diffPath := path_join L [dir; "diffs"; diffName] in
                    (Some diffPath, counter,
                     [WriteDiff {| sequence := counter; path := diffPath; content := d |}])
                  else (None, _diffCounter this, [])
              | None => (None, _diffCounter this, [])
              end in
            (* 7. Update state *)
            (Some {| domPath := domPath; ariaPath := ariaPath;
                     diffPath := diffPath; diff := diffStr |},
             {| _previousDom := Some dom;
                _diffCounter := counter;
                _stateDir := _stateDir this |},
             ev1 ++ ev2 ++ ev3 ++ ev4)
        end
  end.


(** Successive [update()] calls on one [DomState]: the results in call
    order, the final state and the whole trace. *)
Fixpoint session (this : DomState) (calls : list Call)
  : list (option DomStateResult) * DomState * list Event :=
  match calls with
  | [] => ([], this, [])
  | c :: rest =>
      let '(r, this, ev) := update this c in
      let '(rs, this, evs) := session this rest in
      (r :: rs, this, ev ++ evs)
  end.
End WithLibs.

(** The sequence numbers of the diff files a trace writes, in order. *)
Fixpoint diffSequence (trace : list Event) : list nat :=
  match trace with
  | [] => []
  | WriteDiff d :: rest => sequence d :: diffSequence rest
  | _ :: rest => diffSequence rest
  end.

(** The rendering contexts a trace runs the serializer in. *)
Fixpoint evaluations (trace : list Event) : list (option string) :=
  match trace with
  | [] => []
  | Evaluate t :: rest => t :: evaluations rest
  | _ :: rest => evaluations rest
  end.

End DomState.

(** ** domState.ts on a file system that can reject

    [fs.promises.mkdir] and [fs.promises.writeFile] are awaited without a
    [try]: when one of them rejects, [_ensureStateDir] and [update] throw at
    that point, with the assignments made before it in place. The
    definitions of [DomState] above are these on a file system that carries
    out every operation. *)
Module FallibleFs.
Import JS DomExtractor DomState.

(** What an [async] method does: it returns a value or it throws. *)
Inductive Outcome (A : Type) : Type :=
| Returned (value : A)
| Threw.
Arguments Returned {A} value.
Arguments Threw {A}.

(** The file system at the time of a call: the operations it carries
    out. The trace of a call lists the operations carried out. *)
Definition FileSystem : Type := Event -> bool.

Definition accepting : FileSystem := fun _ => true.

Section WithLibs.
Variable L : Libs.

Definition _ensureStateDir (fs : FileSystem) (this : DomState) (e : Env) (ctx : Context)
  : Outcome (option string) * DomState * list Event :=
  if defined (_stateDir this) then (Returned (_stateDir this), this, [])
  else
    let resolved :=
      if defined (PW_DOM_STATE_INSTANCE_ID e) && defined (PW_DOM_STATE_WORKSPACE e) then
        match PW_DOM_STATE_INSTANCE_ID e, PW_DOM_STATE_WORKSPACE e with
        | Some instanceId, Some muxWorkspace =>
            Some (path_join L [muxWorkspace; ".playwright-mcp"; "browser-state"; instanceId])
        | _, _ => None
        end
      else if hasExplicitRoots ctx then
        Some (path_join L [firstRootPath ctx; ".playwright-mcp"; "browser-state"])
      else None in
    match resolved with
    | None => (Returned None, this, [])
    | Some dir =>
        let this := {| _previousDom := _previousDom this;
                       _diffCounter := _diffCounter this;
                       _stateDir := Some dir |} in
        if negb (fs (Mkdir dir)) then (Threw, this, [])
        else if negb (fs (Mkdir (path_join L [dir; "diffs"]))) then
          (Threw, this, [Mkdir dir])
        else (Returned (Some dir), this, [Mkdir dir; Mkdir (path_join L [dir; "diffs"])])
    end.

Definition update (fs : FileSystem) (this : DomState) (c : Call)
  : Outcome (option DomStateResult) * DomState * list Event :=
  (* 1. Resolve workspace directory *)
  let '(stateDir, this, ev1) := _ensureStateDir fs this (env c) (context c) in
  match stateDir with
  | Threw => (Threw, this, ev1)
  | Returned None => (Returned None, this, ev1)
  | Returned (Some dir) =>
      if negb (truthy dir) then (Returned None, this, ev1)
      else
        (* 2. Extract DOM from browser *)
        let '(extracted, ev2) := extractFullDom (page c) in
        match extracted with
        | None => (Returned None, this, ev1 ++ ev2)
        | Some rawHtml =>
            (* 3. Pretty-print *)
            let dom := prettyPrintHtml L rawHtml in
            (* 4. Compute diff against previous *)
            let diffStr :=
              match _previousDom this with
              | Some previous =>
                  let patch := createPatch L "dom.html" previous dom in
                  if includes patch "@@" then Some patch else None
              | None => None
              end in
            (* 5. Write files *)
            let domPath := path_join L [dir; "dom.html"] in
            let ariaPath := path_join L [dir; "accessibility-tree.yaml"] in
            if negb (fs (WriteFile domPath dom)) then (Threw, this, ev1 ++ ev2)
            else if negb (fs (WriteFile ariaPath (ariaSnapshot c))) then
              (Threw, this, ev1 ++ ev2 ++ [WriteFile domPath dom])
            else
              let ev3 := [WriteFile domPath dom; WriteFile ariaPath (ariaSnapshot c)] in
              let unchanged :=
                (Returned (Some {| domPath := domPath; ariaPath := ariaPath;
                                   diffPath := None; diff := diffStr |}),
                 {| _previousDom := Some dom;
                    _diffCounter := _diffCounter this;
                    _stateDir := _stateDir this |},
                 ev1 ++ ev2 ++ ev3) in
              (* 6. Write diff file *)
              match diffStr with
              | Some d =>
                  if truthy d then
                    let counter := S (_diffCounter this) in
                    let this := {| _previousDom := _previousDom this;
                                   _diffCounter := counter;
                                   _stateDir := _stateDir this |} in
                    let diffName := formatDiffName counter (toolName c) (toolArgs c) in
                    let diffPath := path_join L [dir; "diffs"; diffName] in
                    let file := {| sequence := counter; path := diffPath; content := d |} in
                    if negb (fs (WriteDiff file)) then (Threw, this, ev1 ++ ev2 ++ ev3)
                    else
                      (* 7. Update state *)
                      (Returned (Some {| domPath := domPath; ariaPath := ariaPath;
                                         diffPath := Some diffPath; diff := diffStr |}),
                       {| _previousDom := Some dom;
                          _diffCounter := counter;
                          _stateDir := _stateDir this |},
                       ev1 ++ ev2 ++ ev3 ++ [WriteDiff file])
                  else unchanged
              | None => unchanged
              end
        end
  end.

(** Successive [update()] calls on one [DomState], each with the file
    system as it is at that time; a call that throws does not keep the
    next one from being made. *)
Fixpoint session (this : DomState) (calls : list (Call * FileSystem))
  : list (Outcome (option DomStateResult)) * DomState * list Event :=
  match calls with
  | [] => ([], this, [])
  | (c, fs) :: rest =>
      let '(r, this, ev) := update fs this c in
      let '(rs, this, evs) := session this rest in
      (r :: rs, this, ev ++ evs)
  end.
End WithLibs.

(** The diff files a trace writes, in order. *)
Fixpoint diffFiles (trace : list Event) : list DiffArtifact :=
  match trace with
  | [] => []
  | WriteDiff d :: rest => d :: diffFiles rest
  | _ :: rest => diffFiles rest
  end.

End FallibleFs.

(** ** JavaScript [Map]s and objects with string keys

    The entries in insertion order, one entry per key. *)
Module JSMap.

Definition Map (V : Type) : Type := list (string * V).

Section MapOperations.
Context {V : Type}.

Fixpoint Map_get (m : Map V) (k : string) : option V :=
  match m with
  | [] => None
  | (k', v) :: rest => if String.eqb k' k then Some v else Map_get rest k
  end.

(** [set] keeps the position of a key that is present, and appends a new
    key. *)
Fixpoint Map_set (m : Map V) (k : string) (v : V) : Map V :=
  match m with
  | [] => [(k, v)]
  | (k', v') :: rest =>
      if String.eqb k' k then (k', v) :: rest else (k', v') :: Map_set rest k v
  end.

Fixpoint Map_delete (m : Map V) (k : string) : Map V :=
  match m with
  | [] => []
  | (k', v') :: rest =>
      if String.eqb k' k then rest else (k', v') :: Map_delete rest k
  end.

Definition Map_size (m : Map V) : nat := length m.
Definition Map_keys (m : Map V) : list string := map fst m.
Definition Map_values (m : Map V) : list V := map snd m.
End MapOperations.

End JSMap.

(** ** The multiplexer's instance registry

    The class [InstanceManager] (imported by the other modules as
    [./instance-manager.js]; in the source tree its text is the second
    part of [auth-manager.ts]), with the types of [types.ts].
    [InstanceManager] spawns one child server per browser instance and
    hands it the two environment variables [DomState._ensureStateDir]
    reads. Its methods are written in state-passing style over the fields
    of the class. The calls it awaits (the file-system calls of
    [copyProfile] and [createLaunchConfig], [client.connect], [client.ping],
    [Date.now]) happen outside the repository: what they return for one
    [create] is a [Launch], and the contents of the files they write are
    not part of the state. Each method is one step: the embedding covers
    calls that do not overlap at their [await]s. *)
Module InstanceManager.
Import JS JSMap.

(** The members of [InstanceConfig] the class reads, all optional. *)
Module InstanceConfig.
Record t := {
  headless : option bool;
  browser : option string;
  storageState : option string;
  userDataDir : option string;
  cdpEndpoint : option string;
  extension : option bool;
  domState : option bool;
  args : option (list string)
}.
End InstanceConfig.

(** A JavaScript number as [create] reads [maxInstances]. Its value is a
    rational (every finite double is one), an infinity or [NaN]: the
    command line fills the field with what [parseInt] returns, an integer or
    [NaN], and a caller of the constructor can pass any number.
    [numberText] is what a template literal makes of the number; in
    JavaScript it is a function of the value, here it comes with the
    number, so that nothing proved depends on that conversion. *)
Inductive NumberValue :=
| Finite (q : Q)
| PlusInfinity
| MinusInfinity
| NotANumber.

Record Number := { numberValue : NumberValue; numberText : string }.

(** The literal [10]. *)
Definition ten : Number := {| numberValue := Finite (inject_Z 10); numberText := "10" |}.

Module MultiplexerConfig.
Record t := {
  maxInstances : option Number;
  defaultHeadless : option bool;
  defaultBrowser : option string;
  authDir : option string;
  cliPath : option string;
  userDataDir : option string;
  profileName : option string;
  cdpEndpoint : option string;
  extension : option bool
}.
End MultiplexerConfig.

(** [Required<MultiplexerConfig>] *)
Module RequiredConfig.
Record t := {
  maxInstances : Number;
  defaultHeadless : bool;
  defaultBrowser : string;
  authDir : string;
  cliPath : string;
  userDataDir : string;
  profileName : string;
  cdpEndpoint : string;
  extension : bool
}.
End RequiredConfig.

Inductive Status := starting | ready | closed.

Definition Status_text (s : Status) : string :=
  match s with
  | starting => "starting"
  | ready => "ready"
  | closed => "closed"
  end.

(** The options [StdioClientTransport] is constructed with. *)
Module StdioClientTransport.
Record t := {
  command : string;
  args : list string;
  stderr : string;
  env : gmap string string
}.
End StdioClientTransport.

(** The options [Client] is constructed with. *)
Module Client.
Record t := { name : string; version : string }.
End Client.

Module ManagedInstance.
Record t := {
  id : string;
  client : option Client.t;
  transport : option StdioClientTransport.t;
  config : InstanceConfig.t;
  createdAt : nat;
  status : Status
}.
End ManagedInstance.

(** What the process and the Node.js library give. *)
Record Host := {
  path_join : list string -> string;
  path_dirname : string -> string;
  os_homedir : string;
  os_tmpdir : string;
  __dirname : string;
  (** [require.resolve], [None] when it throws *)
  require_resolve : string -> option string;
  process_env : gmap string string;
  process_platform : string
}.

(** What the calls awaited by one [create] do: the message of the error
    they throw, if any, and the clock. *)
Record Launch := {
  copyProfileError : option string;
  createLaunchConfigError : option string;
  connectError : option string;
  now : nat
}.

(** [size >= n] for the size of a map; a comparison with [NaN] is false. *)
Definition atLeast (size : nat) (n : Number) : bool :=
  match numberValue n with
  | Finite q => Qle_bool q (inject_Z (Z.of_nat size))
  | PlusInfinity => false
  | MinusInfinity => true
  | NotANumber => false
  end.

Inductive Error :=
| MaximumReached (maxInstances : Number)
| HostError (message : string)
| FailedToCreate (id message : string)
| NotFound (id : string)
| NotReady (id : string) (status : Status).

Definition message (e : Error) : string :=
  match e with
  | MaximumReached maxInstances =>
      "Maximum number of instances (" +:+ numberText maxInstances +:+ ") reached"
  | HostError message => message
  | FailedToCreate id message =>
      "Failed to create instance " +:+ id +:+ ": " +:+ message
  | NotFound id => "Instance " +:+ quoted id +:+ " not found"
  | NotReady id status =>
      "Instance " +:+ quoted id +:+ " is not ready (status: "
      +:+ Status_text status +:+ ")"
  end.

(** The fields of the class. *)
Record InstanceManager := {
  instances : Map ManagedInstance.t;
  profileDirs : Map string;
  configFiles : Map string;
  nextId : nat;
  config : RequiredConfig.t;
  workspaceRoot : option string
}.

Definition with_instances (this : InstanceManager) (m : Map ManagedInstance.t)
  : InstanceManager :=
  {| instances := m; profileDirs := profileDirs this; configFiles := configFiles this;
     nextId := nextId this; config := config this; workspaceRoot := workspaceRoot this |}.

Definition with_profileDirs (this : InstanceManager) (m : Map string) : InstanceManager :=
  {| instances := instances this; profileDirs := m; configFiles := configFiles this;
     nextId := nextId this; config := config this; workspaceRoot := workspaceRoot this |}.

Definition with_configFiles (this : InstanceManager) (m : Map string) : InstanceManager :=
  {| instances := instances this; profileDirs := profileDirs this; configFiles := m;
     nextId := nextId this; config := config this; workspaceRoot := workspaceRoot this |}.

Definition with_nextId (this : InstanceManager) (n : nat) : InstanceManager :=
  {| instances := instances this; profileDirs := profileDirs this;
     configFiles := configFiles this;
     nextId := n; config := config this; workspaceRoot := workspaceRoot this |}.

(** [a || b] on a [string | undefined] and a string *)
Definition orElse (a : option string) (b : string) : string :=
  match a with
  | Some s => if truthy s then s else b
  | None => b
  end.

(** [a ?? b] *)
Definition coalesce {A : Type} (a : option A) (b : A) : A :=
  match a with
  | Some x => x
  | None => b
  end.

Section WithHost.
Variable H : Host.

Definition resolveDefaultCliPath : string :=
  match require_resolve H "@playwright/mcp/package.json" with
  | Some mcpPkgPath => path_join H [path_dirname H mcpPkgPath; "cli.js"]
  | None => path_join H [__dirname H; ".."; ".."; "playwright-mcp"; "cli.js"]
  end.

(** The constructor. *)
Definition new_InstanceManager (config : MultiplexerConfig.t) : InstanceManager :=
  {| instances := [];
     profileDirs := [];
     configFiles := [];
     nextId := 1;
     config :=
       {| RequiredConfig.maxInstances := coalesce (MultiplexerConfig.maxInstances config) ten;
          RequiredConfig.defaultHeadless :=
            coalesce (MultiplexerConfig.defaultHeadless config) true;
          RequiredConfig.defaultBrowser :=
            coalesce (MultiplexerConfig.defaultBrowser config) "chrome";
          RequiredConfig.authDir :=
            coalesce (MultiplexerConfig.authDir config)
                     (path_join H [os_homedir H; ".pride-riot"; "auth"]);
          RequiredConfig.cliPath :=
            coalesce (MultiplexerConfig.cliPath config) resolveDefaultCliPath;
          RequiredConfig.userDataDir := coalesce (MultiplexerConfig.userDataDir config) "";
          RequiredConfig.profileName :=
            coalesce (MultiplexerConfig.profileName config) "Default";
          RequiredConfig.cdpEndpoint := coalesce (MultiplexerConfig.cdpEndpoint config) "";
          RequiredConfig.extension := coalesce (MultiplexerConfig.extension config) false |};
     workspaceRoot := None |}.

Definition setWorkspaceRoot (this : InstanceManager) (root : option string)
  : InstanceManager :=
  {| instances := instances this; profileDirs := profileDirs this;
     configFiles := configFiles this; nextId := nextId this; config := config this;
     workspaceRoot := root |}.

(** The copy itself is done by the host; a file that is missing is
    skipped there, any other failure is [copyProfileError]. *)
Definition copyProfile (this : InstanceManager) (instanceId sourceDir browser : string)
                       (w : Launch)
  : (Error + string) * InstanceManager :=
  let profileRoot := path_join H [os_tmpdir H; "pw-mux"; "profile-" +:+ instanceId] in
  match copyProfileError w with
  | Some message => (inl (HostError message), this)
  | None =>
      (inr profileRoot,
       with_profileDirs this (Map_set (profileDirs this) instanceId profileRoot))
  end.

Definition createLaunchConfig (this : InstanceManager) (instanceId : string)
                              (headless : bool) (browser : string) (w : Launch)
  : (Error + string) * InstanceManager :=
  let tmpDir := path_join H [os_tmpdir H; "pw-mux"] in
  let configPath := path_join H [tmpDir; "launch-" +:+ instanceId +:+ ".json"] in
  match createLaunchConfigError w with
  | Some message => (inl (HostError message), this)
  | None =>
      (inr configPath,
       with_configFiles this (Map_set (configFiles this) instanceId configPath))
  end.

Definition buildArgs (this : InstanceManager) (instanceId : string)
                     (instanceConfig : InstanceConfig.t) (w : Launch)
  : (Error + list string) * InstanceManager :=
  (* Extension mode *)
  let useExtension :=
    coalesce (InstanceConfig.extension instanceConfig)
             (RequiredConfig.extension (config this)) in
  if useExtension then (inr ["--extension"], this)
  else
    (* CDP mode *)
    let cdpEndpoint :=
      orElse (InstanceConfig.cdpEndpoint instanceConfig)
             (RequiredConfig.cdpEndpoint (config this)) in
    if truthy cdpEndpoint then (inr ["--cdp-endpoint=" +:+ cdpEndpoint], this)
    else
      let args := [] in
      let headless :=
        coalesce (InstanceConfig.headless instanceConfig)
                 (RequiredConfig.defaultHeadless (config this)) in
      let args := if headless then args ++ ["--headless"] else args in
      let browser :=
        coalesce (InstanceConfig.browser instanceConfig)
                 (RequiredConfig.defaultBrowser (config this)) in
      let args := if truthy browser then args ++ ["--browser=" +:+ browser] else args in
      let sourceDir :=
        orElse (InstanceConfig.userDataDir instanceConfig)
               (RequiredConfig.userDataDir (config this)) in
      let '(profile, this) :=
        if truthy sourceDir then
          match copyProfile this instanceId sourceDir browser w with
          | (inr profileRoot, this) => (inr ("--user-data-dir=" +:+ profileRoot), this)
          | (inl e, this) => (inl e, this)
          end
        else (inr "--isolated", this) in
      match profile with
      | inl e => (inl e, this)
      | inr flag =>
          let args := args ++ [flag] in
          match createLaunchConfig this instanceId headless browser w with
          | (inl e, this) => (inl e, this)
          | (inr configPath, this) =>
              let args := args ++ ["--config=" +:+ configPath] in
              let args :=
                if match process_env H !! "CI" with
                   | Some ci => truthy ci
                   | None => false
                   end && String.eqb (process_platform H) "linux"
                then args ++ ["--no-sandbox"] else args in
              let args :=
                match InstanceConfig.args instanceConfig with
                | Some more => args ++ more
                | None => args
                end in
              (inr args, this)
          end
      end.

Definition cleanupProfile (this : InstanceManager) (instanceId : string)
  : InstanceManager :=
  let this :=
    match Map_get (profileDirs this) instanceId with
    | Some profileDir =>
        if truthy profileDir
        then with_profileDirs this (Map_delete (profileDirs this) instanceId)
        else this
    | None => this
    end in
  match Map_get (configFiles this) instanceId with
  | Some configFile =>
      if truthy configFile
      then with_configFiles this (Map_delete (configFiles this) instanceId)
      else this
  | None => this
  end.

(** The environment of the child process. *)
Definition childEnv (this : InstanceManager) (id : string)
                    (instanceConfig : InstanceConfig.t)
  : gmap string string :=
  let env := <["DEBUG" := coalesce (process_env H !! "DEBUG") ""]> (process_env H) in
  match InstanceConfig.domState instanceConfig with
  | Some false => <["PW_DOM_STATE_DISABLED" := "1"]> env
  | _ =>
      let env := <["PW_DOM_STATE_INSTANCE_ID" := id]> env in
      match workspaceRoot this with
      | Some root => if truthy root then <["PW_DOM_STATE_WORKSPACE" := root]> env else env
      | None => env
      end
  end.

(** The instance object is stored in [instances] and completed in place;
    the entry of the map is the object after its last assignment. *)
Definition create (this : InstanceManager) (instanceConfig : InstanceConfig.t)
                  (w : Launch)
  : (Error + ManagedInstance.t) * InstanceManager :=
  if atLeast (Map_size (instances this)) (RequiredConfig.maxInstances (config this)) then
    (inl (MaximumReached (RequiredConfig.maxInstances (config this))), this)
  else
    let id := "inst-" +:+ ofNat (nextId this) in
    let this := with_nextId this (S (nextId this)) in
    match buildArgs this id instanceConfig w with
    | (inl e, this) => (inl e, this)
    | (inr args, this) =>
        let args :=
          match InstanceConfig.storageState instanceConfig with
          | Some state =>
              if truthy state then args ++ ["--storage-state=" +:+ state] else args
          | None => args
          end in
        let instance :=
          {| ManagedInstance.id := id;
             ManagedInstance.client := None;
             ManagedInstance.transport := None;
             ManagedInstance.config := instanceConfig;
             ManagedInstance.createdAt := now w;
             ManagedInstance.status := starting |} in
        let this := with_instances this (Map_set (instances this) id instance) in
        (* try *)
        let env := childEnv this id instanceConfig in
        let transport :=
          {| StdioClientTransport.command := "node";
             StdioClientTransport.args := RequiredConfig.cliPath (config this) :: args;
             StdioClientTransport.stderr := "pipe";
             StdioClientTransport.env := env |} in
        let client :=
          {| Client.name := "multiplexer-" +:+ id; Client.version := "1.0.0" |} in
        let instance :=
          {| ManagedInstance.id := id;
             ManagedInstance.client := Some client;
             ManagedInstance.transport := Some transport;
             ManagedInstance.config := instanceConfig;
             ManagedInstance.createdAt := now w;
             ManagedInstance.status := starting |} in
        let this := with_instances this (Map_set (instances this) id instance) in
        match connectError w with
        | None =>
            let instance :=
              {| ManagedInstance.id := id;
                 ManagedInstance.client := Some client;
                 ManagedInstance.transport := Some transport;
                 ManagedInstance.config := instanceConfig;
                 ManagedInstance.createdAt := now w;
                 ManagedInstance.status := ready |} in
            let this := with_instances this (Map_set (instances this) id instance) in
            (inr instance, this)
        | Some message =>
            (* catch *)
            let this := with_instances this (Map_delete (instances this) id) in
            let this := cleanupProfile this id in
            (inl (FailedToCreate id message), this)
        end
    end.

Definition get (this : InstanceManager) (id : string) : option ManagedInstance.t :=
  Map_get (instances this) id.

Definition getOrThrow (this : InstanceManager) (id : string)
  : Error + ManagedInstance.t :=
  match Map_get (instances this) id with
  | None => inl (NotFound id)
  | Some instance =>
      match ManagedInstance.status instance with
      | ready => inr instance
      | status => inl (NotReady id status)
      end
  end.

(** [client.close()] may throw; the error is swallowed. *)
Definition close (this : InstanceManager) (id : string)
  : option Error * InstanceManager :=
  match Map_get (instances this) id with
  | None => (Some (NotFound id), this)
  | Some instance =>
      let this := with_instances this (Map_delete (instances this) id) in
      let this := cleanupProfile this id in
      (None, this)
  end.

(** [Promise.all] over the keys: the first error, if any, is the one
    reported. *)
Definition closeAll (this : InstanceManager) : option Error * InstanceManager :=
  let ids := Map_keys (instances this) in
  fold_left
    (fun (acc : option Error * InstanceManager) id =>
       let '(e, this) := close (snd acc) id in
       (match fst acc with Some first => Some first | None => e end, this))
    ids (None, this).

Definition getConfig (this : InstanceManager) : RequiredConfig.t := config this.

Definition list (this : InstanceManager) : Datatypes.list ManagedInstance.t :=
  Map_values (instances this).
End WithHost.

End InstanceManager.

(** ** Exported authentication state

    The class [AuthManager], the first part of [auth-manager.ts].

    The parts of [AuthManager] that compute text: the path of the export
    and the code handed to the child's [browser_run_code] tool. The calls
    around them ([mkdir], [callTool], [readFile], [chmod]) are the host's. *)
Module AuthManager.
Import JS.

Definition backslash : ascii := ascii_of_N 92.
Definition apostrophe : ascii := ascii_of_N 39.

(** The constant [escapedPath] of [exportState]: every backslash is
    doubled, then every apostrophe gets a backslash in front. *)
Definition escapedPath (outputPath : string) : string :=
  replaceAll apostrophe (String backslash (String apostrophe EmptyString))
    (replaceAll backslash (String backslash (String backslash EmptyString)) outputPath).

(** The [code] argument of the [browser_run_code] call. *)
Definition storageStateCode (outputPath : string) : string :=
  "await page.context().storageState({ path: '" +:+ escapedPath outputPath +:+ "' })".

(** The global replacement of the class of the colon and the full stop by
    a hyphen. *)
Fixpoint timestamp (isoString : string) : string :=
  match isoString with
  | EmptyString => EmptyString
  | String c rest =>
      String (if Ascii.eqb c ":" || Ascii.eqb c "." then "-"%char else c) (timestamp rest)
  end.

(** [isoString] is what [new Date().toISOString()] returns. *)
Definition generateOutputPath (path_join : list string -> string)
                              (authDir instanceId isoString : string) : string :=
  path_join [authDir; "state-" +:+ instanceId +:+ "-" +:+ timestamp isoString +:+ ".json"].

End AuthManager.

(** ** The tools of the multiplexer ([tool-registry.ts]) *)
Module ToolRegistry.
Import JS JSMap.

(** JSON values; numbers are the integers. *)
Inductive JSON :=
| JNull
| JBool (b : bool)
| JNumber (z : Z)
| JString (s : string)
| JArray (items : list JSON)
| JObject (fields : Map JSON).

(** An [inputSchema]: the two members [augmentWithInstanceId] touches and
    the remaining ones. *)
Record Schema := {
  type : string;
  properties : option (Map JSON);
  required : option (list string);
  additional : Map JSON
}.

Record Tool := {
  name : string;
  description : option string;
  inputSchema : Schema;
  rest : Map JSON
}.

Definition property (type description : string) : JSON :=
  JObject [("type", JString type); ("description", JString description)].

Definition MANAGEMENT_TOOLS : list Tool :=
  [ {| name := "instance_create";
       description :=
         Some "Create a new browser instance. Returns the instance ID for use with other tools.";
       inputSchema :=
         {| type := "object";
            properties :=
              Some [ ("headless",
                      property "boolean" "Run browser in headless mode (default: true)");
                     ("browser",
                      JObject [ ("type", JString "string");
                                ("enum", JArray [JString "chrome"; JString "chromium";
                                                 JString "firefox"; JString "webkit"]);
                                ("description",
                                 JString "Browser type (default: from server config)") ]);
                     ("storageState",
                      property "string"
                        "Path to a storageState JSON file for pre-authenticated sessions");
                     ("userDataDir",
                      property "string"
                        "Path to a Chrome user data directory to copy auth state from (overrides default)");
                     ("domState",
                      property "boolean"
                        "Enable DOM state file output (default: true). Set to false to disable DOM/diff file generation for this instance.") ];
            required := None;
            additional := [] |};
       rest := [] |};
    {| name := "instance_list";
       description := Some "List all active browser instances with their IDs and status.";
       inputSchema :=
         {| type := "object"; properties := Some []; required := None; additional := [] |};
       rest := [] |};
    {| name := "instance_close";
       description := Some "Close a specific browser instance and release its resources.";
       inputSchema :=
         {| type := "object";
            properties := Some [("instanceId", property "string" "The instance ID to close")];
            required := Some ["instanceId"];
            additional := [] |};
       rest := [] |};
    {| name := "instance_close_all";
       description := Some "Close all browser instances and release all resources.";
       inputSchema :=
         {| type := "object"; properties := Some []; required := None; additional := [] |};
       rest := [] |};
    {| name := "auth_export_state";
       description :=
         Some "Export cookies and localStorage from a browser instance to a JSON file for sharing with other instances.";
       inputSchema :=
         {| type := "object";
            properties :=
              Some [ ("instanceId",
                      property "string" "The instance ID to export auth state from");
                     ("savePath",
                      property "string"
                        "Optional file path to save the state (defaults to auth directory)") ];
            required := Some ["instanceId"];
            additional := [] |};
       rest := [] |} ].

Definition MANAGEMENT_TOOL_NAMES : gset string :=
  list_to_set (map name MANAGEMENT_TOOLS).

(** The fields of the class. *)
Record ToolRegistry := {
  proxyTools : list Tool;
  allTools : list Tool;
  initialized : bool
}.

Definition new_ToolRegistry : ToolRegistry :=
  {| proxyTools := []; allTools := []; initialized := false |}.

Definition isManagementTool (name : string) : bool :=
  bool_decide (name ∈ MANAGEMENT_TOOL_NAMES).

Definition isInitialized (this : ToolRegistry) : bool := initialized this.

(** The schema is cloned through JSON, which gives the same value. *)
Definition augmentWithInstanceId (tool : Tool) : Tool :=
  let schema := inputSchema tool in
  let properties :=
    match properties schema with
    | Some properties => properties
    | None => []
    end in
  let properties :=
    Map_set properties "instanceId"
      (property "string"
         "Target browser instance ID (from instance_create or instance_list)") in
  let required :=
    match required schema with
    | Some required => required
    | None => []
    end in
  let required := "instanceId" :: required in
  {| name := name tool;
     description := description tool;
     inputSchema :=
       {| type := type schema;
          properties := Some properties;
          required := Some required;
          additional := additional schema |};
     rest := rest tool |}.

(** [childTools] is what [probeClient.listTools()] resolved to. *)
Definition discoverTools (this : ToolRegistry) (childTools : list Tool) : ToolRegistry :=
  let proxyTools := map augmentWithInstanceId childTools in
  {| proxyTools := proxyTools;
     allTools := MANAGEMENT_TOOLS ++ proxyTools;
     initialized := true |}.

Definition getTools (this : ToolRegistry) : list Tool := allTools this.

Definition getManagementTools (this : ToolRegistry) : list Tool := MANAGEMENT_TOOLS.

Definition isProxyTool (this : ToolRegistry) (name' : string) : bool :=
  existsb (fun t => String.eqb (name t) name') (proxyTools this).

End ToolRegistry.

(** ** Routing a tool call ([tool-router.ts])

    [route], the dispatch of [handleManagementTool] and [handleProxyTool].
    The five handlers of the management tools are parameters of the
    dispatch; the call into the child server is the host's. *)
Module ToolRouter.
Import JS JSMap ToolRegistry.

Inductive ContentItem :=
| TextContent (text : string)
| OtherContent (value : JSON).

Record ToolCallResponse := {
  content : list ContentItem;
  isError : option bool
}.

(** Truthiness of a member that may be missing. *)
Definition truthyValue (v : option JSON) : bool :=
  match v with
  | None => false
  | Some JNull => false
  | Some (JBool b) => b
  | Some (JNumber z) => negb (z =? 0)%Z
  | Some (JString s) => truthy s
  | Some (JArray _) => true
  | Some (JObject _) => true
  end.

Definition ofZ (z : Z) : string :=
  if (z <? 0)%Z then "-" +:+ ofNat (Z.to_nat (- z)) else ofNat (Z.to_nat z).

(** The text a template literal makes of a value. *)
Fixpoint toString (v : JSON) : string :=
  match v with
  | JNull => "null"
  | JBool true => "true"
  | JBool false => "false"
  | JNumber z => ofZ z
  | JString s => s
  | JArray items =>
      join "," (map (fun item => match item with
                                 | JNull => ""
                                 | _ => toString item
                                 end) items)
  | JObject _ => "[object Object]"
  end.

(** What a handler or [route] gives back: a response, or the error it
    throws; and the manager after it. *)
Definition Outcome : Type :=
  (InstanceManager.Error + ToolCallResponse) * InstanceManager.InstanceManager.

Definition Handler : Type :=
  Map JSON -> InstanceManager.InstanceManager -> Outcome.

Record Handlers := {
  handleInstanceCreate : Handler;
  handleInstanceList : Handler;
  handleInstanceClose : Handler;
  handleInstanceCloseAll : Handler;
  handleAuthExport : Handler
}.

Definition errorResponse (text : string) : ToolCallResponse :=
  {| content := [TextContent text]; isError := Some true |}.

Section WithHost.
Variable handlers : Handlers.
(** [instance.client.callTool], with the error it rejects with. *)
Variable callTool :
  InstanceManager.ManagedInstance.t -> string -> Map JSON -> string + ToolCallResponse.

Definition handleManagementTool (name : string) (args : Map JSON) : 
  InstanceManager.InstanceManager -> Outcome :=
  fun instanceManager =>
    if String.eqb name "instance_create" then
      handleInstanceCreate handlers args instanceManager
    else if String.eqb name "instance_list" then
      handleInstanceList handlers args instanceManager
    else if String.eqb name "instance_close" then
      handleInstanceClose handlers args instanceManager
    else if String.eqb name "instance_close_all" then
      handleInstanceCloseAll handlers args instanceManager
    else if String.eqb name "auth_export_state" then
      handleAuthExport handlers args instanceManager
    else
      (inr (errorResponse ("Unknown management tool: " +:+ name)), instanceManager).

(** A key that is not a string is never found in the map of instances;
    the error names it as a template literal does. *)
Definition handleProxyTool (name : string) (args : Map JSON)
  : InstanceManager.InstanceManager -> Outcome :=
  fun instanceManager =>
    let instanceId := Map_get args "instanceId" in
    if negb (truthyValue instanceId) then
      (inr (errorResponse "Missing required parameter: instanceId"), instanceManager)
    else
      let found :=
        match instanceId with
        | Some (JString id) => InstanceManager.getOrThrow instanceManager id
        | Some other => inl (InstanceManager.NotFound (toString other))
        | None => inl (InstanceManager.NotFound "undefined")
        end in
      match found with
      | inl e => (inl e, instanceManager)
      | inr instance =>
          (* Strip instanceId before forwarding to child *)
          let childArgs := Map_delete args "instanceId" in
          match callTool instance name childArgs with
          | inl message => (inl (InstanceManager.HostError message), instanceManager)
          | inr result => (inr result, instanceManager)
          end
      end.

Definition route (toolRegistry : ToolRegistry) (name : string) (args : option (Map JSON))
  : InstanceManager.InstanceManager -> Outcome :=
  fun instanceManager =>
    let args := match args with Some args => args | None => [] end in
    if isManagementTool name then handleManagementTool name args instanceManager
    else if isProxyTool toolRegistry name then handleProxyTool name args instanceManager
    else (inr (errorResponse ("Unknown tool: " +:+ name)), instanceManager).
End WithHost.

End ToolRouter.

(** ** Tool discovery of the server

    [MultiplexerServer.discoverTools] (the class is the last part of
    [tool-router.ts] in the source tree): the tools are asked from a ready
    instance, or from a probe instance created for the purpose and closed
    again. *)
Module MultiplexerServer.
Import JS JSMap.

Section WithHost.
Variable H : InstanceManager.Host.
(** [client.listTools()], with the error it rejects with. *)
Variable listTools : InstanceManager.Client.t -> string + list ToolRegistry.Tool.

(** [toolRegistry.discoverTools(client)]: the registry is assigned only
    after the answer of the client arrived. *)
Definition registryDiscoverTools (toolRegistry : ToolRegistry.ToolRegistry)
                                 (client : option InstanceManager.Client.t)
  : InstanceManager.Error + ToolRegistry.ToolRegistry :=
  match client with
  | Some client =>
      match listTools client with
      | inl message => inl (InstanceManager.HostError message)
      | inr childTools => inr (ToolRegistry.discoverTools toolRegistry childTools)
      end
  | None =>
      inl (InstanceManager.HostError
             "Cannot read properties of null (reading 'listTools')")
  end.

Definition probeConfig : InstanceManager.InstanceConfig.t :=
  {| InstanceManager.InstanceConfig.headless := Some true;
     InstanceManager.InstanceConfig.browser := None;
     InstanceManager.InstanceConfig.storageState := None;
     InstanceManager.InstanceConfig.userDataDir := None;
     InstanceManager.InstanceConfig.cdpEndpoint := None;
     InstanceManager.InstanceConfig.extension := None;
     InstanceManager.InstanceConfig.domState := None;
     InstanceManager.InstanceConfig.args := None |}.

(** The error thrown, if any, and the two objects after the call. In the
    probe branch [close] runs in a [finally]: it runs whether the client
    answered or not, and an error of its own replaces the earlier one. *)
Definition discoverTools (instanceManager : InstanceManager.InstanceManager)
                         (toolRegistry : ToolRegistry.ToolRegistry)
                         (w : InstanceManager.Launch)
  : option InstanceManager.Error * InstanceManager.InstanceManager
    * ToolRegistry.ToolRegistry :=
  let existing :=
    List.find (fun i => match InstanceManager.ManagedInstance.status i with
                        | InstanceManager.ready => true
                        | _ => false
                        end)
              (InstanceManager.list instanceManager) in
  match existing with
  | Some existing =>
      match registryDiscoverTools toolRegistry
              (InstanceManager.ManagedInstance.client existing) with
      | inl e => (Some e, instanceManager, toolRegistry)
      | inr toolRegistry => (None, instanceManager, toolRegistry)
      end
  | None =>
      match InstanceManager.create H instanceManager probeConfig w with
      | (inl e, instanceManager) => (Some e, instanceManager, toolRegistry)
      | (inr probe, instanceManager) =>
          let discovered :=
            registryDiscoverTools toolRegistry
              (InstanceManager.ManagedInstance.client probe) in
          let '(closeError, instanceManager) :=
            InstanceManager.close instanceManager
              (InstanceManager.ManagedInstance.id probe) in
          match discovered with
          | inl e =>
              (Some (match closeError with Some e' => e' | None => e end),
               instanceManager, toolRegistry)
          | inr toolRegistry => (closeError, instanceManager, toolRegistry)
          end
      end
  end.
End WithHost.

End MultiplexerServer.

(** * Properties *)

Import JS DomExtractor DomState.

(** ** Induction over DOM trees *)
Section ElementInduction.
Variable P : Element -> Prop.
Variable Q : Node -> Prop.
Hypothesis P_element :
  forall tag attrs idn children shadow,
    Forall Q children ->
    match shadow with Some l => Forall Q l | None => True end ->
    P (mkElement tag attrs idn children shadow).
Hypothesis Q_element : forall el, P el -> Q (ElementNode el).
Hypothesis Q_text : forall t, Q (TextNode t).
Hypothesis Q_comment : forall d, Q (CommentNode d).
Hypothesis Q_other : forall k d, Q (OtherNode k d).

Fixpoint Element_tree_ind (el : Element) : P el :=
  match el with
  | mkElement tag attrs idn children shadow =>
      let all :=
        fix all (l : list Node) : Forall Q l :=
          match l with
          | [] => @List.Forall_nil Node Q
          | n :: l' => @List.Forall_cons Node Q n l' (Node_tree_ind n) (all l')
          end in
      P_element tag attrs idn children shadow (all children)
        match shadow as s
              return match s with Some l => Forall Q l | None => True end
        with
        | Some l0 => all l0
        | None => I
        end
  end
with Node_tree_ind (n : Node) : Q n :=
  match n with
  | ElementNode el => Q_element el (Element_tree_ind el)
  | TextNode t => Q_text t
  | CommentNode d => Q_comment d
  | OtherNode k d => Q_other k d
  end.
End ElementInduction.

(** ** The builder only appends *)

(** What [_serializeRef] pushes. *)
Definition refChunk (el : Element) : list string :=
  match ariaRef_ref el with
  | Some r => if truthy r then [" ref=" +:+ quote +:+ r +:+ quote] else []
  | None => []
  end.

(** What the [IFRAME] test of [_serializeElement] records. *)
Definition ownIframeRef (el : Element) : list string :=
  if String.eqb (tagName el) "IFRAME" then
    match ariaRef_ref el with
    | Some r => if truthy r then [r] else []
    | None => []
    end
  else [].

(** One iteration of the child loop. *)
Definition serializeNode (child : Node) (b : AIDomBuilder) : AIDomBuilder :=
  match child with
  | TextNode text => if truthy (trim text) then push_html (escapeHtml text) b else b
  | ElementNode el => _serializeElement el b
  | _ => b
  end.

Lemma _serializeChildren_nil b : _serializeChildren [] b = b.
Proof. reflexivity. Qed.

Lemma _serializeChildren_cons child rest b :
  _serializeChildren (child :: rest) b = _serializeChildren rest (serializeNode child b).
Proof. destruct child; reflexivity. Qed.

Lemma _serializeElement_eq el b :
  _serializeElement el b =
  if _shouldSkipElement el then b
  else
    let b := fold_left (fun b r => push_iframeRef r b) (ownIframeRef el) b in
    let b := push_html ("<" +:+ toLowerCase (tagName el)) b in
    let b := _serializeAttributes el b in
    let b := _serializeRef el b in
    let b := push_html ">" b in
    if has VOID_TAGS (tagName el) then b
    else
      let b := _serializeChildren (childNodes el) b in
      let b :=
        match shadowRoot el with
        | Some shadowChildren =>
            push_html "<!-- /shadow-root -->"
              (_serializeChildren shadowChildren (push_html "<!-- shadow-root -->" b))
        | None => b
        end in
      push_html ("</" +:+ toLowerCase (tagName el) +:+ ">") b.
Proof.
  destruct el as [tag attrs idn children shadow].
  change (_serializeElement (mkElement tag attrs idn children shadow) b)
    with (if _shouldSkipElement (mkElement tag attrs idn children shadow) then b
          else
            let tagLower := toLowerCase tag in
            let b0 :=
              if String.eqb tag "IFRAME" then
                match ariaRef_ref (mkElement tag attrs idn children shadow) with
                | Some r => if truthy r then push_iframeRef r b else b
                | None => b
                end
              else b in
            let b0 := push_html ("<" +:+ tagLower) b0 in
            let b0 := _serializeAttributes (mkElement tag attrs idn children shadow) b0 in
            let b0 := _serializeRef (mkElement tag attrs idn children shadow) b0 in
            let b0 := push_html ">" b0 in
            if has VOID_TAGS tag then b0
            else
              let b0 := _serializeChildren children b0 in
              let b0 :=
                match shadow with
                | Some shadowChildren =>
                    push_html "<!-- /shadow-root -->"
                      (_serializeChildren shadowChildren
                         (push_html "<!-- shadow-root -->" b0))
                | None => b0
                end in
              push_html ("</" +:+ tagLower +:+ ">") b0).
  unfold ownIframeRef, tagName, childNodes, shadowRoot.
  destruct (_shouldSkipElement _); [reflexivity|].
  destruct (String.eqb tag "IFRAME"); [|reflexivity].
  destruct (ariaRef_ref _) as [r|]; [|reflexivity].
  destruct (truthy r); reflexivity.
Qed.

(** [f] adds the chunks [h] to [_html] and the refs [r] to [_iframeRefs]. *)
Definition appends (f : AIDomBuilder -> AIDomBuilder) (h r : list string) : Prop :=
  forall b, f b = {| _html := _html b ++ h; _iframeRefs := _iframeRefs b ++ r |}.

Lemma appends_id : appends (fun b => b) [] [].
Proof. intros [h r]; simpl. now rewrite !app_nil_r. Qed.

Lemma appends_push_html s : appends (push_html s) [s] [].
Proof. intros [h r]; unfold push_html; simpl. now rewrite app_nil_r. Qed.

Lemma appends_push_iframeRef s : appends (push_iframeRef s) [] [s].
Proof. intros [h r]; unfold push_iframeRef; simpl. now rewrite app_nil_r. Qed.

Lemma appends_comp f g h1 r1 h2 r2 :
  appends f h1 r1 -> appends g h2 r2 ->
  appends (fun b => g (f b)) (h1 ++ h2) (r1 ++ r2).
Proof.
  intros Hf Hg b. rewrite Hf, Hg. simpl. now rewrite !app_assoc.
Qed.

Lemma appends_ext f g h r : (forall b, f b = g b) -> appends g h r -> appends f h r.
Proof. intros E Hg b. now rewrite E. Qed.

Lemma appends_fold_html {A} (t : A -> string) (l : list A) :
  appends (fun b => fold_left (fun b a => push_html (t a) b) l b) (map t l) [].
Proof.
  induction l as [|a l IH].
  - apply appends_id.
  - eapply appends_ext; [intros b; reflexivity|].
    change (map t (a :: l)) with ([t a] ++ map t l).
    change (@nil string) with (@nil string ++ @nil string).
    exact (appends_comp _ _ _ _ _ _ (appends_push_html (t a)) IH).
Qed.

Lemma appends_fold_refs (l : list string) :
  appends (fun b => fold_left (fun b r => push_iframeRef r b) l b) [] l.
Proof.
  induction l as [|a l IH].
  - apply appends_id.
  - eapply appends_ext; [intros b; reflexivity|].
    change (a :: l) with ([a] ++ l) at 2.
    change (@nil string) with (@nil string ++ @nil string).
    exact (appends_comp _ _ _ _ _ _ (appends_push_iframeRef a) IH).
Qed.

Lemma appends_serializeAttributes el :
  appends (_serializeAttributes el) (map attributeText (sortedAttributes el)) [].
Proof. apply (appends_fold_html attributeText). Qed.

Lemma appends_serializeRef el : appends (_serializeRef el) (refChunk el) [].
Proof.
  unfold _serializeRef, refChunk.
  destruct (ariaRef_ref el) as [r|]; [destruct (truthy r)|];
    auto using appends_id, appends_push_html.
Qed.

(** The chunks and refs a walk contributes, read off a fresh builder. *)
Definition elementChunks (el : Element) : list string :=
  _html (_serializeElement el new_AIDomBuilder).
Definition elementRefs (el : Element) : list string :=
  _iframeRefs (_serializeElement el new_AIDomBuilder).
Definition childrenChunks (l : list Node) : list string :=
  _html (_serializeChildren l new_AIDomBuilder).
Definition childrenRefs (l : list Node) : list string :=
  _iframeRefs (_serializeChildren l new_AIDomBuilder).

Lemma appends_children l :
  Forall (fun n => exists h r, appends (serializeNode n) h r) l ->
  exists h r, appends (_serializeChildren l) h r.
Proof.
  induction 1 as [|n l (h1 & r1 & Hn) _ (h2 & r2 & Hl)].
  - exists [], []. apply appends_id.
  - exists (h1 ++ h2), (r1 ++ r2).
    eapply appends_ext; [intros b; apply _serializeChildren_cons|].
    exact (appends_comp _ _ _ _ _ _ Hn Hl).
Qed.

Lemma appends_element_exists el : exists h r, appends (_serializeElement el) h r.
Proof.
  induction el using Element_tree_ind
    with (Q := fun n => exists h r, appends (serializeNode n) h r).
  - apply appends_children in H as (hc & rc & Hc).
    assert (Hsh : exists hs rs,
               appends (fun b => match shadow with
                                 | Some l =>
                                     push_html "<!-- /shadow-root -->"
                                       (_serializeChildren l
                                          (push_html "<!-- shadow-root -->" b))
                                 | None => b
                                 end) hs rs).
    { destruct shadow as [l|].
      - apply appends_children in H0 as (hs & rs & Hs).
        eexists _, _.
        exact (appends_comp _ _ _ _ _ _
                 (appends_comp _ _ _ _ _ _ (appends_push_html _) Hs)
                 (appends_push_html _)).
      - exists [], []. apply appends_id. }
    destruct Hsh as (hs & rs & Hs).
    set (el := mkElement tag attrs idn children shadow).
    pose proof (appends_comp _ _ _ _ _ _
                  (appends_comp _ _ _ _ _ _
                     (appends_comp _ _ _ _ _ _
                        (appends_comp _ _ _ _ _ _
                           (appends_fold_refs (ownIframeRef el))
                           (appends_push_html ("<" +:+ toLowerCase (tagName el))))
                        (appends_serializeAttributes el))
                     (appends_serializeRef el))
                  (appends_push_html ">")) as Hopen.
    destruct (_shouldSkipElement el) eqn:Eskip.
    { exists [], []. eapply appends_ext; [|apply appends_id].
      intros b. rewrite _serializeElement_eq, Eskip. reflexivity. }
    destruct (has VOID_TAGS (tagName el)) eqn:Evoid.
    { eexists _, _. eapply appends_ext; [|exact Hopen].
      intros b. rewrite _serializeElement_eq, Eskip. cbv zeta. rewrite Evoid.
      reflexivity. }
    eexists _, _. eapply appends_ext;
      [|exact (appends_comp _ _ _ _ _ _
                 (appends_comp _ _ _ _ _ _
                    (appends_comp _ _ _ _ _ _ Hopen Hc) Hs)
                 (appends_push_html ("</" +:+ toLowerCase (tagName el) +:+ ">")))].
    intros b. rewrite _serializeElement_eq, Eskip. cbv zeta. rewrite Evoid.
    reflexivity.
  - exact IHel.
  - destruct (truthy (trim t)) eqn:E; eexists _, _;
      (eapply appends_ext;
       [intros b; unfold serializeNode; rewrite E; reflexivity|]);
      [apply appends_push_html | apply appends_id].
  - exists [], []. apply appends_id.
  - exists [], []. apply appends_id.
Qed.

Lemma serializeElement_appends el b :
  _serializeElement el b =
  {| _html := _html b ++ elementChunks el;
     _iframeRefs := _iframeRefs b ++ elementRefs el |}.
Proof.
  destruct (appends_element_exists el) as (h & r & H).
  unfold elementChunks, elementRefs. rewrite (H new_AIDomBuilder), (H b).
  reflexivity.
Qed.

Lemma serializeChildren_appends l b :
  _serializeChildren l b =
  {| _html := _html b ++ childrenChunks l;
     _iframeRefs := _iframeRefs b ++ childrenRefs l |}.
Proof.
  assert (H : exists h r, appends (_serializeChildren l) h r).
  { apply appends_children. apply Forall_forall. intros n _.
    destruct n as [el|t|d|k d].
    - apply appends_element_exists.
    - destruct (truthy (trim t)) eqn:E; eexists _, _;
        (eapply appends_ext;
         [intros b'; unfold serializeNode; rewrite E; reflexivity|]);
        [apply appends_push_html | apply appends_id].
    - exists [], []. apply appends_id.
    - exists [], []. apply appends_id. }
  destruct H as (h & r & H).
  unfold childrenChunks, childrenRefs. rewrite (H new_AIDomBuilder), (H b).
  reflexivity.
Qed.

Lemma build_eq root this :
  fst (build root this) =
  {| html := join "" (elementChunks root); iframeRefs := elementRefs root |}.
Proof. reflexivity. Qed.

(** ** Comment nodes *)

Definition stripNodesWith (strip : Element -> Element) : list Node -> list Node :=
  fix loop (l : list Node) : list Node :=
    match l with
    | [] => []
    | CommentNode _ :: rest => loop rest
    | ElementNode el :: rest => ElementNode (strip el) :: loop rest
    | n :: rest => n :: loop rest
    end.

(** The tree without its comment nodes, at every depth and inside shadow
    trees. *)
Fixpoint stripComments (el : Element) : Element :=
  match el with
  | mkElement tag attrs idn children shadow =>
      mkElement tag attrs idn
        (stripNodesWith stripComments children)
        match shadow with
        | Some l => Some (stripNodesWith stripComments l)
        | None => None
        end
  end.

Lemma collectAttributes_tag el el' source attrs :
  tagName el = tagName el' ->
  collectAttributes el source attrs = collectAttributes el' source attrs.
Proof.
  intros Ht. revert attrs.
  induction source as [|[n v] rest IH]; intros attrs; [reflexivity|].
  cbn [collectAttributes]. unfold _isSvgNoise. rewrite Ht, !IH. reflexivity.
Qed.

Lemma sortedAttributes_same el el' :
  tagName el = tagName el' -> attributes el = attributes el' ->
  sortedAttributes el = sortedAttributes el'.
Proof.
  intros Ht Ha. unfold sortedAttributes.
  now rewrite Ha, (collectAttributes_tag el el' _ _ Ht).
Qed.

Lemma stripComments_children l b :
  Forall (fun n => match n with
                   | ElementNode el =>
                       forall b, _serializeElement (stripComments el) b
                                 = _serializeElement el b
                   | _ => True
                   end) l ->
  _serializeChildren (stripNodesWith stripComments l) b = _serializeChildren l b.
Proof.
  intros H. revert b. induction H as [|n l Hn _ IH]; intros b; [reflexivity|].
  destruct n as [el|t|d|k d]; cbn [stripNodesWith];
    rewrite ?_serializeChildren_cons; cbn [serializeNode];
    rewrite ?Hn; apply IH.
Qed.

Lemma stripComments_serializeElement el :
  forall b, _serializeElement (stripComments el) b = _serializeElement el b.
Proof.
  induction el using Element_tree_ind
    with (Q := fun n => match n with
                        | ElementNode el =>
                            forall b, _serializeElement (stripComments el) b
                                      = _serializeElement el b
                        | _ => True
                        end); try exact I; [|exact IHel].
  intros b. rewrite !_serializeElement_eq.
  set (el := mkElement tag attrs idn children shadow).
  assert (Hs : sortedAttributes (stripComments el) = sortedAttributes el)
    by (apply sortedAttributes_same; reflexivity).
  change (_shouldSkipElement (stripComments el)) with (_shouldSkipElement el).
  change (ownIframeRef (stripComments el)) with (ownIframeRef el).
  change (tagName (stripComments el)) with (tagName el).
  change (_serializeRef (stripComments el)) with (_serializeRef el).
  change (childNodes (stripComments el)) with (stripNodesWith stripComments children).
  change (childNodes el) with children.
  change (shadowRoot el) with shadow.
  change (shadowRoot (stripComments el))
    with (match shadow with
          | Some l => Some (stripNodesWith stripComments l)
          | None => None
          end).
  unfold _serializeAttributes. rewrite Hs.
  destruct (_shouldSkipElement el); [reflexivity|]. cbv zeta.
  destruct (has VOID_TAGS (tagName el)); [reflexivity|].
  rewrite (stripComments_children children _ H).
  destruct shadow as [l|]; [|reflexivity].
  rewrite (stripComments_children l _ H0). reflexivity.
Qed.

(** *** Text nodes cannot forge a comment *)

Lemma includes_lt_cons c s :
  includes (String c s) "<" = Ascii.eqb "<" c || includes s "<".
Proof.
  cbn [includes String.prefix].
  assert (Hp : String.prefix "" s = true) by (destruct s; reflexivity).
  rewrite Hp.
  destruct (Ascii.eqb_spec "<" c) as [<-|Hne].
  - destruct (ascii_dec "<" "<"); [reflexivity|congruence].
  - destruct (ascii_dec "<" c); [congruence|reflexivity].
Qed.

Lemma includes_lt_app a b :
  includes a "<" = false -> includes b "<" = false -> includes (a +:+ b) "<" = false.
Proof.
  intros Ha Hb. induction a as [|c a IH]; [exact Hb|].
  change (String c a +:+ b) with (String c (a +:+ b)).
  rewrite includes_lt_cons in Ha |- *.
  apply orb_false_iff in Ha as [Hc Ha]. rewrite Hc. now apply IH.
Qed.

Lemma replaceAll_lt_free s : includes (replaceAll "<" "&lt;" s) "<" = false.
Proof.
  induction s as [|d s IH]; [reflexivity|].
  cbn [replaceAll]. destruct (Ascii.eqb "<" d) eqn:E.
  - now apply includes_lt_app.
  - now rewrite includes_lt_cons, E.
Qed.

Lemma replaceAll_gt_keeps_lt_free s :
  includes s "<" = false -> includes (replaceAll ">" "&gt;" s) "<" = false.
Proof.
  induction s as [|d s IH]; [reflexivity|].
  rewrite includes_lt_cons. intros H. apply orb_false_iff in H as [Hd Hs].
  cbn [replaceAll]. destruct (Ascii.eqb ">" d).
  - apply includes_lt_app; [reflexivity|now apply IH].
  - rewrite includes_lt_cons, Hd. now apply IH.
Qed.

Lemma escapeHtml_lt_free text : includes (escapeHtml text) "<" = false.
Proof.
  unfold escapeHtml. apply replaceAll_gt_keeps_lt_free, replaceAll_lt_free.
Qed.

Example comment_dropped :
  html (AIDomBuilderInjection
          {| body := mkElement "P" [] None
                       [TextNode "a"; CommentNode " secret "; TextNode "b"] None |})
  = "<p>ab</p>".
Proof. vm_compute. reflexivity. Qed.

(** ** Class filtering *)

(** A class token of generated-identifier shape: framework-prefixed,
    hashed-module, or containing a long hexadecimal run. *)
Definition generatedClass (cls : string) : bool :=
  pattern_framework_prefix cls || pattern_module_hash cls || pattern_long_hex cls.

Lemma generatedClass_patterns cls :
  existsb (fun p => p cls) GENERATED_CLASS_PATTERNS = generatedClass cls.
Proof.
  unfold GENERATED_CLASS_PATTERNS, generatedClass. cbn [existsb].
  now rewrite orb_false_r, orb_assoc.
Qed.

Lemma collectAttributes_class el v :
  collectAttributes el [("class", v)] [] =
  if truthy (filterClasses v) then [("class", filterClasses v)] else [].
Proof.
  cbn [collectAttributes].
  change (shouldSkipAttribute "class") with false.
  change (String.eqb "class" "ref") with false.
  change (String.eqb "class" "class") with true.
  assert (E : _isSvgNoise el "class" = false) by reflexivity.
  rewrite E. cbv iota zeta. destruct (truthy (filterClasses v)); reflexivity.
Qed.

(** ** The stable sort behind [attrs.sort] *)
Section SortTheory.
Context {A : Type}.
Variable comparefn : A -> A -> number.
Variable key : A -> Z.

(** On [l] the comparator orders by [key]. *)
Definition ordersByKey (l : list A) : Prop :=
  forall x y, In x l -> In y l ->
              (0 <? sortCompare comparefn x y)%Z = (key y <? key x)%Z.

Definition keyLe (x y : A) : Prop := (key x <= key y)%Z.
Definition keyIs (k : Z) (x : A) : bool := (key x =? k)%Z.

Lemma ordersByKey_incl l l' :
  (forall x, In x l' -> In x l) -> ordersByKey l -> ordersByKey l'.
Proof. intros Hi H x y Hx Hy. apply H; auto. Qed.

Lemma insert_Permutation x l : Permutation (insert comparefn x l) (x :: l).
Proof.
  induction l as [|y l IH]; cbn [insert]; [reflexivity|].
  destruct (0 <? sortCompare comparefn x y)%Z; [|reflexivity].
  rewrite IH. apply perm_swap.
Qed.

Lemma sort_Permutation l : Permutation (sort comparefn l) l.
Proof.
  induction l as [|x l IH]; [reflexivity|].
  unfold sort. cbn [fold_right]. fold (sort comparefn l).
  rewrite insert_Permutation. now constructor.
Qed.

Lemma insert_sorted x l :
  ordersByKey (x :: l) ->
  StronglySorted keyLe l -> StronglySorted keyLe (insert comparefn x l).
Proof.
  intros Hc Hs. induction Hs as [|y l Hs IH Hy]; cbn [insert].
  - repeat constructor.
  - rewrite (Hc x y) by (simpl; auto).
    destruct (Z.ltb_spec (key y) (key x)) as [Hlt|Hge].
    + constructor.
      * apply IH. eapply ordersByKey_incl; [|exact Hc].
        simpl; intros z [->|Hz]; auto.
      * apply List.Forall_forall. intros z Hz.
        apply (Permutation_in _ (insert_Permutation x l)) in Hz.
        destruct Hz as [<-|Hz]; [unfold keyLe; lia|].
        rewrite List.Forall_forall in Hy. now apply Hy.
    + constructor; [now constructor|].
      constructor; [exact Hge|].
      rewrite List.Forall_forall in Hy |- *. intros z Hz.
      specialize (Hy z Hz). unfold keyLe in *. lia.
Qed.

Lemma sort_sorted l : ordersByKey l -> StronglySorted keyLe (sort comparefn l).
Proof.
  induction l as [|x l IH]; intros Hc; [constructor|].
  unfold sort. cbn [fold_right]. fold (sort comparefn l).
  apply insert_sorted.
  - intros a b Ha Hb. apply Hc.
    + destruct Ha as [<-|Ha]; [left; reflexivity|right].
      now apply (Permutation_in _ (sort_Permutation l)).
    + destruct Hb as [<-|Hb]; [left; reflexivity|right].
      now apply (Permutation_in _ (sort_Permutation l)).
  - apply IH. eapply ordersByKey_incl; [|exact Hc]. simpl; auto.
Qed.

(** Stability: elements of one key keep their relative order. *)
Lemma insert_filter k x l :
  ordersByKey (x :: l) ->
  List.filter (keyIs k) (insert comparefn x l) = List.filter (keyIs k) (x :: l).
Proof.
  intros Hc. induction l as [|y l IH]; cbn [insert]; [reflexivity|].
  rewrite (Hc x y) by (simpl; auto).
  destruct (Z.ltb_spec (key y) (key x)) as [Hlt|Hge]; [|reflexivity].
  cbn [List.filter]. rewrite IH.
  - cbn [List.filter]. unfold keyIs.
    destruct (Z.eqb_spec (key y) k), (Z.eqb_spec (key x) k); try reflexivity. lia.
  - eapply ordersByKey_incl; [|exact Hc]. simpl; intros z [->|Hz]; auto.
Qed.

Lemma sort_filter k l :
  ordersByKey l ->
  List.filter (keyIs k) (sort comparefn l) = List.filter (keyIs k) l.
Proof.
  induction l as [|x l IH]; intros Hc; [reflexivity|].
  unfold sort. cbn [fold_right]. fold (sort comparefn l).
  rewrite insert_filter.
  - cbn [List.filter]. rewrite IH; [reflexivity|].
    eapply ordersByKey_incl; [|exact Hc]. simpl; auto.
  - intros a b Ha Hb. apply Hc.
    + destruct Ha as [<-|Ha]; [left; reflexivity|right].
      now apply (Permutation_in _ (sort_Permutation l)).
    + destruct Hb as [<-|Hb]; [left; reflexivity|right].
      now apply (Permutation_in _ (sort_Permutation l)).
Qed.

Lemma keyIs_refl x : keyIs (key x) x = true.
Proof. apply Z.eqb_refl. Qed.

Lemma head_key_minimal x l y :
  StronglySorted keyLe (x :: l) ->
  In y (List.filter (keyIs (key y)) (x :: l)) -> (key x <= key y)%Z.
Proof.
  intros Hs Hy. apply List.filter_In in Hy as [[<-|Hy] _]; [lia|].
  inversion Hs as [|? ? _ Hall]; subst.
  rewrite List.Forall_forall in Hall. now apply Hall.
Qed.

(** A key-sorted list is determined by its per-key sublists. *)
Lemma sorted_filters_unique l1 l2 :
  StronglySorted keyLe l1 -> StronglySorted keyLe l2 ->
  (forall k, List.filter (keyIs k) l1 = List.filter (keyIs k) l2) ->
  l1 = l2.
Proof.
  intros H1. revert l2.
  induction H1 as [|x l1 Hs1 IH Hx]; intros l2 H2 Hf.
  - destruct l2 as [|y l2]; [reflexivity|].
    specialize (Hf (key y)). cbn [List.filter] in Hf.
    rewrite keyIs_refl in Hf. discriminate.
  - destruct l2 as [|y l2].
    { specialize (Hf (key x)). cbn [List.filter] in Hf.
      rewrite keyIs_refl in Hf. discriminate. }
    assert (Hxy : key x = key y).
    { apply Z.le_antisymm.
      - apply (head_key_minimal x l1 y); [now constructor|].
        rewrite Hf. cbn [List.filter].
        rewrite keyIs_refl. now left.
      - apply (head_key_minimal y l2 x); [exact H2|].
        rewrite <- Hf. cbn [List.filter].
        rewrite keyIs_refl. now left. }
    assert (Hhead := Hf (key x)). cbn [List.filter] in Hhead.
    rewrite keyIs_refl in Hhead. rewrite Hxy in Hhead at 2.
    rewrite keyIs_refl in Hhead. injection Hhead as <- Htail.
    f_equal. apply IH; [now inversion H2|].
    intros k. specialize (Hf k). cbn [List.filter] in Hf.
    destruct (keyIs k x) eqn:E; [|exact Hf].
    unfold keyIs in E. apply Z.eqb_eq in E. subst k. exact Htail.
Qed.

Lemma sort_determined l1 l2 :
  ordersByKey l1 -> ordersByKey l2 ->
  (forall k, List.filter (keyIs k) l1 = List.filter (keyIs k) l2) ->
  sort comparefn l1 = sort comparefn l2.
Proof.
  intros H1 H2 Hf. apply sorted_filters_unique; auto using sort_sorted.
  intros k. rewrite !sort_filter by assumption. apply Hf.
Qed.
End SortTheory.

(** ** Attribute order *)

(** The numeric rank of a name; inherited names have none. *)
Definition rankZ (n : string) : Z :=
  match attrOrder n with Num k => k | NaN => 0 end.

(** [attrOrder n] is the number [k]. *)
Definition hasRank (k : Z) (n : string) : bool :=
  match attrOrder n with Num z => (z =? k)%Z | NaN => false end.

Definition ownName (a : string * string) : Prop := inherited (fst a) = false.

Lemma attrOrder_own n : inherited n = false -> attrOrder n = Num (rankZ n).
Proof.
  intros H. unfold rankZ, attrOrder. destruct (ATTR_ORDER !! n); [reflexivity|].
  rewrite H. destruct (startsWith n "aria-"); reflexivity.
Qed.

Lemma hasRank_own k n : inherited n = false -> hasRank k n = (rankZ n =? k)%Z.
Proof. intros H. unfold hasRank. now rewrite (attrOrder_own n H). Qed.

Lemma compareAttrs_ordersByKey l :
  Forall ownName l -> ordersByKey compareAttrs (fun a => rankZ (fst a)) l.
Proof.
  intros H x y Hx Hy. rewrite List.Forall_forall in H.
  unfold sortCompare, compareAttrs.
  rewrite (attrOrder_own _ (H x Hx)), (attrOrder_own _ (H y Hy)). cbn [minus].
  destruct (Z.ltb_spec 0 (rankZ (fst x) - rankZ (fst y))),
           (Z.ltb_spec (rankZ (fst y)) (rankZ (fst x))); try reflexivity; lia.
Qed.

(** What the first loop of [_serializeAttributes] keeps of one source
    attribute. *)
Definition attributeEntry (el : Element) (a : string * string) : list (string * string) :=
  collectAttributes el [a] [].

Lemma collectAttributes_flat_map el source attrs :
  collectAttributes el source attrs = attrs ++ flat_map (attributeEntry el) source.
Proof.
  revert attrs. induction source as [|[n v] rest IH]; intros attrs.
  - cbn. now rewrite app_nil_r.
  - cbn [flat_map]. unfold attributeEntry. cbn [collectAttributes].
    destruct (shouldSkipAttribute n); [apply IH|].
    destruct (String.eqb n "ref"); [apply IH|].
    destruct (_isSvgNoise el n); [rewrite IH, <- app_assoc; reflexivity|].
    destruct (String.eqb n "class").
    + cbv zeta. destruct (truthy (filterClasses v));
        [rewrite IH, <- app_assoc; reflexivity | apply IH].
    + rewrite IH, <- app_assoc. reflexivity.
Qed.

Lemma attributeEntry_name el a e : In e (attributeEntry el a) -> fst e = fst a.
Proof.
  destruct a as [n v]. unfold attributeEntry. cbn [collectAttributes].
  destruct (shouldSkipAttribute n); [intros []|].
  destruct (String.eqb n "ref"); [intros []|].
  destruct (_isSvgNoise el n); [intros [<-|[]]; reflexivity|].
  destruct (String.eqb_spec n "class") as [->|_].
  - cbv zeta. destruct (truthy (filterClasses v)); [intros [<-|[]]; reflexivity|intros []].
  - intros [<-|[]]; reflexivity.
Qed.

Lemma attributeEntry_not_ref el a e : In e (attributeEntry el a) -> fst e <> "ref".
Proof.
  intros H. rewrite (attributeEntry_name el a e H). revert H.
  destruct a as [n v]. unfold attributeEntry. cbn [collectAttributes fst].
  destruct (shouldSkipAttribute n); [intros []|].
  destruct (String.eqb_spec n "ref"); [intros []|auto].
Qed.

Lemma filter_attributeEntry el (p : string -> bool) a :
  List.filter (fun e => p (fst e)) (attributeEntry el a) =
  if p (fst a) then attributeEntry el a else [].
Proof.
  pose proof (attributeEntry_name el a) as Hn.
  induction (attributeEntry el a) as [|e l IH]; [now destruct (p (fst a))|].
  cbn [List.filter]. rewrite (Hn e (or_introl eq_refl)).
  rewrite IH by (intros e' He'; apply Hn; now right).
  destruct (p (fst a)); reflexivity.
Qed.

Lemma filter_collected el (p : string -> bool) source :
  List.filter (fun e => p (fst e)) (flat_map (attributeEntry el) source) =
  flat_map (attributeEntry el) (List.filter (fun a => p (fst a)) source).
Proof.
  induction source as [|a rest IH]; [reflexivity|].
  cbn [flat_map List.filter]. rewrite List.filter_app, IH, filter_attributeEntry.
  destruct (p (fst a)); reflexivity.
Qed.

Lemma collected_ownName el source :
  Forall ownName source -> Forall ownName (flat_map (attributeEntry el) source).
Proof.
  intros H. apply List.Forall_forall. intros e He.
  apply in_flat_map in He as (a & Ha & He).
  rewrite List.Forall_forall in H. unfold ownName.
  rewrite (attributeEntry_name el a e He). now apply H.
Qed.

Lemma filter_hasRank_own k l :
  Forall ownName l ->
  List.filter (fun a : string * string => hasRank k (fst a)) l =
  List.filter (keyIs (fun a => rankZ (fst a)) k) l.
Proof.
  intros H. apply List.filter_ext_in. intros a Ha.
  rewrite List.Forall_forall in H. apply hasRank_own. now apply H.
Qed.

Lemma find_filter {A} (p q : A -> bool) l :
  (forall a, p a = true -> q a = true) ->
  List.find p l = List.find p (List.filter q l).
Proof.
  intros Hpq. induction l as [|a l IH]; [reflexivity|].
  cbn [List.find List.filter]. destruct (p a) eqn:Ep.
  - rewrite (Hpq a Ep). cbn [List.find]. now rewrite Ep.
  - destruct (q a); [cbn [List.find]; rewrite Ep|]; exact IH.
Qed.

Lemma rank_rel : attrOrder "rel" = Num 44.
Proof. vm_compute. reflexivity. Qed.

(** C2 as stated fails: swapping two [aria-*] attributes is a permutation
    of the source attributes and changes the canonical text. *)
Lemma attribute_order_counterexample :
  let first := mkElement "INPUT"
                 [("aria-label", "First"); ("aria-required", "true")] None [] None in
  let second := mkElement "INPUT"
                  [("aria-required", "true"); ("aria-label", "First")] None [] None in
  Permutation (attributes first) (attributes second)
  /\ html (AIDomBuilderInjection {| body := first |})
     = "<input aria-label=" +:+ quoted "First"
       +:+ " aria-required=" +:+ quoted "true" +:+ ">"
  /\ html (AIDomBuilderInjection {| body := second |})
     = "<input aria-required=" +:+ quoted "true"
       +:+ " aria-label=" +:+ quoted "First" +:+ ">"
  /\ html (AIDomBuilderInjection {| body := first |})
     <> html (AIDomBuilderInjection {| body := second |}).
Proof.
  cbv zeta. split; [apply perm_swap|].
  split; [vm_compute; reflexivity|]. split; [vm_compute; reflexivity|].
  vm_compute. discriminate.
Qed.

(** *** The canonical sequence *)

(** The classes of names the order distinguishes. *)
Inductive AttrClass := Named (n : string) | AriaPrefixed | Unlisted.

Definition AttrClass_eqb (c d : AttrClass) : bool :=
  match c, d with
  | Named n, Named m => String.eqb n m
  | AriaPrefixed, AriaPrefixed => true
  | Unlisted, Unlisted => true
  | _, _ => false
  end.

(** The order in which [_serializeAttributes] emits: identity-ish, [aria-*],
    reference/linking, value-ish, every unlisted name, then [class] and the
    trailing presentation names. *)
Definition canonicalSequence : list AttrClass :=
  [ Named "id"; Named "type"; Named "name"; Named "role";
    AriaPrefixed;
    Named "href"; Named "src"; Named "action"; Named "method"; Named "for";
    Named "value"; Named "placeholder"; Named "required"; Named "disabled";
    Named "checked"; Named "selected"; Named "multiple"; Named "readonly";
    Unlisted;
    Named "class"; Named "alt"; Named "title"; Named "target"; Named "rel" ].

(** The order as the specification words it: [class] before every other
    name, with no name singled out after it. *)
Definition claimedSequence : list AttrClass :=
  [ Named "id"; Named "type"; Named "name"; Named "role";
    AriaPrefixed;
    Named "href"; Named "src"; Named "action"; Named "method"; Named "for";
    Named "value"; Named "placeholder"; Named "required"; Named "disabled";
    Named "checked"; Named "selected";
    Named "class";
    Unlisted ].

Definition classifyIn (sequence : list AttrClass) (n : string) : AttrClass :=
  if existsb (AttrClass_eqb (Named n)) sequence then Named n
  else if startsWith n "aria-" then AriaPrefixed
  else Unlisted.

Fixpoint indexOf (c : AttrClass) (sequence : list AttrClass) : nat :=
  match sequence with
  | [] => 0
  | d :: rest => if AttrClass_eqb c d then 0 else S (indexOf c rest)
  end.

(** The place of a name in a sequence of classes. *)
Definition positionIn (sequence : list AttrClass) (n : string) : nat :=
  indexOf (classifyIn sequence n) sequence.

Definition position : string -> nat := positionIn canonicalSequence.

(** The ranks of [ATTR_ORDER] and [attrOrder] along [canonicalSequence]. *)
Definition canonicalRanks : list Z :=
  [0; 1; 2; 3; 5; 10; 11; 12; 13; 14; 20; 21; 22; 23; 24; 25; 26; 27; 30;
   40; 41; 42; 43; 44]%Z.

Definition rankAt (i : nat) : Z := nth i canonicalRanks 0%Z.

Lemma unlisted_position n :
  ATTR_ORDER !! n = None ->
  position n = if startsWith n "aria-" then 4 else 18.
Proof.
  intros H.
  pose proof (not_elem_of_list_to_map_2 (M := gmap string) ATTR_ORDER_entries n H) as Hn.
  assert (Hk : forall m, In m (map fst ATTR_ORDER_entries) -> String.eqb n m = false).
  { intros m Hm. apply String.eqb_neq. intros ->. apply Hn.
    now apply list_elem_of_In. }
  unfold position, positionIn, classifyIn, canonicalSequence.
  cbn [existsb AttrClass_eqb].
  repeat match goal with
         | |- context [String.eqb n ?m] =>
             rewrite (Hk m) by (cbn; auto 30)
         end.
  cbn [orb]. destruct (startsWith n "aria-"); reflexivity.
Qed.

Lemma attrOrder_position n :
  inherited n = false -> attrOrder n = Num (rankAt (position n)).
Proof.
  intros Hown. unfold attrOrder. destruct (ATTR_ORDER !! n) as [k|] eqn:E.
  - pose proof (elem_of_list_to_map_2 (M := gmap string) ATTR_ORDER_entries n k E) as Hin.
    apply list_elem_of_In in Hin. unfold ATTR_ORDER_entries in Hin. cbn [In] in Hin.
    repeat (destruct Hin as [Hin|Hin];
            [injection Hin as <- <-; vm_compute; reflexivity|]).
    destruct Hin.
  - rewrite Hown, (unlisted_position n E).
    destruct (startsWith n "aria-"); reflexivity.
Qed.

Lemma indexOf_bound c sequence :
  existsb (AttrClass_eqb c) sequence = true -> indexOf c sequence < length sequence.
Proof.
  induction sequence as [|d rest IH]; [discriminate|].
  cbn [existsb indexOf length]. destruct (AttrClass_eqb c d); [lia|].
  cbn [orb]. intros H. specialize (IH H). lia.
Qed.

Lemma position_bound n : position n < 24.
Proof.
  unfold position, positionIn.
  apply (indexOf_bound (classifyIn canonicalSequence n) canonicalSequence).
  unfold classifyIn.
  destruct (existsb (AttrClass_eqb (Named n)) canonicalSequence) eqn:E; [exact E|].
  destruct (startsWith n "aria-"); reflexivity.
Qed.

Lemma rankAt_increasing i j : i < j -> j < 24 -> (rankAt i < rankAt j)%Z.
Proof.
  intros Hij Hj.
  assert (Hstep : forall i, S i < 24 -> (rankAt i < rankAt (S i))%Z).
  { intros i0 H0. do 23 (destruct i0 as [|i0]; [vm_compute; reflexivity|]). lia. }
  induction Hij as [|j Hij IH].
  - now apply Hstep.
  - etransitivity; [apply IH; lia|now apply Hstep].
Qed.

Lemma rank_le_position n m :
  inherited n = false -> inherited m = false ->
  (rankZ n <= rankZ m)%Z -> position n <= position m.
Proof.
  intros Hn Hm. unfold rankZ.
  rewrite (attrOrder_position n Hn), (attrOrder_position m Hm). intros Hle.
  destruct (Nat.le_gt_cases (position n) (position m)) as [H|H]; [exact H|].
  pose proof (rankAt_increasing _ _ H (position_bound n)). lia.
Qed.

Lemma sortedAttributes_positions el :
  Forall ownName (attributes el) ->
  StronglySorted (fun a a' => position (fst a) <= position (fst a'))
                 (sortedAttributes el).
Proof.
  intros Hown. unfold sortedAttributes. rewrite collectAttributes_flat_map. cbn [app].
  pose proof (collected_ownName el _ Hown) as Hc.
  pose proof (sort_sorted compareAttrs (fun a => rankZ (fst a)) _
                (compareAttrs_ordersByKey _ Hc)) as Hs.
  assert (Hp : Forall ownName (sort compareAttrs (flat_map (attributeEntry el) (attributes el))))
    by (now rewrite sort_Permutation).
  induction Hs as [|a l Hs IH Ha]; [constructor|].
  inversion Hp as [|? ? Hhead Htail]; subst.
  constructor; [now apply IH|].
  rewrite List.Forall_forall in Ha, Htail |- *. intros a' Ha'.
  apply rank_le_position; [exact Hhead | now apply Htail | now apply Ha].
Qed.

Lemma sortedAttributes_not_ref el :
  Forall (fun a => fst a <> "ref") (sortedAttributes el).
Proof.
  unfold sortedAttributes. rewrite collectAttributes_flat_map. cbn [app].
  rewrite sort_Permutation. apply List.Forall_forall. intros e He.
  apply in_flat_map in He as (a & _ & He). exact (attributeEntry_not_ref el a e He).
Qed.

(** The opening tag: what [_serializeElement] does before it looks at
    [VOID_TAGS]. *)
Definition openTag (el : Element) (b : AIDomBuilder) : AIDomBuilder :=
  push_html ">"
    (_serializeRef el
       (_serializeAttributes el
          (push_html ("<" +:+ toLowerCase (tagName el))
             (fold_left (fun b r => push_iframeRef r b) (ownIframeRef el) b)))).

Lemma appends_openTag el :
  appends (openTag el)
    (("<" +:+ toLowerCase (tagName el))
       :: map attributeText (sortedAttributes el) ++ refChunk el ++ [">"])
    (ownIframeRef el).
Proof.
  pose proof (appends_comp _ _ _ _ _ _
                (appends_comp _ _ _ _ _ _
                   (appends_comp _ _ _ _ _ _
                      (appends_comp _ _ _ _ _ _
                         (appends_fold_refs (ownIframeRef el))
                         (appends_push_html ("<" +:+ toLowerCase (tagName el))))
                      (appends_serializeAttributes el))
                   (appends_serializeRef el))
                (appends_push_html ">")) as Hopen.
  intros b. unfold openTag. rewrite (Hopen b). f_equal.
  - f_equal. cbn [app]. now rewrite <- app_assoc.
  - now rewrite !app_nil_r.
Qed.

Lemma appends_html f h r b : appends f h r -> _html (f b) = _html b ++ h.
Proof. intros H. now rewrite (H b). Qed.

Lemma openTag_chunks el b :
  _shouldSkipElement el = false ->
  exists rest,
    _html (_serializeElement el b) =
    _html b ++ ("<" +:+ toLowerCase (tagName el))
               :: map attributeText (sortedAttributes el)
               ++ refChunk el ++ ">" :: rest.
Proof.
  intros Hskip. rewrite _serializeElement_eq, Hskip. cbv zeta.
  fold (openTag el b).
  destruct (has VOID_TAGS (tagName el)).
  - exists []. apply appends_html with (r := ownIframeRef el), appends_openTag.
  - assert (Hsh : exists hs rs,
               appends (fun b => match shadowRoot el with
                                 | Some l =>
                                     push_html "<!-- /shadow-root -->"
                                       (_serializeChildren l
                                          (push_html "<!-- shadow-root -->" b))
                                 | None => b
                                 end) hs rs).
    { destruct (shadowRoot el) as [l|].
      - eexists _, _.
        exact (appends_comp _ _ _ _ _ _
                 (appends_comp _ _ _ _ _ _ (appends_push_html _)
                    (serializeChildren_appends l))
                 (appends_push_html _)).
      - exists [], []. apply appends_id. }
    destruct Hsh as (hs & rs & Hs).
    pose proof (appends_comp _ _ _ _ _ _
                  (appends_comp _ _ _ _ _ _
                     (appends_comp _ _ _ _ _ _
                        (appends_openTag el)
                        (serializeChildren_appends (childNodes el)))
                     Hs)
                  (appends_push_html ("</" +:+ toLowerCase (tagName el) +:+ ">")))
      as Hall.
    eexists. rewrite (appends_html _ _ _ b Hall).
    cbn [app]. rewrite <- !app_assoc. cbn [app]. reflexivity.
Qed.

(** C5 (amended). Every retained element is opened by its tag, then its
    surviving attributes, then the stamped [ref], then [>]. The surviving
    attributes come in the order of [canonicalSequence]: [id], [type],
    [name], [role]; [aria-*]; [href], [src], [action], [method], [for];
    [value], [placeholder], [required], [disabled], [checked], [selected],
    [multiple], [readonly]; every unlisted name; [class]; [alt], [title],
    [target], [rel]. No surviving attribute is named [ref], so the stamped
    [ref] is the only one and comes last. Attribute names are assumed not
    to be property names inherited from [Object.prototype]. *)
Theorem canonical_attribute_ordering :
  forall (el : Element) (b : AIDomBuilder),
    _shouldSkipElement el = false ->
    Forall (fun a => inherited (fst a) = false) (attributes el) ->
    Permutation (sortedAttributes el) (collectAttributes el (attributes el) [])
    /\ StronglySorted (fun a a' => position (fst a) <= position (fst a'))
                      (sortedAttributes el)
    /\ Forall (fun a => fst a <> "ref") (sortedAttributes el)
    /\ exists rest,
         _html (_serializeElement el b) =
         _html b ++ ("<" +:+ toLowerCase (tagName el))
                    :: map attributeText (sortedAttributes el)
                    ++ refChunk el ++ ">" :: rest.
Proof.
  intros el b Hskip Hown. split; [apply sort_Permutation|].
  split; [now apply sortedAttributes_positions|].
  split; [apply sortedAttributes_not_ref|].
  now apply openTag_chunks.
Qed.

Definition sampleInput : Element :=
  mkElement "INPUT"
    [ ("ref", "vue"); ("class", "field css-1a2b3c"); ("value", "John");
      ("tabindex", "0"); ("aria-required", "true"); ("name", "firstName");
      ("onclick", "f()"); ("type", "text"); ("id", "first-name") ]
    (Some {| role := "textbox"; name := "First Name"; ref := "e14" |}) [] None.

Example sampleInput_html :
  html (AIDomBuilderInjection {| body := sampleInput |}) =
  "<input id=" +:+ quoted "first-name" +:+ " type=" +:+ quoted "text"
  +:+ " name=" +:+ quoted "firstName" +:+ " aria-required=" +:+ quoted "true"
  +:+ " value=" +:+ quoted "John" +:+ " tabindex=" +:+ quoted "0"
  +:+ " class=" +:+ quoted "field" +:+ " ref=" +:+ quoted "e14" +:+ ">".
Proof. vm_compute. reflexivity. Qed.

Lemma canonical_attribute_ordering_witness :
  StronglySorted (fun a a' => position (fst a) <= position (fst a'))
                 (sortedAttributes sampleInput)
  /\ Forall (fun a => fst a <> "ref") (sortedAttributes sampleInput).
Proof.
  assert (Hskip : _shouldSkipElement sampleInput = false) by (vm_compute; reflexivity).
  assert (Hown : Forall (fun a => inherited (fst a) = false) (attributes sampleInput))
    by (repeat constructor).
  destruct (canonical_attribute_ordering sampleInput new_AIDomBuilder Hskip Hown)
    as (_ & Hsorted & Hnoref & _).
  split; assumption.
Defined.

(** C5 as stated fails: an unlisted attribute is emitted before [class],
    not after it. *)
Lemma canonical_attribute_ordering_counterexample :
  let el := mkElement "DIV" [("class", "card"); ("tabindex", "0")] None [] None in
  sortedAttributes el = [("tabindex", "0"); ("class", "card")]
  /\ html (AIDomBuilderInjection {| body := el |})
     = "<div tabindex=" +:+ quoted "0" +:+ " class=" +:+ quoted "card" +:+ "></div>"
  /\ positionIn claimedSequence "class" < positionIn claimedSequence "tabindex"
  /\ ~ StronglySorted
         (fun a a' => positionIn claimedSequence (fst a)
                      <= positionIn claimedSequence (fst a'))
         (sortedAttributes el).
Proof.
  cbv zeta. split; [vm_compute; reflexivity|]. split; [vm_compute; reflexivity|].
  split; [vm_compute; lia|].
  intros H.
  change (sortedAttributes (mkElement "DIV" [("class", "card"); ("tabindex", "0")] None [] None))
    with [("tabindex", "0"); ("class", "card")] in H.
  inversion H as [|? ? _ Hall]; subst.
  inversion Hall as [|? ? Hle _]; subst.
  vm_compute in Hle. lia.
Qed.

(** ** The stitcher's trace *)

Lemma diffSequence_app t1 t2 :
  diffSequence (t1 ++ t2) = diffSequence t1 ++ diffSequence t2.
Proof.
  induction t1 as [|e t1 IH]; [reflexivity|].
  destruct e; cbn [app diffSequence]; rewrite IH; reflexivity.
Qed.

Lemma evaluations_app t1 t2 :
  evaluations (t1 ++ t2) = evaluations t1 ++ evaluations t2.
Proof.
  induction t1 as [|e t1 IH]; [reflexivity|].
  destruct e; cbn [app evaluations]; rewrite IH; reflexivity.
Qed.

Lemma stitchNested_diffSequence frame refs st :
  diffSequence (snd (stitchNested frame refs st)) = diffSequence (snd st).
Proof.
  revert st. induction refs as [|r refs IH]; intros st; [reflexivity|].
  cbn [stitchNested]. destruct (contentFrame (contentFrames frame) r); [|reflexivity].
  rewrite IH. cbn [snd]. rewrite diffSequence_app. cbn. apply app_nil_r.
Qed.

Lemma stitchFrame_diffSequence main st r :
  diffSequence (snd (stitchFrame main st r)) = diffSequence (snd st).
Proof.
  unfold stitchFrame. destruct (contentFrame (contentFrames main) r); [|reflexivity].
  rewrite stitchNested_diffSequence. cbn [snd]. rewrite diffSequence_app.
  cbn. apply app_nil_r.
Qed.

Lemma stitchAll_diffSequence main refs st :
  diffSequence (snd (stitchAll main refs st)) = diffSequence (snd st).
Proof.
  unfold stitchAll. revert st. induction refs as [|r refs IH]; intros st; [reflexivity|].
  cbn [fold_left]. rewrite IH. apply stitchFrame_diffSequence.
Qed.

Lemma extractFullDom_diffSequence p : diffSequence (snd (extractFullDom p)) = [].
Proof.
  unfold extractFullDom. destruct (mainFrame p); [|reflexivity].
  cbn [snd]. now rewrite stitchAll_diffSequence.
Qed.

(** ** The orchestrator *)

(** The three components of what [update] and [session] return. *)
Definition resultOf {A B C : Type} (x : A * B * C) : A := fst (fst x).
Definition stateOf {A B C : Type} (x : A * B * C) : B := snd (fst x).
Definition traceOf {A B C : Type} (x : A * B * C) : C := snd x.

(** Neither the two environment variables nor an explicit root. *)
Definition noWorkspace (c : Call) : Prop :=
  defined (PW_DOM_STATE_INSTANCE_ID (env c)) && defined (PW_DOM_STATE_WORKSPACE (env c))
  = false
  /\ hasExplicitRoots (context c) = false.

Lemma ensureStateDir_state L this e ctx :
  _previousDom (stateOf (_ensureStateDir L this e ctx)) = _previousDom this
  /\ _diffCounter (stateOf (_ensureStateDir L this e ctx)) = _diffCounter this
  /\ diffSequence (traceOf (_ensureStateDir L this e ctx)) = []
  /\ evaluations (traceOf (_ensureStateDir L this e ctx)) = [].
Proof.
  unfold _ensureStateDir.
  destruct (defined (_stateDir this)); [repeat split|].
  destruct (defined _ && defined _).
  - destruct (PW_DOM_STATE_INSTANCE_ID e), (PW_DOM_STATE_WORKSPACE e); repeat split.
  - destruct (hasExplicitRoots ctx); repeat split.
Qed.

Lemma ensureStateDir_noWorkspace L this c :
  defined (_stateDir this) = false -> noWorkspace c ->
  _ensureStateDir L this (env c) (context c) = (None, this, []).
Proof.
  intros Hdir [Henv Hroots]. unfold _ensureStateDir. now rewrite Hdir, Henv, Hroots.
Qed.

Lemma update_noWorkspace L this c :
  defined (_stateDir this) = false -> noWorkspace c ->
  update L this c = (None, this, []).
Proof.
  intros Hdir Hno. unfold update.
  now rewrite (ensureStateDir_noWorkspace L this c Hdir Hno).
Qed.

(** C8. On a session whose directory is not resolved and whose calls find
    neither the pair of environment variables nor an explicit root, every
    [update()] returns [undefined], the state stays as it was, and the
    trace is empty: no serializer run, no directory, no file. *)
Theorem no_workspace_short_circuit :
  forall (L : Libs) (this : DomState) (calls : list Call),
    defined (_stateDir this) = false ->
    Forall noWorkspace calls ->
    session L this calls = (List.repeat None (length calls), this, [])
    /\ evaluations (traceOf (session L this calls)) = []
    /\ Forall (fun c => update L this c = (None, this, [])) calls.
Proof.
  intros L this calls Hdir Hall.
  assert (Hs : session L this calls = (List.repeat None (length calls), this, [])).
  { induction Hall as [|c calls Hc _ IH]; [reflexivity|].
    cbn [session]. rewrite (update_noWorkspace L this c Hdir Hc), IH. reflexivity. }
  split; [exact Hs|]. split; [now rewrite Hs|].
  apply List.Forall_forall. intros c Hc. rewrite List.Forall_forall in Hall.
  apply update_noWorkspace; auto.
Qed.

(** C6. When [extractFullDom] throws, [update()] returns [undefined] and
    [_previousDom] and [_diffCounter] are what they were before the call;
    no file is written. *)
Theorem extraction_failure_atomic :
  forall (L : Libs) (this : DomState) (c : Call),
    fst (extractFullDom (page c)) = None ->
    resultOf (update L this c) = None
    /\ _previousDom (stateOf (update L this c)) = _previousDom this
    /\ _diffCounter (stateOf (update L this c)) = _diffCounter this
    /\ diffSequence (traceOf (update L this c)) = [].
Proof.
  intros L this c Hfail. unfold update.
  destruct (ensureStateDir_state L this (env c) (context c)) as (Hp & Hd & Ht & _).
  destruct (_ensureStateDir L this (env c) (context c)) as [[dir this'] ev1].
  unfold stateOf, traceOf in Hp, Hd, Ht. cbn [fst snd] in Hp, Hd, Ht.
  destruct dir as [dir|]; [|now repeat split].
  destruct (truthy dir); cbn [negb]; [|now repeat split].
  pose proof (extractFullDom_diffSequence (page c)) as He.
  destruct (extractFullDom (page c)) as [extracted ev2]. cbn [fst snd] in Hfail, He.
  subst extracted. unfold resultOf, stateOf, traceOf. cbn [fst snd].
  rewrite diffSequence_app, Ht, He. now repeat split.
Qed.

Lemma includes_truthy s p : truthy p = true -> includes s p = true -> truthy s = true.
Proof. destruct s; [destruct p; discriminate|reflexivity]. Qed.

(** The text step 4 of [update] keeps as [diffStr]. *)
Definition diffStrOf (L : Libs) (previousDom : option string) (dom : string) : option string :=
  match previousDom with
  | Some previous =>
      let patch := createPatch L "dom.html" previous dom in
      if includes patch "@@" then Some patch else None
  | None => None
  end.

Lemma diffStrOf_defined L previousDom dom d :
  diffStrOf L previousDom dom = Some d -> truthy d = true.
Proof.
  unfold diffStrOf. destruct previousDom as [previous|]; [|discriminate].
  cbv zeta. destruct (includes _ "@@") eqn:E; [|discriminate].
  intros [= <-]. now apply (includes_truthy _ "@@").
Qed.

Lemma update_success L this c r this' ev :
  update L this c = (Some r, this', ev) ->
  exists raw,
    fst (extractFullDom (page c)) = Some raw
    /\ _previousDom this' = Some (prettyPrintHtml L raw)
    /\ diff r = diffStrOf L (_previousDom this) (prettyPrintHtml L raw)
    /\ match diff r with
       | Some d =>
           diffPath r <> None
           /\ diffSequence ev = [S (_diffCounter this)]
           /\ _diffCounter this' = S (_diffCounter this)
       | None =>
           diffPath r = None
           /\ diffSequence ev = []
           /\ _diffCounter this' = _diffCounter this
       end.
Proof.
  unfold update.
  destruct (ensureStateDir_state L this (env c) (context c)) as (Hp & Hd & Ht & _).
  destruct (_ensureStateDir L this (env c) (context c)) as [[dir this1] ev1].
  unfold stateOf, traceOf in Hp, Hd, Ht. cbn [fst snd] in Hp, Hd, Ht.
  destruct dir as [dir|]; [|discriminate].
  destruct (truthy dir); cbn [negb]; [|discriminate].
  pose proof (extractFullDom_diffSequence (page c)) as He.
  destruct (extractFullDom (page c)) as [[raw|] ev2]; [|discriminate].
  cbn [fst snd] in He. fold (diffStrOf L (_previousDom this1) (prettyPrintHtml L raw)).
  rewrite Hp, Hd.
  destruct (diffStrOf L (_previousDom this) (prettyPrintHtml L raw)) as [d|] eqn:Ed.
  - rewrite (diffStrOf_defined _ _ _ _ Ed).
    intros [= <- <- <-]. exists raw. cbn.
    rewrite !diffSequence_app, Ht, He. cbn. repeat split; congruence.
  - intros [= <- <- <-]. exists raw. cbn.
    rewrite !diffSequence_app, Ht, He. cbn. repeat split; congruence.
Qed.

Lemma update_failure L this c :
  resultOf (update L this c) = None ->
  _previousDom (stateOf (update L this c)) = _previousDom this
  /\ _diffCounter (stateOf (update L this c)) = _diffCounter this
  /\ diffSequence (traceOf (update L this c)) = [].
Proof.
  unfold update.
  destruct (ensureStateDir_state L this (env c) (context c)) as (Hp & Hd & Ht & _).
  destruct (_ensureStateDir L this (env c) (context c)) as [[dir this1] ev1].
  unfold stateOf, traceOf in Hp, Hd, Ht. cbn [fst snd] in Hp, Hd, Ht.
  destruct dir as [dir|]; [|now repeat split].
  destruct (truthy dir); cbn [negb]; [|now repeat split].
  pose proof (extractFullDom_diffSequence (page c)) as He.
  destruct (extractFullDom (page c)) as [[raw|] ev2]; cbn [fst snd] in He.
  - destruct (match _previousDom this1 with Some _ => _ | None => _ end) as [d|];
      [destruct (truthy d)|]; discriminate.
  - intros _. unfold stateOf, traceOf. cbn [fst snd].
    rewrite diffSequence_app, Ht, He. now repeat split.
Qed.

(** Each call writes at most one diff, numbered one above the counter. *)
Lemma update_counter L this c :
  diffSequence (traceOf (update L this c))
  = seq (S (_diffCounter this))
        (_diffCounter (stateOf (update L this c)) - _diffCounter this)
  /\ _diffCounter this <= _diffCounter (stateOf (update L this c)).
Proof.
  destruct (update L this c) as [[[r|] this'] ev] eqn:E.
  - destruct (update_success L this c r this' ev E) as (raw & _ & _ & _ & H).
    unfold stateOf, traceOf. cbn [fst snd].
    destruct (diff r); destruct H as (_ & -> & ->).
    + replace (S (_diffCounter this) - _diffCounter this) with 1 by lia.
      split; [reflexivity|lia].
    + rewrite Nat.sub_diag. split; [reflexivity|lia].
  - pose proof (update_failure L this c) as H. rewrite E in H.
    destruct (H eq_refl) as (_ & Hd & Ht).
    unfold stateOf, traceOf in *. cbn [fst snd] in *.
    rewrite Hd, Ht, Nat.sub_diag. split; [reflexivity|lia].
Qed.

Lemma session_cons L this c calls :
  session L this (c :: calls) =
  (resultOf (update L this c) :: resultOf (session L (stateOf (update L this c)) calls),
   stateOf (session L (stateOf (update L this c)) calls),
   traceOf (update L this c) ++ traceOf (session L (stateOf (update L this c)) calls)).
Proof.
  cbn [session]. destruct (update L this c) as [[r this'] ev].
  unfold resultOf, stateOf, traceOf. cbn [fst snd].
  destruct (session L this' calls) as [[rs this''] evs]. reflexivity.
Qed.

Lemma session_counter L calls : forall this,
  diffSequence (traceOf (session L this calls))
  = seq (S (_diffCounter this))
        (_diffCounter (stateOf (session L this calls)) - _diffCounter this)
  /\ _diffCounter this <= _diffCounter (stateOf (session L this calls)).
Proof.
  induction calls as [|c calls IH]; intros this.
  - cbn. rewrite Nat.sub_diag. split; [reflexivity|lia].
  - rewrite session_cons.
    destruct (update_counter L this c) as (Hu & Hle).
    destruct (IH (stateOf (update L this c))) as (Hs & Hle').
    set (this1 := stateOf (update L this c)) in *.
    set (this2 := stateOf (session L this1 calls)) in *.
    change (stateOf (?r, this2, ?t)) with this2.
    change (traceOf (?r, this2, ?t)) with t.
    rewrite diffSequence_app, Hu, Hs. split; [|lia].
    replace (S (_diffCounter this1))
      with (S (_diffCounter this) + (_diffCounter this1 - _diffCounter this)) by lia.
    rewrite <- seq_app. f_equal. lia.
Qed.

(** *** A run on concrete calls *)

(** Stand-ins for the three libraries: the identity formatter, a patch
    made of the file header and, when the texts differ, one hunk, and
    segments joined by [/]. *)
Definition sampleLibs : Libs := {|
  html_beautify := fun text => text;
  createPatch := fun file old new =>
    "--- " +:+ file +:+ LF +:+ "+++ " +:+ file +:+ LF
    +:+ (if String.eqb old new then ""
         else "@@ -1 +1 @@" +:+ LF +:+ "-" +:+ old +:+ LF +:+ "+" +:+ new +:+ LF);
  path_join := fun segments => join "/" segments
|}.

Definition pageWith (value : string) : Page :=
  {| mainFrame :=
       Some (mkFrame
               {| body := mkElement "BODY" [] None
                            [ElementNode (mkElement "INPUT" [("value", value)] None [] None)]
                            None |}
               []) |}.

Definition closedPage : Page := {| mainFrame := None |}.

Definition multiplexerEnv : Env :=
  {| PW_DOM_STATE_INSTANCE_ID := Some "inst-1";
     PW_DOM_STATE_WORKSPACE := Some "/work" |}.

Definition emptyEnv : Env :=
  {| PW_DOM_STATE_INSTANCE_ID := None; PW_DOM_STATE_WORKSPACE := None |}.

Definition sampleCall (p : Page) (e : Env) : Call :=
  {| page := p;
     context := {| hasExplicitRoots := false; firstRootPath := "/cwd" |};
     env := e;
     toolName := "browser_type";
     toolArgs := {| arg_ref := Some "e14"; arg_value := Some "John" |};
     ariaSnapshot := "- textbox" |}.

Lemma sampleLibs_same t :
  includes (createPatch sampleLibs "dom.html" t t) "@@" = false.
Proof. cbn [createPatch sampleLibs]. rewrite String.eqb_refl. reflexivity. Qed.

Lemma sampleLibs_differ old new :
  old <> new -> includes (createPatch sampleLibs "dom.html" old new) "@@" = true.
Proof.
  intros H. cbn [createPatch sampleLibs].
  apply String.eqb_neq in H. rewrite H. reflexivity.
Qed.

Example sample_session :
  let calls := [ sampleCall (pageWith "") multiplexerEnv;
                 sampleCall (pageWith "") multiplexerEnv;
                 sampleCall (pageWith "John") multiplexerEnv;
                 sampleCall closedPage multiplexerEnv;
                 sampleCall (pageWith "John Doe") multiplexerEnv ] in
  map (fun r => match r with Some r => diffPath r | None => None end)
      (resultOf (session sampleLibs new_DomState calls))
  = [ None; None;
      Some "/work/.playwright-mcp/browser-state/inst-1/diffs/001-type-e14-John.diff";
      None;
      Some "/work/.playwright-mcp/browser-state/inst-1/diffs/002-type-e14-John.diff" ]
  /\ diffSequence (traceOf (session sampleLibs new_DomState calls)) = [1; 2].
Proof. vm_compute. split; reflexivity. Qed.

Lemma no_workspace_short_circuit_witness :
  session sampleLibs new_DomState
    [sampleCall (pageWith "") emptyEnv; sampleCall (pageWith "John") emptyEnv]
  = ([None; None], new_DomState, []).
Proof.
  apply (no_workspace_short_circuit sampleLibs new_DomState
           [sampleCall (pageWith "") emptyEnv; sampleCall (pageWith "John") emptyEnv]).
  - reflexivity.
  - repeat constructor.
Defined.

Lemma extraction_failure_atomic_witness :
  let this := {| _previousDom := Some "<body></body>"; _diffCounter := 3;
                 _stateDir := Some "/work/.playwright-mcp/browser-state/inst-1" |} in
  resultOf (update sampleLibs this (sampleCall closedPage multiplexerEnv)) = None
  /\ _previousDom (stateOf (update sampleLibs this (sampleCall closedPage multiplexerEnv)))
     = Some "<body></body>"
  /\ _diffCounter (stateOf (update sampleLibs this (sampleCall closedPage multiplexerEnv)))
     = 3.
Proof.
  cbv zeta.
  destruct (extraction_failure_atomic sampleLibs
              {| _previousDom := Some "<body></body>"; _diffCounter := 3;
                 _stateDir := Some "/work/.playwright-mcp/browser-state/inst-1" |}
              (sampleCall closedPage multiplexerEnv) eq_refl)
    as (Hr & Hp & Hd & _).
  repeat split; assumption.
Defined.

(** ** Frame stitching *)

Definition identityOf (r : string) : option ElementIdentity :=
  Some {| role := "iframe"; name := ""; ref := r |}.

Definition submitDocument : Document :=
  {| body := mkElement "BODY" [] None
               [ElementNode (mkElement "BUTTON" [] None [TextNode "Submit"] None)]
               None |}.

(** A page whose only frame element carries a [src] attribute, as every
    frame loaded from a URL does; the frame resolves. *)
Definition framePage : Page :=
  {| mainFrame :=
       Some (mkFrame
               {| body := mkElement "BODY" [] None
                            [ElementNode
                               (mkElement "IFRAME" [("src", "/child")]
                                          (identityOf "e2") [] None)]
                            None |}
               [("e2", mkFrame submitDocument [])]) |}.

(** The same page with a frame element that has no attribute at all. *)
Definition bareFramePage : Page :=
  {| mainFrame :=
       Some (mkFrame
               {| body := mkElement "BODY" [] None
                            [ElementNode
                               (mkElement "IFRAME" [] (identityOf "e2") [] None)]
                            None |}
               [("e2", mkFrame submitDocument [])]) |}.

Example bare_frame_stitched :
  fst (extractFullDom bareFramePage)
  = Some ("<body><iframe ref=" +:+ quoted "e2" +:+ ">" +:+ LF
          +:+ "<!-- BEGIN IFRAME e2 -->" +:+ LF
          +:+ "<body><button>Submit</button></body>" +:+ LF
          +:+ "<!-- END IFRAME e2 -->" +:+ LF
          +:+ "</iframe></body>").
Proof. vm_compute. reflexivity. Qed.

(** C4 at its failing input. The frame behind [e2] resolves and the
    serializer runs inside it, but the frame element was emitted with its
    [src] attribute, so the text [<iframe ref="e2"></iframe>] searched by
    [replace] does not occur: the result is the root text, with no marker
    and without the child's [Submit]. *)
Theorem frame_stitching_failing_input :
  extractFullDom framePage
  = (Some ("<body><iframe src=" +:+ quoted "/child" +:+ " ref=" +:+ quoted "e2"
           +:+ "></iframe></body>"),
     [Evaluate None; Evaluate (Some "e2")])
  /\ match mainFrame framePage with
     | Some main =>
         match contentFrame (contentFrames main) "e2" with
         | Some child => html (evaluate child) = "<body><button>Submit</button></body>"
         | None => False
         end
     | None => False
     end
  /\ match fst (extractFullDom framePage) with
     | Some text =>
         includes text "BEGIN IFRAME" = false /\ includes text "Submit" = false
     | None => False
     end.
Proof.
  split; [vm_compute; reflexivity|]. split; [vm_compute; reflexivity|].
  vm_compute. split; reflexivity.
Qed.

(** Three frames nested in each other, each frame element without
    attributes and each frame resolving. *)
Definition deepPage : Page :=
  let frameElement r :=
    mkElement "BODY" [] None
      [ElementNode (mkElement "IFRAME" [] (identityOf r) [] None)] None in
  {| mainFrame :=
       Some (mkFrame {| body := frameElement "e1" |}
               [("e1", mkFrame {| body := frameElement "f1" |}
                         [("f1", mkFrame {| body := frameElement "g1" |}
                                   [("g1", mkFrame submitDocument [])])])]) |}.

(** The refs found by the walk of a frame at the second level are never
    looked at: the third level stays unexpanded. *)
Example third_level_not_stitched :
  match extractFullDom deepPage with
  | (Some text, trace) =>
      includes text "<!-- BEGIN IFRAME e1 -->" = true
      /\ includes text "<!-- BEGIN IFRAME f1 -->" = true
      /\ includes text "<!-- BEGIN IFRAME g1 -->" = false
      /\ includes text "Submit" = false
      /\ evaluations trace = [None; Some "e1"; Some "f1"]
  | (None, _) => False
  end.
Proof. vm_compute. repeat split; reflexivity. Qed.

(** The child text is handed to [replace] as the replacement, where [$$],
    [$&] and the like are patterns: a child that shows [$$] is inlined
    with a single [$]. *)
Example replacement_patterns_expanded :
  let priceDocument :=
    {| body := mkElement "BODY" [] None [TextNode "Fee: $$"] None |} in
  let page :=
    {| mainFrame :=
         Some (mkFrame
                 {| body := mkElement "BODY" [] None
                              [ElementNode
                                 (mkElement "IFRAME" [] (identityOf "e2") [] None)]
                              None |}
                 [("e2", mkFrame priceDocument [])]) |} in
  html (AIDomBuilderInjection priceDocument) = "<body>Fee: $$</body>"
  /\ fst (extractFullDom page)
     = Some ("<body><iframe ref=" +:+ quoted "e2" +:+ ">" +:+ LF
             +:+ "<!-- BEGIN IFRAME e2 -->" +:+ LF
             +:+ "<body>Fee: $</body>" +:+ LF
             +:+ "<!-- END IFRAME e2 -->" +:+ LF
             +:+ "</iframe></body>").
Proof. vm_compute. split; reflexivity. Qed.

Lemma stitchFrame_failure main st r :
  contentFrame (contentFrames main) r = None -> stitchFrame main st r = st.
Proof. intros H. unfold stitchFrame. now rewrite H. Qed.

(** A ref of the root walk whose frame cannot be entered leaves the text
    and the trace as they are, and the outer loop goes on: the result is
    the one obtained without that ref. *)
Lemma root_frame_failure_tolerated main r before after st :
  contentFrame (contentFrames main) r = None ->
  stitchAll main (before ++ r :: after) st = stitchAll main (before ++ after) st.
Proof.
  intros H. unfold stitchAll. rewrite !fold_left_app. cbn [fold_left].
  now rewrite stitchFrame_failure.
Qed.

(** A page with two frame elements without attributes; only the second
    frame can be entered. *)
Definition twoFramesMain : Frame :=
  mkFrame
    {| body := mkElement "BODY" [] None
                 [ ElementNode (mkElement "IFRAME" [] (identityOf "e2") [] None);
                   ElementNode (mkElement "IFRAME" [] (identityOf "e3") [] None) ]
                 None |}
    [("e3", mkFrame submitDocument [])].

Example two_frames_text :
  fst (extractFullDom {| mainFrame := Some twoFramesMain |})
  = Some ("<body><iframe ref=" +:+ quoted "e2" +:+ "></iframe><iframe ref="
          +:+ quoted "e3" +:+ ">" +:+ LF
          +:+ "<!-- BEGIN IFRAME e3 -->" +:+ LF
          +:+ "<body><button>Submit</button></body>" +:+ LF
          +:+ "<!-- END IFRAME e3 -->" +:+ LF
          +:+ "</iframe></body>").
Proof. vm_compute. reflexivity. Qed.

(** The frame behind [e1] holds the two frame elements of [twoFramesMain]. *)
Definition nestedPage : Page :=
  {| mainFrame :=
       Some (mkFrame
               {| body := mkElement "BODY" [] None
                            [ElementNode (mkElement "IFRAME" [] (identityOf "e1") [] None)]
                            None |}
               [("e1", twoFramesMain)]) |}.

(** C7 at its failing input. In the frame behind [e1] the ref [e2] cannot
    be entered and the ref [e3] after it can. The failure on [e2] leaves
    the inner loop for the [catch] around the whole outer iteration, so
    [e3] is never processed: it stays unexpanded although its frame
    resolves. The outer loop does recover ref by ref: given the same two
    refs at the root, it inlines [e3] after [e2] failed. A text is returned
    in both cases. *)
Theorem nested_frame_failure_failing_input :
  contentFrame (contentFrames twoFramesMain) "e2" = None
  /\ match contentFrame (contentFrames twoFramesMain) "e3" with
     | Some frame => html (evaluate frame) = "<body><button>Submit</button></body>"
     | None => False
     end
  /\ iframeRefs (evaluate twoFramesMain) = ["e2"; "e3"]
  /\ extractFullDom nestedPage
     = (Some ("<body><iframe ref=" +:+ quoted "e1" +:+ ">" +:+ LF
              +:+ "<!-- BEGIN IFRAME e1 -->" +:+ LF
              +:+ "<body><iframe ref=" +:+ quoted "e2" +:+ "></iframe><iframe ref="
              +:+ quoted "e3" +:+ "></iframe></body>" +:+ LF
              +:+ "<!-- END IFRAME e1 -->" +:+ LF
              +:+ "</iframe></body>"),
        [Evaluate None; Evaluate (Some "e1")])
  /\ match fst (extractFullDom nestedPage) with
     | Some text =>
         includes text "<!-- BEGIN IFRAME e3 -->" = false
         /\ includes text "Submit" = false
     | None => False
     end
  /\ extractFullDom {| mainFrame := Some twoFramesMain |}
     = (Some ("<body><iframe ref=" +:+ quoted "e2" +:+ "></iframe><iframe ref="
              +:+ quoted "e3" +:+ ">" +:+ LF
              +:+ "<!-- BEGIN IFRAME e3 -->" +:+ LF
              +:+ "<body><button>Submit</button></body>" +:+ LF
              +:+ "<!-- END IFRAME e3 -->" +:+ LF
              +:+ "</iframe></body>"),
        [Evaluate None; Evaluate (Some "e3")]).
Proof.
  split; [reflexivity|]. split; [vm_compute; reflexivity|].
  split; [vm_compute; reflexivity|]. split; [vm_compute; reflexivity|].
  split; [vm_compute; split; reflexivity|]. vm_compute. reflexivity.
Qed.

(** * Further properties of the serializer *)

(** ** What the attribute loop lets through *)

Lemma attributeEntry_kept el a e :
  In e (attributeEntry el a) ->
  shouldSkipAttribute (fst e) = false
  /\ fst e = fst a
  /\ (snd e = snd a
      \/ (snd e = "..." /\ _isSvgNoise el (fst a) = true)
      \/ (fst a = "class" /\ snd e = filterClasses (snd a)
          /\ truthy (snd e) = true)).
Proof.
  destruct a as [n v]. unfold attributeEntry. cbn [collectAttributes fst snd].
  destruct (shouldSkipAttribute n) eqn:Eskip; [intros []|].
  destruct (String.eqb n "ref"); [intros []|].
  destruct (_isSvgNoise el n) eqn:Esvg.
  { intros [<-|[]]. cbn [fst snd]. split; [first [exact Eskip|reflexivity]|]. split; [reflexivity|].
    right; left. split; [reflexivity|first [exact Esvg|reflexivity]]. }
  destruct (String.eqb_spec n "class") as [->|_].
  - cbv zeta. destruct (truthy (filterClasses v)) eqn:Et; [|intros []].
    intros [<-|[]]. cbn [fst snd]. split; [first [exact Eskip|reflexivity]|]. split; [reflexivity|].
    right; right. split; [reflexivity|]. split; [reflexivity|first [exact Et|reflexivity]].
  - intros [<-|[]]. cbn [fst snd]. split; [first [exact Eskip|reflexivity]|]. split; [reflexivity|].
    left; reflexivity.
Qed.

Lemma sortedAttributes_In el e :
  In e (sortedAttributes el) ->
  exists a, In a (attributes el) /\ In e (attributeEntry el a).
Proof.
  unfold sortedAttributes. rewrite collectAttributes_flat_map. cbn [app].
  intros H. apply (Permutation_in _ (sort_Permutation compareAttrs _)) in H.
  apply in_flat_map in H. exact H.
Qed.

(** X1. No event-handler attribute ([on...]), no [style], no [data-*]
    attribute and no [ref] attribute of the source element is ever written
    by [_serializeAttributes]. *)
Theorem noise_attributes_never_emitted :
  forall (el : Element) (b : AIDomBuilder),
    exists attrs,
      _html (_serializeAttributes el b) = _html b ++ map attributeText attrs
      /\ Forall (fun a => startsWith (fst a) "on" = false
                          /\ fst a <> "style"
                          /\ startsWith (fst a) "data-" = false
                          /\ fst a <> "ref") attrs.
Proof.
  intros el b. exists (sortedAttributes el). split.
  - now rewrite (appends_serializeAttributes el b).
  - apply List.Forall_forall. intros e He.
    destruct (sortedAttributes_In el e He) as (a & _ & Hin).
    destruct (attributeEntry_kept el a e Hin) as (Hskip & _ & _).
    pose proof (attributeEntry_not_ref el a e Hin) as Href.
    unfold shouldSkipAttribute in Hskip.
    destruct (startsWith (fst e) "on"); [discriminate|].
    destruct (String.eqb_spec (fst e) "style"); [discriminate|].
    destruct (startsWith (fst e) "data-"); [discriminate|].
    auto.
Qed.

(** X2. Every attribute that is written comes from a source attribute of
    the same name, and carries that attribute's value unchanged, except
    the path data of [PATH]/[POLYGON] elements (replaced by [...]) and
    [class] (replaced by its filtered, non-empty value); no attribute is
    invented and none is written more often than the source has it. *)
Theorem emitted_attributes_from_source :
  forall (el : Element),
    Forall (fun e =>
              exists v, In (fst e, v) (attributes el)
                        /\ (snd e = v
                            \/ (snd e = "..." /\ _isSvgNoise el (fst e) = true)
                            \/ (fst e = "class" /\ snd e = filterClasses v
                                /\ snd e <> "")))
           (sortedAttributes el)
    /\ length (sortedAttributes el) <= length (attributes el).
Proof.
  intros el. split.
  - apply List.Forall_forall. intros e He.
    destruct (sortedAttributes_In el e He) as ([n v] & Ha & Hin).
    destruct (attributeEntry_kept el (n, v) e Hin) as (_ & Hn & Hv).
    cbn [fst snd] in Hn, Hv. exists v. rewrite Hn. split; [exact Ha|].
    destruct Hv as [Hv|[Hv|(Hc & Hv & Ht)]]; auto.
    right; right. repeat split; auto. intros E. rewrite E in Ht. discriminate.
  - unfold sortedAttributes. rewrite collectAttributes_flat_map. cbn [app].
    rewrite (Permutation_length (sort_Permutation compareAttrs _)).
    induction (attributes el) as [|[n v] l IH]; [reflexivity|].
    cbn [flat_map length]. rewrite length_app.
    assert (length (attributeEntry el (n, v)) <= 1).
    { unfold attributeEntry. cbn [collectAttributes].
      repeat match goal with
             | |- context [if ?c then _ else _] => destruct c
             end; cbn; lia. }
    lia.
Qed.

(** ** Escaping *)

Definition single (c : ascii) : string := String c EmptyString.

Lemma includes_single_cons c d s :
  includes (String d s) (single c) = Ascii.eqb c d || includes s (single c).
Proof.
  unfold single. cbn [includes String.prefix].
  assert (Hp : String.prefix "" s = true) by (destruct s; reflexivity).
  rewrite Hp.
  destruct (Ascii.eqb_spec c d) as [<-|Hne].
  - destruct (ascii_dec c c); [reflexivity|congruence].
  - destruct (ascii_dec c d); [congruence|reflexivity].
Qed.

Lemma includes_single_app c a b :
  includes (a +:+ b) (single c) = includes a (single c) || includes b (single c).
Proof.
  induction a as [|d a IH].
  - cbn [String.append]. destruct b; reflexivity.
  - change (String d a +:+ b) with (String d (a +:+ b)).
    rewrite !includes_single_cons, IH. apply orb_assoc.
Qed.

(** Replacing every [c] by a text without [c] leaves no [c]. *)
Lemma replaceAll_removes c r s :
  includes r (single c) = false -> includes (replaceAll c r s) (single c) = false.
Proof.
  intros Hr. induction s as [|d s IH]; [reflexivity|].
  cbn [replaceAll]. destruct (Ascii.eqb c d) eqn:E.
  - now rewrite includes_single_app, Hr, IH.
  - now rewrite includes_single_cons, E, IH.
Qed.

(** Replacing [d] by a text without [c] in a text without [c] adds no [c]. *)
Lemma replaceAll_adds_none c d r s :
  includes r (single c) = false -> includes s (single c) = false ->
  includes (replaceAll d r s) (single c) = false.
Proof.
  intros Hr. induction s as [|e s IH]; [reflexivity|].
  rewrite includes_single_cons. intros H. apply orb_false_iff in H as [He Hs].
  cbn [replaceAll]. destruct (Ascii.eqb d e).
  - now rewrite includes_single_app, Hr, IH.
  - now rewrite includes_single_cons, He, IH.
Qed.

(** X3. An escaped attribute value holds no double quote and no angle
    bracket, and an escaped text holds no angle bracket: a value cannot
    end its own attribute or open a tag in the canonical text. *)
Theorem escaped_text_is_inert :
  forall s : string,
    includes (escapeAttr s) quote = false
    /\ includes (escapeAttr s) "<" = false
    /\ includes (escapeAttr s) ">" = false
    /\ includes (escapeHtml s) "<" = false
    /\ includes (escapeHtml s) ">" = false.
Proof.
  intros s. unfold escapeAttr, escapeHtml.
  change quote with (single (ascii_of_N 34)).
  change "<" with (single "<"). change ">" with (single ">").
  repeat split.
  - apply replaceAll_adds_none; [reflexivity|].
    apply replaceAll_adds_none; [reflexivity|].
    apply replaceAll_removes. reflexivity.
  - apply replaceAll_adds_none; [reflexivity|].
    apply replaceAll_removes. reflexivity.
  - apply replaceAll_removes. reflexivity.
  - apply replaceAll_adds_none; [reflexivity|].
    apply replaceAll_removes. reflexivity.
  - apply replaceAll_removes. reflexivity.
Qed.

(** The entity written for one character by the chain of [replace] calls. *)
Definition attrEntity (c : ascii) : string :=
  if Ascii.eqb "&" c then "&amp;"
  else if Ascii.eqb (ascii_of_N 34) c then "&quot;"
  else if Ascii.eqb "<" c then "&lt;"
  else if Ascii.eqb ">" c then "&gt;"
  else single c.

Definition htmlEntity (c : ascii) : string :=
  if Ascii.eqb "&" c then "&amp;"
  else if Ascii.eqb "<" c then "&lt;"
  else if Ascii.eqb ">" c then "&gt;"
  else single c.

Fixpoint mapChars (f : ascii -> string) (s : string) : string :=
  match s with
  | EmptyString => EmptyString
  | String c s' => f c +:+ mapChars f s'
  end.

Lemma append_assoc (a b c : string) : (a +:+ b) +:+ c = a +:+ (b +:+ c).
Proof.
  induction a as [|d a IH]; [reflexivity|].
  change (String d a +:+ b) with (String d (a +:+ b)).
  change (String d (a +:+ b) +:+ c) with (String d ((a +:+ b) +:+ c)).
  now rewrite IH.
Qed.

Lemma replaceAll_app c r a b :
  replaceAll c r (a +:+ b) = replaceAll c r a +:+ replaceAll c r b.
Proof.
  induction a as [|d a IH]; [reflexivity|].
  change (String d a +:+ b) with (String d (a +:+ b)). cbn [replaceAll].
  rewrite IH. destruct (Ascii.eqb c d); [|reflexivity].
  symmetry. apply append_assoc.
Qed.

Lemma ascii_cases (P : ascii -> Prop) :
  (forall b0 b1 b2 b3 b4 b5 b6 b7, P (Ascii b0 b1 b2 b3 b4 b5 b6 b7)) ->
  forall c, P c.
Proof. intros H []. apply H. Qed.

(** The chain of replacements escapes each character once: an entity
    written by an earlier step is not touched by a later one. *)
Lemma escapeAttr_mapChars s : escapeAttr s = mapChars attrEntity s.
Proof.
  unfold escapeAttr. induction s as [|c s IH]; [reflexivity|].
  cbn [mapChars]. rewrite <- IH.
  change (String c s) with (single c +:+ s).
  rewrite !replaceAll_app. f_equal.
  revert c. apply ascii_cases.
  intros [] [] [] [] [] [] [] []; reflexivity.
Qed.

Lemma escapeHtml_mapChars s : escapeHtml s = mapChars htmlEntity s.
Proof.
  unfold escapeHtml. induction s as [|c s IH]; [reflexivity|].
  cbn [mapChars]. rewrite <- IH.
  change (String c s) with (single c +:+ s).
  rewrite !replaceAll_app. f_equal.
  revert c. apply ascii_cases.
  intros [] [] [] [] [] [] [] []; reflexivity.
Qed.

(** Reading entities back, left to right; [skip] characters of the entity
    being read are still to be passed over. *)
Fixpoint unescape (skip : nat) (s : string) : string :=
  match s with
  | EmptyString => EmptyString
  | String c s' =>
      match skip with
      | S k => unescape k s'
      | O =>
          if startsWith s "&amp;" then String "&" (unescape 4 s')
          else if startsWith s "&quot;" then String (ascii_of_N 34) (unescape 5 s')
          else if startsWith s "&lt;" then String "<" (unescape 3 s')
          else if startsWith s "&gt;" then String ">" (unescape 3 s')
          else String c (unescape 0 s')
      end
  end.

Lemma startsWith_other c d p rest :
  c <> d -> startsWith (String c rest) (String d p) = false.
Proof.
  intros H. unfold startsWith. cbn [String.prefix].
  destruct (ascii_dec d c); [congruence|reflexivity].
Qed.

Lemma unescape_plain c rest :
  c <> "&"%char -> unescape 0 (String c rest) = String c (unescape 0 rest).
Proof.
  intros H. cbn [unescape]. now rewrite !startsWith_other.
Qed.

Lemma unescape_entity (f : ascii -> string) c rest :
  (f c = attrEntity c \/ f c = htmlEntity c) ->
  unescape 0 (f c +:+ rest) = String c (unescape 0 rest).
Proof.
  assert (Hamp : unescape 0 ("&amp;" +:+ rest) = String "&" (unescape 0 rest))
    by (destruct rest; vm_compute; reflexivity).
  assert (Hquot : unescape 0 ("&quot;" +:+ rest)
                  = String (ascii_of_N 34) (unescape 0 rest))
    by (destruct rest; vm_compute; reflexivity).
  assert (Hlt : unescape 0 ("&lt;" +:+ rest) = String "<" (unescape 0 rest))
    by (destruct rest; vm_compute; reflexivity).
  assert (Hgt : unescape 0 ("&gt;" +:+ rest) = String ">" (unescape 0 rest))
    by (destruct rest; vm_compute; reflexivity).
  unfold attrEntity, htmlEntity.
  destruct (Ascii.eqb_spec "&" c) as [<-|Namp]; [intros [->| ->]; exact Hamp|].
  destruct (Ascii.eqb_spec "<" c) as [<-|Nlt].
  { change (Ascii.eqb (ascii_of_N 34) "<") with false. cbv iota.
    intros [->| ->]; exact Hlt. }
  destruct (Ascii.eqb_spec ">" c) as [<-|Ngt].
  { change (Ascii.eqb (ascii_of_N 34) ">") with false. cbv iota.
    intros [->| ->]; exact Hgt. }
  destruct (Ascii.eqb_spec (ascii_of_N 34) c) as [<-|Nquot].
  - intros [->| ->]; [exact Hquot|].
    apply unescape_plain. discriminate.
  - intros [->| ->]; apply unescape_plain; congruence.
Qed.

Lemma unescape_mapChars (f : ascii -> string) s :
  (forall c, f c = attrEntity c \/ f c = htmlEntity c) ->
  unescape 0 (mapChars f s) = s.
Proof.
  intros Hf. induction s as [|c s IH]; [reflexivity|].
  cbn [mapChars]. rewrite (unescape_entity f c _ (Hf c)), IH. reflexivity.
Qed.

(** X4. Escaping loses nothing: the source text can be read back from the
    escaped text, so two different texts (or attribute values) never get
    the same canonical form. *)
Theorem escaping_is_injective :
  (forall s, unescape 0 (escapeHtml s) = s)
  /\ (forall s, unescape 0 (escapeAttr s) = s)
  /\ (forall s t, escapeHtml s = escapeHtml t <-> s = t)
  /\ (forall s t, escapeAttr s = escapeAttr t <-> s = t).
Proof.
  assert (Hh : forall s, unescape 0 (escapeHtml s) = s).
  { intros s. rewrite escapeHtml_mapChars. apply unescape_mapChars. auto. }
  assert (Ha : forall s, unescape 0 (escapeAttr s) = s).
  { intros s. rewrite escapeAttr_mapChars. apply unescape_mapChars. auto. }
  split; [exact Hh|]. split; [exact Ha|]. split; intros s t; split.
  - intros E. rewrite <- (Hh s), <- (Hh t). now rewrite E.
  - now intros ->.
  - intros E. rewrite <- (Ha s), <- (Ha t). now rewrite E.
  - now intros ->.
Qed.

(** ** Text nodes *)

Lemma trimEnd_truthy s : truthy (trimEnd s) = negb (allChars isWhiteSpace s).
Proof.
  induction s as [|c s IH]; [reflexivity|].
  cbn [trimEnd allChars]. destruct (trimEnd s) as [|d t].
  - cbn [truthy] in IH. apply (f_equal negb) in IH. rewrite negb_involutive in IH.
    rewrite <- IH, andb_true_r. destruct (isWhiteSpace c); reflexivity.
  - cbn [truthy] in IH |- *. apply (f_equal negb) in IH.
    rewrite negb_involutive in IH. rewrite <- IH, andb_false_r. reflexivity.
Qed.

Lemma trimStart_allChars s :
  allChars isWhiteSpace (trimStart s) = allChars isWhiteSpace s.
Proof.
  induction s as [|c s IH]; [reflexivity|].
  cbn [trimStart allChars]. destruct (isWhiteSpace c) eqn:E; [exact IH|].
  cbn [allChars]. now rewrite E.
Qed.

Lemma trim_truthy s : truthy (trim s) = negb (allChars isWhiteSpace s).
Proof. unfold trim. now rewrite trimEnd_truthy, trimStart_allChars. Qed.

(** X5. A text node made of white space only (the empty text included)
    pushes nothing; any other text node is pushed whole, escaped but not
    trimmed, so its leading and trailing white space stays. *)
Theorem text_node_emission :
  forall (text : string) (rest : list Node) (b : AIDomBuilder),
    _serializeChildren (TextNode text :: rest) b
    = _serializeChildren rest
        (if allChars isWhiteSpace text then b else push_html (escapeHtml text) b).
Proof.
  intros text rest b. rewrite _serializeChildren_cons. cbn [serializeNode].
  rewrite trim_truthy. destruct (allChars isWhiteSpace text); reflexivity.
Qed.

(** ** The shape of what an element contributes *)

(** What the shadow branch of [_serializeElement] contributes. *)
Definition shadowChunks (el : Element) : list string :=
  match shadowRoot el with
  | Some l => "<!-- shadow-root -->" :: childrenChunks l ++ ["<!-- /shadow-root -->"]
  | None => []
  end.

Definition shadowRefs (el : Element) : list string :=
  match shadowRoot el with
  | Some l => childrenRefs l
  | None => []
  end.

Definition openChunks (el : Element) : list string :=
  ("<" +:+ toLowerCase (tagName el))
    :: map attributeText (sortedAttributes el) ++ refChunk el ++ [">"].

Lemma appends_shadow el :
  appends (fun b => match shadowRoot el with
                    | Some l =>
                        push_html "<!-- /shadow-root -->"
                          (_serializeChildren l (push_html "<!-- shadow-root -->" b))
                    | None => b
                    end)
          (shadowChunks el) (shadowRefs el).
Proof.
  unfold shadowChunks, shadowRefs. destruct (shadowRoot el) as [l|].
  - pose proof (appends_comp _ _ _ _ _ _
                  (appends_comp _ _ _ _ _ _ (appends_push_html "<!-- shadow-root -->")
                     (serializeChildren_appends l))
                  (appends_push_html "<!-- /shadow-root -->")) as H.
    intros b. rewrite (H b). f_equal. now rewrite app_nil_r.
  - apply appends_id.
Qed.

Lemma element_structure el :
  (_shouldSkipElement el = true /\ elementChunks el = [] /\ elementRefs el = [])
  \/ (_shouldSkipElement el = false /\ has VOID_TAGS (tagName el) = true
      /\ elementChunks el = openChunks el /\ elementRefs el = ownIframeRef el)
  \/ (_shouldSkipElement el = false /\ has VOID_TAGS (tagName el) = false
      /\ elementChunks el
         = openChunks el ++ childrenChunks (childNodes el) ++ shadowChunks el
           ++ ["</" +:+ toLowerCase (tagName el) +:+ ">"]
      /\ elementRefs el
         = ownIframeRef el ++ childrenRefs (childNodes el) ++ shadowRefs el).
Proof.
  unfold elementChunks, elementRefs. rewrite _serializeElement_eq.
  destruct (_shouldSkipElement el); [left; auto|right]. cbv zeta.
  fold (openTag el new_AIDomBuilder).
  destruct (has VOID_TAGS (tagName el)).
  - left. rewrite (appends_openTag el new_AIDomBuilder). auto.
  - right.
    pose proof (appends_comp _ _ _ _ _ _
                  (appends_comp _ _ _ _ _ _
                     (appends_comp _ _ _ _ _ _
                        (appends_openTag el)
                        (serializeChildren_appends (childNodes el)))
                     (appends_shadow el))
                  (appends_push_html ("</" +:+ toLowerCase (tagName el) +:+ ">")))
      as Hall.
    cbv beta in Hall. rewrite (Hall new_AIDomBuilder).
    cbn [_html _iframeRefs new_AIDomBuilder].
    split; [reflexivity|]. split; [reflexivity|].
    split; [|rewrite app_nil_r]; rewrite <- ?app_assoc; reflexivity.
Qed.

(** What one child contributes. *)
Definition nodeChunks (n : Node) : list string :=
  match n with
  | ElementNode el => elementChunks el
  | TextNode text => if allChars isWhiteSpace text then [] else [escapeHtml text]
  | _ => []
  end.

Definition nodeRefs (n : Node) : list string :=
  match n with
  | ElementNode el => elementRefs el
  | _ => []
  end.

Lemma children_structure l :
  childrenChunks l = flat_map nodeChunks l /\ childrenRefs l = flat_map nodeRefs l.
Proof.
  unfold childrenChunks, childrenRefs. induction l as [|n l [IHc IHr]]; [split; reflexivity|].
  rewrite _serializeChildren_cons, serializeChildren_appends. cbn [_html _iframeRefs flat_map].
  unfold childrenChunks, childrenRefs. rewrite IHc, IHr.
  destruct n as [el|text|d|k d]; cbn [serializeNode nodeChunks nodeRefs].
  - rewrite serializeElement_appends. cbn. split; reflexivity.
  - rewrite trim_truthy. destruct (allChars isWhiteSpace text); cbn; split; reflexivity.
  - split; reflexivity.
  - split; reflexivity.
Qed.

(** ** Subtrees the walk never enters *)

Definition pruneNodesWith (prune : Element -> Element) : list Node -> list Node :=
  fix loop (l : list Node) : list Node :=
    match l with
    | [] => []
    | ElementNode el :: rest =>
        if _shouldSkipElement el then loop rest else ElementNode (prune el) :: loop rest
    | TextNode text :: rest =>
        if truthy (trim text) then TextNode text :: loop rest else loop rest
    | _ :: rest => loop rest
    end.

(** The tree the walk really visits: without the elements
    [_shouldSkipElement] rejects, without anything below a void element,
    without white-space-only text and without nodes that are neither text
    nor element. *)
Fixpoint prune (el : Element) : Element :=
  match el with
  | mkElement tag attrs idn children shadow =>
      if has VOID_TAGS tag then mkElement tag attrs idn [] None
      else
        mkElement tag attrs idn
          (pruneNodesWith prune children)
          match shadow with
          | Some l => Some (pruneNodesWith prune l)
          | None => None
          end
  end.





Example frame_in_template_not_listed :
  AIDomBuilderInjection
    {| body := mkElement "BODY" []  None
                 [ElementNode
                    (mkElement "TEMPLATE" [] None
                       [ElementNode
                          (mkElement "IFRAME" []
                             (Some {| role := "iframe"; name := ""; ref := "e9" |})
                             [] None)]
                       None);
                  ElementNode
                    (mkElement "INPUT" [] None [TextNode "never"] None)]
                 None |}
  = {| html := "<body><input></body>"; iframeRefs := [] |}.
Proof. vm_compute. reflexivity. Qed.

Example hidden_and_frame_children_are_serialized :
  let document :=
    {| body := mkElement "BODY" [] None
                 [ElementNode
                    (mkElement "DIV" [("aria-hidden", "true")] None [TextNode "x"] None);
                  ElementNode
                    (mkElement "IFRAME" [] None [TextNode "fallback"] None)]
                 None |} in
  prune (body document) = body document
  /\ html (AIDomBuilderInjection document)
     = "<body><div aria-hidden=" +:+ quoted "true"
       +:+ ">x</div><iframe>fallback</iframe></body>".
Proof. vm_compute. split; reflexivity. Qed.

(** ** Frame refs and the text *)

Lemma prefix_empty s : String.prefix "" s = true.
Proof. destruct s; reflexivity. Qed.

Lemma prefix_app p a b : String.prefix p a = true -> String.prefix p (a +:+ b) = true.
Proof.
  revert a. induction p as [|c p IH]; intros a H; [apply prefix_empty|].
  destruct a as [|d a]; [discriminate|].
  change (String d a +:+ b) with (String d (a +:+ b)).
  cbn [String.prefix] in H |- *. destruct (ascii_dec c d); [now apply IH|discriminate].
Qed.

Lemma prefix_self p b : String.prefix p (p +:+ b) = true.
Proof.
  induction p as [|c p IH]; [apply prefix_empty|].
  change (String c p +:+ b) with (String c (p +:+ b)). cbn [String.prefix].
  destruct (ascii_dec c c); [exact IH|congruence].
Qed.

Lemma includes_app_l a b p : includes a p = true -> includes (a +:+ b) p = true.
Proof.
  induction a as [|c a IH]; intros H.
  - destruct p as [|d p]; [|discriminate].
    change ("" +:+ b) with b. destruct b; reflexivity.
  - change (String c a +:+ b) with (String c (a +:+ b)).
    cbn [includes] in H |- *.
    destruct (String.prefix p (String c a)) eqn:E.
    + change (String c (a +:+ b)) with (String c a +:+ b).
      now rewrite (prefix_app _ _ b E).
    + rewrite (IH H). now destruct (String.prefix p (String c (a +:+ b))).
Qed.

Lemma includes_app_r a b p : includes b p = true -> includes (a +:+ b) p = true.
Proof.
  intros H. induction a as [|c a IH]; [exact H|].
  change (String c a +:+ b) with (String c (a +:+ b)). cbn [includes].
  rewrite IH. now destruct (String.prefix p (String c (a +:+ b))).
Qed.

Lemma includes_self p : includes p p = true.
Proof.
  destruct p as [|c p]; [reflexivity|]. cbn [includes].
  pose proof (prefix_self (String c p) "") as H.
  assert (E : String c p +:+ "" = String c p).
  { clear H. generalize (String c p). intros s. induction s as [|d s IH]; [reflexivity|].
    change (String d s +:+ "") with (String d (s +:+ "")). now rewrite IH. }
  rewrite E in H. now rewrite H.
Qed.

Lemma includes_join l x : In x l -> includes (join "" l) x = true.
Proof.
  unfold join. induction l as [|y l IH]; [intros []|].
  intros [->|H].
  - destruct l as [|z l]; [apply includes_self|].
    cbn [String.concat]. apply includes_app_l, includes_self.
  - destruct l as [|z l]; [destruct H|].
    cbn [String.concat]. apply includes_app_r.
    change ("" +:+ ?s) with s. now apply IH.
Qed.

(** The text [_serializeRef] writes for the ref [r]. *)
Definition refText (r : string) : string := " ref=" +:+ quote +:+ r +:+ quote.

Lemma children_refs_stamped l :
  Forall (fun n => forall r, In r (nodeRefs n) -> In (refText r) (nodeChunks n)) l ->
  forall r, In r (childrenRefs l) -> In (refText r) (childrenChunks l).
Proof.
  intros H r. destruct (children_structure l) as [-> ->].
  rewrite !in_flat_map. intros (n & Hn & Hr). exists n. split; [exact Hn|].
  rewrite List.Forall_forall in H. now apply H.
Qed.

Lemma element_refs_stamped el :
  forall r, In r (elementRefs el) -> In (refText r) (elementChunks el).
Proof.
  induction el using Element_tree_ind
    with (Q := fun n => forall r, In r (nodeRefs n) -> In (refText r) (nodeChunks n));
    try (intros r []); [|exact IHel].
  set (el := mkElement tag attrs idn children shadow).
  assert (Hown : forall r, In r (ownIframeRef el) -> In (refText r) (openChunks el)).
  { intros r. unfold ownIframeRef, openChunks, refChunk.
    destruct (String.eqb (tagName el) "IFRAME"); [|intros []].
    destruct (ariaRef_ref el) as [r0|]; [|intros []].
    destruct (truthy r0); [|intros []].
    intros [<-|[]]. right. apply in_or_app. right. now left. }
  intros r.
  destruct (element_structure el) as [(_ & _ & ->)|[(_ & _ & -> & ->)|(_ & _ & -> & ->)]].
  - intros [].
  - apply Hown.
  - rewrite !in_app_iff. intros [Hr|[Hr|Hr]].
    + left. now apply Hown.
    + right; left. now apply (children_refs_stamped children H).
    + right; right; left. revert Hr. unfold shadowRefs, shadowChunks.
      change (shadowRoot el) with shadow. destruct shadow as [l|]; [|intros []].
      intros Hr. right. apply in_or_app. left.
      now apply (children_refs_stamped l H0).
Qed.

(** X7. Every ref listed in [iframeRefs] is stamped in the text: the text
    holds [ ref="r"] for it, so the stitcher is never handed a ref the
    text does not show. *)
Theorem frame_refs_are_stamped :
  forall (root : Element) (r : string),
    In r (iframeRefs (AIDomBuilderInjection {| body := root |})) ->
    includes (html (AIDomBuilderInjection {| body := root |}))
             (" ref=" +:+ quote +:+ r +:+ quote) = true.
Proof.
  intros root r H. unfold AIDomBuilderInjection in *. rewrite build_eq in *.
  cbn [html iframeRefs] in *. apply includes_join.
  now apply element_refs_stamped.
Qed.

Lemma frame_refs_are_stamped_witness :
  includes (html (AIDomBuilderInjection (document twoFramesMain)))
           (" ref=" +:+ quote +:+ "e3" +:+ quote) = true.
Proof.
  apply (frame_refs_are_stamped (body (document twoFramesMain)) "e3").
  vm_compute. auto.
Defined.

(** ** The filtered class value is canonical *)

Definition noWhiteSpace (s : string) : bool := allChars (fun c => negb (isWhiteSpace c)) s.

Definition keptClass (cls : string) : bool := truthy cls && negb (generatedClass cls).

Lemma append_empty_r s : s +:+ "" = s.
Proof.
  induction s as [|c s IH]; [reflexivity|].
  change (String c s +:+ "") with (String c (s +:+ "")). now rewrite IH.
Qed.

Lemma noWhiteSpace_app a b :
  noWhiteSpace (a +:+ b) = noWhiteSpace a && noWhiteSpace b.
Proof.
  unfold noWhiteSpace. induction a as [|c a IH]; [reflexivity|].
  change (String c a +:+ b) with (String c (a +:+ b)). cbn [allChars].
  now rewrite IH, andb_assoc.
Qed.

(** Tokens cut by [split(/\s+/)] hold no white space. *)
Lemma splitWs_noWhiteSpace s : forall cur sep,
  noWhiteSpace cur = true -> Forall (fun t => noWhiteSpace t = true) (splitWs cur sep s).
Proof.
  induction s as [|c s IH]; intros cur sep Hcur; cbn [splitWs].
  - now constructor.
  - destruct (isWhiteSpace c) eqn:E.
    + destruct sep; [now apply IH|]. constructor; [exact Hcur|]. now apply IH.
    + apply IH. rewrite noWhiteSpace_app, Hcur. unfold noWhiteSpace. cbn. now rewrite E.
Qed.

(** Reading a token that holds no white space. *)
Lemma splitWs_token t : forall cur sep s,
  noWhiteSpace t = true -> truthy t = true ->
  splitWs cur sep (t +:+ s) = splitWs (cur +:+ t) false s.
Proof.
  induction t as [|c t IH]; intros cur sep s Hn Ht; [discriminate|].
  change (String c t +:+ s) with (String c (t +:+ s)). cbn [splitWs].
  unfold noWhiteSpace in Hn. cbn [allChars] in Hn.
  apply andb_true_iff in Hn as [Hc Hn]. apply negb_true_iff in Hc. rewrite Hc.
  destruct t as [|d t].
  - change ("" +:+ s) with s. reflexivity.
  - rewrite (IH _ false s Hn eq_refl). f_equal.
    now rewrite append_assoc.
Qed.

(** Splitting what [join(' ')] made of clean tokens gives the tokens back. *)
Lemma split_join tokens : forall sep,
  Forall (fun t => noWhiteSpace t = true /\ truthy t = true) tokens ->
  tokens <> [] ->
  splitWs "" sep (join " " tokens) = tokens.
Proof.
  unfold join. induction tokens as [|t tokens IH]; intros sep H Hne; [congruence|].
  inversion H as [|? ? [Hn Ht] Hrest]; subst.
  destruct tokens as [|u tokens].
  - cbn [String.concat]. rewrite <- (append_empty_r t) at 1.
    rewrite (splitWs_token t "" sep "" Hn Ht). reflexivity.
  - cbn [String.concat]. rewrite (splitWs_token t "" sep _ Hn Ht).
    change (" " +:+ ?s) with (String " " s). cbn [splitWs].
    change (isWhiteSpace " ") with true. cbv iota.
    change ("" +:+ t) with t. f_equal.
    apply (IH true Hrest). discriminate.
Qed.

Lemma filterClasses_eq v :
  filterClasses v = join " " (List.filter keptClass (split_whitespace v)).
Proof.
  unfold filterClasses. f_equal. apply List.filter_ext. intros cls.
  unfold keptClass. now rewrite generatedClass_patterns.
Qed.

Lemma kept_tokens_clean v :
  Forall (fun t => noWhiteSpace t = true /\ truthy t = true)
         (List.filter keptClass (split_whitespace v)).
Proof.
  apply List.Forall_forall. intros t Ht. apply List.filter_In in Ht as [Hin Hk].
  split.
  - pose proof (splitWs_noWhiteSpace v "" false eq_refl) as H.
    rewrite List.Forall_forall in H. now apply H.
  - unfold keptClass in Hk. now apply andb_true_iff in Hk as [Hk _].
Qed.

Lemma filter_all_kept {A} (p : A -> bool) l :
  List.filter p (List.filter p l) = List.filter p l.
Proof.
  induction l as [|a l IH]; [reflexivity|].
  cbn [List.filter]. destruct (p a) eqn:E; [|exact IH].
  cbn [List.filter]. now rewrite E, IH.
Qed.

(** X8. Filtering is idempotent and its result is in normal form: the
    tokens of the result are exactly the surviving tokens (none of them
    generated, none empty), separated by single spaces, so filtering an
    already filtered value changes nothing. *)
Theorem filterClasses_idempotent :
  forall v : string,
    filterClasses (filterClasses v) = filterClasses v
    /\ (filterClasses v <> "" ->
        split_whitespace (filterClasses v)
        = List.filter keptClass (split_whitespace v))
    /\ Forall (fun t => generatedClass t = false)
              (split_whitespace (filterClasses v)).
Proof.
  intros v.
  set (tokens := List.filter keptClass (split_whitespace v)).
  assert (Hsplit : tokens <> [] -> split_whitespace (filterClasses v) = tokens).
  { intros Hne. rewrite filterClasses_eq. apply split_join; [apply kept_tokens_clean|exact Hne]. }
  assert (Hempty : tokens = [] -> filterClasses v = "").
  { intros E. rewrite filterClasses_eq. fold tokens. now rewrite E. }
  split; [|split].
  - destruct tokens as [|t ts] eqn:E.
    + rewrite (Hempty eq_refl). reflexivity.
    + rewrite (filterClasses_eq (filterClasses v)), Hsplit by discriminate.
      rewrite <- E. unfold tokens. rewrite filter_all_kept.
      symmetry. apply filterClasses_eq.
  - intros Hne. apply Hsplit. intros E. apply Hne. now apply Hempty.
  - destruct tokens as [|t ts] eqn:E.
    + rewrite (Hempty eq_refl). repeat constructor.
    + rewrite Hsplit by discriminate. rewrite <- E. unfold tokens.
      apply List.Forall_forall. intros u Hu. apply List.filter_In in Hu as [_ Hk].
      unfold keptClass in Hk. apply andb_true_iff in Hk as [_ Hk].
      now apply negb_true_iff in Hk.
Qed.

Lemma filterClasses_idempotent_witness :
  split_whitespace (filterClasses "  btn css-1a2b3c   btn-primary ")
  = List.filter keptClass (split_whitespace "  btn css-1a2b3c   btn-primary ").
Proof.
  apply (filterClasses_idempotent "  btn css-1a2b3c   btn-primary ").
  vm_compute. discriminate.
Defined.
(** ** Determinism of the serializer *)

(** The text and the frame refs of a tree written as functions of the
    tree alone, by recursion on it, without the builder object and its
    buffers: what a run is compared with. *)
Definition canonicalNodesWith (text : Element -> string) : list Node -> string :=
  fix loop (l : list Node) : string :=
    match l with
    | [] => ""
    | ElementNode el :: rest => text el +:+ loop rest
    | TextNode t :: rest => (if truthy (trim t) then escapeHtml t else "") +:+ loop rest
    | _ :: rest => loop rest
    end.

Fixpoint canonicalText (el : Element) : string :=
  match el with
  | mkElement tag _ _ children shadow =>
      if _shouldSkipElement el then ""
      else
        "<" +:+ toLowerCase tag
        +:+ join "" (map attributeText (sortedAttributes el))
        +:+ join "" (refChunk el) +:+ ">"
        +:+ (if has VOID_TAGS tag then ""
             else
               canonicalNodesWith canonicalText children
               +:+ match shadow with
                   | Some l =>
                       "<!-- shadow-root -->" +:+ canonicalNodesWith canonicalText l
                       +:+ "<!-- /shadow-root -->"
                   | None => ""
                   end
               +:+ "</" +:+ toLowerCase tag +:+ ">")
  end.

Definition canonicalRefsWith (refs : Element -> list string) : list Node -> list string :=
  fix loop (l : list Node) : list string :=
    match l with
    | [] => []
    | ElementNode el :: rest => refs el ++ loop rest
    | _ :: rest => loop rest
    end.

Fixpoint canonicalRefs (el : Element) : list string :=
  match el with
  | mkElement tag _ _ children shadow =>
      if _shouldSkipElement el then []
      else
        ownIframeRef el
        ++ (if has VOID_TAGS tag then []
            else
              canonicalRefsWith canonicalRefs children
              ++ match shadow with
                 | Some l => canonicalRefsWith canonicalRefs l
                 | None => []
                 end)
  end.

Lemma join_empty_cons x l : join "" (x :: l) = x +:+ join "" l.
Proof.
  unfold join. destruct l as [|y l]; [cbn [String.concat]; now rewrite append_empty_r|].
  reflexivity.
Qed.

Lemma join_empty_app l1 l2 : join "" (l1 ++ l2) = join "" l1 +:+ join "" l2.
Proof.
  induction l1 as [|x l1 IH]; [reflexivity|].
  cbn [app]. now rewrite !join_empty_cons, IH, append_assoc.
Qed.

Lemma canonicalNodes_chunks l :
  Forall (fun n => match n with
                   | ElementNode el => join "" (elementChunks el) = canonicalText el
                   | _ => True
                   end) l ->
  join "" (childrenChunks l) = canonicalNodesWith canonicalText l.
Proof.
  intros H. rewrite (proj1 (children_structure l)).
  induction H as [|n l Hn _ IH]; [reflexivity|].
  cbn [flat_map]. rewrite join_empty_app, IH.
  destruct n as [el|t|d|k d]; cbn [nodeChunks canonicalNodesWith].
  - now rewrite Hn.
  - rewrite trim_truthy. destruct (allChars isWhiteSpace t); reflexivity.
  - reflexivity.
  - reflexivity.
Qed.

Lemma canonicalNodes_refs l :
  Forall (fun n => match n with
                   | ElementNode el => elementRefs el = canonicalRefs el
                   | _ => True
                   end) l ->
  childrenRefs l = canonicalRefsWith canonicalRefs l.
Proof.
  intros H. rewrite (proj2 (children_structure l)).
  induction H as [|n l Hn _ IH]; [reflexivity|].
  cbn [flat_map]. rewrite IH.
  destruct n as [el|t|d|k d]; cbn [nodeRefs canonicalRefsWith app]; [now rewrite Hn| | |];
    reflexivity.
Qed.

Lemma canonicalText_eq el :
  canonicalText el =
  if _shouldSkipElement el then ""
  else
    "<" +:+ toLowerCase (tagName el)
    +:+ join "" (map attributeText (sortedAttributes el))
    +:+ join "" (refChunk el) +:+ ">"
    +:+ (if has VOID_TAGS (tagName el) then ""
         else
           canonicalNodesWith canonicalText (childNodes el)
           +:+ match shadowRoot el with
               | Some l =>
                   "<!-- shadow-root -->" +:+ canonicalNodesWith canonicalText l
                   +:+ "<!-- /shadow-root -->"
               | None => ""
               end
           +:+ "</" +:+ toLowerCase (tagName el) +:+ ">").
Proof. destruct el; reflexivity. Qed.

Lemma canonicalRefs_eq el :
  canonicalRefs el =
  if _shouldSkipElement el then []
  else
    ownIframeRef el
    ++ (if has VOID_TAGS (tagName el) then []
        else
          canonicalRefsWith canonicalRefs (childNodes el)
          ++ match shadowRoot el with
             | Some l => canonicalRefsWith canonicalRefs l
             | None => []
             end).
Proof. destruct el; reflexivity. Qed.

Lemma walk_computes_canonical el :
  join "" (elementChunks el) = canonicalText el /\ elementRefs el = canonicalRefs el.
Proof.
  induction el using Element_tree_ind
    with (Q := fun n => match n with
                        | ElementNode el =>
                            join "" (elementChunks el) = canonicalText el
                            /\ elementRefs el = canonicalRefs el
                        | _ => True
                        end); try exact I; [|exact IHel].
  set (el := mkElement tag attrs idn children shadow).
  assert (Hsplit : forall l,
             Forall (fun n => match n with
                              | ElementNode el =>
                                  join "" (elementChunks el) = canonicalText el
                                  /\ elementRefs el = canonicalRefs el
                              | _ => True
                              end) l ->
             join "" (childrenChunks l) = canonicalNodesWith canonicalText l
             /\ childrenRefs l = canonicalRefsWith canonicalRefs l).
  { intros l Hl. split.
    - apply canonicalNodes_chunks. eapply List.Forall_impl; [|exact Hl].
      intros [c|t|d|k d]; [intros [Hc _]; exact Hc|auto..].
    - apply canonicalNodes_refs. eapply List.Forall_impl; [|exact Hl].
      intros [c|t|d|k d]; [intros [_ Hc]; exact Hc|auto..]. }
  destruct (Hsplit children H) as [Hc Hr].
  assert (Hshadow : join "" (shadowChunks el)
                    = match shadow with
                      | Some l =>
                          "<!-- shadow-root -->" +:+ canonicalNodesWith canonicalText l
                          +:+ "<!-- /shadow-root -->"
                      | None => ""
                      end
                    /\ shadowRefs el
                       = match shadow with
                         | Some l => canonicalRefsWith canonicalRefs l
                         | None => []
                         end).
  { unfold shadowChunks, shadowRefs. cbn [shadowRoot el]. destruct shadow as [l|].
    - destruct (Hsplit l H0) as [Hlc Hlr]. split; [|exact Hlr].
      rewrite join_empty_cons, join_empty_app, Hlc. reflexivity.
    - split; reflexivity. }
  destruct Hshadow as [Hsc Hsr].
  rewrite canonicalText_eq, canonicalRefs_eq.
  destruct (element_structure el) as [(Es & Ec & Er)|[(Es & Ev & Ec & Er)|(Es & Ev & Ec & Er)]];
    rewrite Es, ?Ev, Ec, Er.
  - split; reflexivity.
  - split; [|now rewrite app_nil_r]. unfold openChunks.
    rewrite join_empty_cons, !join_empty_app. cbn [join String.concat].
    now rewrite !append_assoc.
  - cbn [tagName childNodes shadowRoot el] in *. split.
    + unfold openChunks. rewrite !join_empty_app, join_empty_cons, !join_empty_app.
      rewrite Hc, Hsc. cbn [join String.concat]. now rewrite !append_assoc.
    + now rewrite Hr, Hsr.
Qed.

(** C1. Whatever the builder object held before the call (in particular
    the buffers left by an earlier run on the same tree), [build] returns
    the text and the frame refs that are functions of the tree alone,
    [canonicalText] and [canonicalRefs]: two runs on the same tree give
    the same bytes. The walk itself never reads the buffers: from any
    state it appends the same chunks, whose concatenation is that text. *)
Theorem serializer_deterministic :
  forall (root : Element) (b1 b2 : AIDomBuilder),
    fst (build root b1)
    = {| html := canonicalText root; iframeRefs := canonicalRefs root |}
    /\ fst (build root b1) = fst (build root b2)
    /\ fst (build root (snd (build root b1))) = fst (build root b1)
    /\ AIDomBuilderInjection {| body := root |} = fst (build root b1)
    /\ exists chunks : list string,
         join "" chunks = canonicalText root
         /\ forall b : AIDomBuilder,
              _serializeElement root b
              = {| _html := _html b ++ chunks;
                   _iframeRefs := _iframeRefs b ++ canonicalRefs root |}.
Proof.
  intros root b1 b2. destruct (walk_computes_canonical root) as [Hc Hr].
  assert (Hb : forall b, fst (build root b)
                         = {| html := canonicalText root; iframeRefs := canonicalRefs root |}).
  { intros b. rewrite build_eq, Hc, Hr. reflexivity. }
  split; [apply Hb|]. split; [now rewrite !Hb|]. split; [now rewrite !Hb|].
  split; [unfold AIDomBuilderInjection; now rewrite !Hb|].
  exists (elementChunks root). split; [exact Hc|].
  intros b. rewrite serializeElement_appends, Hr. reflexivity.
Qed.

(** A second run on the builder the first run left behind, on a tree with
    a text node, a comment and a frame. *)
Example second_run_same_bytes :
  let root := mkElement "BODY" [("id", "main")] None
                [TextNode "a<b"; CommentNode "note";
                 ElementNode (mkElement "IFRAME" [] (Some {| role := "iframe"; name := ""; ref := "e1" |}) [] None)]
                None in
  let first := build root new_AIDomBuilder in
  let second := build root (snd first) in
  _html (snd first) <> []
  /\ fst second = fst first
  /\ html (fst second)
     = "<body id=" +:+ quoted "main" +:+ ">a&lt;b<iframe ref=" +:+ quoted "e1"
       +:+ "></iframe></body>"
  /\ iframeRefs (fst second) = ["e1"].
Proof.
  cbv zeta. split; [vm_compute; discriminate|].
  split; [reflexivity|]. split; vm_compute; reflexivity.
Qed.
(** ** Where a comment opening can occur in the text *)

(** How many characters of [<!--] the text read so far ends with, after
    one more character; [completes] tells that this character ends an
    occurrence of [<!--]. *)
Definition commentStep (k : nat) (c : ascii) : nat :=
  if Ascii.eqb c "<" then 1
  else match k with
       | 1 => if Ascii.eqb c "!" then 2 else 0
       | 2 => if Ascii.eqb c "-" then 3 else 0
       | _ => 0
       end.

Definition completes (k : nat) (c : ascii) : bool :=
  (k =? 3)%nat && Ascii.eqb c "-".

(** Every occurrence of [<!--] that ends in [s], read from state [k], is
    followed by a text that [allowed] accepts. *)
Fixpoint commentScan (allowed : string -> bool) (k : nat) (s : string) : bool :=
  match s with
  | EmptyString => true
  | String c rest =>
      (if completes k c then allowed rest else true)
      && commentScan allowed (commentStep k c) rest
  end.

Fixpoint commentState (k : nat) (s : string) : nat :=
  match s with
  | EmptyString => k
  | String c rest => commentState (commentStep k c) rest
  end.

(** What follows [<!--] in the two markers the serializer writes. *)
Definition markerTail (after : string) : bool :=
  startsWith after " shadow-root -->" || startsWith after " /shadow-root -->".

Definition never (after : string) : bool := false.

Lemma markerTail_app r b : markerTail r = true -> markerTail (r +:+ b) = true.
Proof.
  unfold markerTail, startsWith. intros H. apply orb_true_iff in H as [H|H].
  - now rewrite (prefix_app _ _ b H).
  - rewrite (prefix_app _ _ b H). apply orb_true_r.
Qed.

Section Scan.
Variable allowed : string -> bool.
Hypothesis allowed_app : forall r b, allowed r = true -> allowed (r +:+ b) = true.

Lemma commentScan_app a : forall k b,
  commentScan allowed k a = true ->
  commentScan allowed (commentState k a) b = true ->
  commentScan allowed k (a +:+ b) = true.
Proof.
  induction a as [|c a IH]; intros k b Ha Hb; [exact Hb|].
  change (String c a +:+ b) with (String c (a +:+ b)).
  cbn [commentScan commentState] in *.
  apply andb_true_iff in Ha as [Hc Ha]. apply andb_true_iff. split.
  - destruct (completes k c); [now apply allowed_app|reflexivity].
  - now apply IH.
Qed.

Lemma commentScan_sound before : forall k after,
  commentScan allowed k (before +:+ "<!--" +:+ after) = true -> allowed after = true.
Proof.
  induction before as [|c before IH]; intros k after H.
  - change ("" +:+ "<!--" +:+ after)
      with (String "<" (String "!" (String "-" (String "-" after)))) in H.
    cbn in H. apply andb_true_iff in H as [_ H].
    now apply andb_true_iff in H as [H _].
  - change (String c before +:+ "<!--" +:+ after)
      with (String c (before +:+ "<!--" +:+ after)) in H.
    cbn [commentScan] in H. apply andb_true_iff in H as [_ H]. exact (IH _ _ H).
Qed.
End Scan.

Lemma commentState_app a : forall k b,
  commentState k (a +:+ b) = commentState (commentState k a) b.
Proof.
  induction a as [|c a IH]; intros k b; [reflexivity|].
  change (String c a +:+ b) with (String c (a +:+ b)). cbn [commentState]. apply IH.
Qed.

Lemma commentScan_never allowed s : forall k,
  commentScan never k s = true -> commentScan allowed k s = true.
Proof.
  induction s as [|c s IH]; intros k H; [reflexivity|].
  cbn [commentScan] in *. apply andb_true_iff in H as [Hc H].
  rewrite (IH _ H), andb_true_r. destruct (completes k c); [discriminate|reflexivity].
Qed.

Lemma commentScan_lower s : forall k,
  commentScan never k (toLowerCase s) = commentScan never k s.
Proof.
  assert (Hc : forall c x, In x ["<"; "!"; "-"]%char ->
                           Ascii.eqb (toLowerChar c) x = Ascii.eqb c x).
  { intros c x Hx. revert c. apply ascii_cases.
    destruct Hx as [<-|[<-|[<-|[]]]];
      intros [] [] [] [] [] [] [] []; reflexivity. }
  induction s as [|c s IH]; intros k; [reflexivity|].
  cbn [toLowerCase commentScan]. unfold completes, commentStep.
  rewrite !Hc by (cbn; auto). now rewrite IH.
Qed.

Lemma includes_suffix a b p : includes (a +:+ b) p = false -> includes b p = false.
Proof.
  intros H. destruct (includes b p) eqn:E; [|reflexivity].
  now rewrite (includes_app_r a b p E) in H.
Qed.

(** The characters of [<!--] that state [k] stands for. *)
Definition commentPrefix (k : nat) : string :=
  match k with
  | 1 => "<"
  | 2 => "<!"
  | 3 => "<!-"
  | _ => ""
  end.

Lemma includes_commentScan s : forall k,
  (k <= 3)%nat ->
  includes (commentPrefix k +:+ s) "<!--" = false ->
  commentScan never k s = true.
Proof.
  induction s as [|c s IH]; intros k Hk H; [reflexivity|].
  cbn [commentScan]. apply andb_true_iff. split.
  - unfold completes. destruct (Nat.eqb_spec k 3) as [->|]; [|reflexivity].
    destruct (Ascii.eqb_spec c "-") as [->|]; [|reflexivity].
    change (commentPrefix 3 +:+ String "-" s) with ("<!--" +:+ s) in H.
    now rewrite (includes_app_l "<!--" s "<!--" (includes_self _)) in H.
  - unfold commentStep. destruct (Ascii.eqb_spec c "<") as [->|Hlt].
    + apply (IH 1%nat); [lia|].
      apply (includes_suffix (commentPrefix k)). exact H.
    + assert (H0 : commentScan never 0 s = true).
      { apply (IH 0%nat); [lia|].
        apply (includes_suffix (commentPrefix k +:+ String c "")).
        rewrite append_assoc. exact H. }
      destruct k as [|[|[|k]]]; try exact H0.
      * destruct (Ascii.eqb_spec c "!") as [->|]; [|exact H0].
        apply (IH 2%nat); [lia|exact H].
      * destruct (Ascii.eqb_spec c "-") as [->|]; [|exact H0].
        apply (IH 3%nat); [lia|exact H].
Qed.

(** *** The text of a tree whose names hold no comment opening *)

(** Read from any state, every [<!--] of [s] starts a marker. *)
Definition accepts (s : string) : Prop :=
  forall k, commentScan markerTail k s = true.

(** Moreover no comment opening is pending after [s]. *)
Definition resets (s : string) : Prop :=
  forall k, commentScan markerTail k s = true /\ commentState k s = 0.

(** The same for a text that follows a text without pending opening. *)
Definition wellMarked (s : string) : Prop :=
  commentScan markerTail 0 s = true /\ commentState 0 s = 0.

Lemma wellMarked_nil : wellMarked "".
Proof. split; reflexivity. Qed.

Lemma wellMarked_app a b : wellMarked a -> wellMarked b -> wellMarked (a +:+ b).
Proof.
  intros [Ha Sa] [Hb Sb]. split.
  - apply (commentScan_app _ markerTail_app); [exact Ha|now rewrite Sa].
  - now rewrite commentState_app, Sa.
Qed.

Lemma accepts_app a b : accepts a -> accepts b -> accepts (a +:+ b).
Proof. intros Ha Hb k. apply (commentScan_app _ markerTail_app); auto. Qed.

Lemma accepts_resets a b : accepts a -> resets b -> resets (a +:+ b).
Proof.
  intros Ha Hb k. split.
  - apply (commentScan_app _ markerTail_app); [apply Ha|apply Hb].
  - rewrite commentState_app. apply Hb.
Qed.

Lemma resets_wellMarked a b : resets a -> wellMarked b -> resets (a +:+ b).
Proof.
  intros Ha [Hb Sb] k. destruct (Ha k) as [Hk Sk]. split.
  - apply (commentScan_app _ markerTail_app); [exact Hk|now rewrite Sk].
  - now rewrite commentState_app, Sk.
Qed.

(** A character other than [<], [!] and [-] ends whatever was pending. *)
Definition plainChar (c : ascii) : bool :=
  negb (Ascii.eqb c "<" || Ascii.eqb c "!" || Ascii.eqb c "-").

Lemma plainChar_step c k :
  plainChar c = true -> completes k c = false /\ commentStep k c = 0.
Proof.
  unfold plainChar, completes, commentStep. intros H.
  apply negb_true_iff in H. rewrite !orb_false_iff in H. destruct H as [[-> ->] ->].
  split; [apply andb_false_r|]. now destruct k as [|[|[|k]]].
Qed.

Lemma accepts_plain_cons c s :
  plainChar c = true -> commentScan markerTail 0 s = true -> accepts (String c s).
Proof.
  intros Hc Hs k. cbn [commentScan].
  destruct (plainChar_step c k Hc) as [-> ->]. exact Hs.
Qed.

Lemma resets_plain c : plainChar c = true -> resets (String c "").
Proof.
  intros Hc k. cbn [commentScan commentState].
  destruct (plainChar_step c k Hc) as [-> ->]. split; reflexivity.
Qed.

Lemma lt_free_wellMarked s : includes s "<" = false -> wellMarked s.
Proof.
  induction s as [|c s IH]; [intros _; apply wellMarked_nil|].
  rewrite includes_lt_cons. intros H. apply orb_false_iff in H as [Hc Hs].
  destruct (IH Hs) as [H1 H2]. unfold wellMarked. cbn [commentScan commentState].
  unfold completes, commentStep. rewrite (Ascii.eqb_sym c "<"), Hc. cbn. auto.
Qed.

Lemma escapeAttr_lt_free value : includes (escapeAttr value) "<" = false.
Proof.
  unfold escapeAttr. apply replaceAll_gt_keeps_lt_free, replaceAll_lt_free.
Qed.

Lemma no_comment_scan allowed s :
  includes s "<!--" = false -> commentScan allowed 0 s = true.
Proof.
  intros H. apply commentScan_never. apply includes_commentScan; [lia|exact H].
Qed.

(** A name or ref [n] without [<!--] between a text ending in a plain
    character and one starting with a plain character. *)
Lemma accepts_quoted n c rest :
  includes n "<!--" = false -> plainChar c = true ->
  commentScan markerTail 0 rest = true ->
  commentScan markerTail 0 (n +:+ String c rest) = true.
Proof.
  intros Hn Hc Hrest.
  apply (commentScan_app _ markerTail_app); [now apply no_comment_scan|].
  now apply accepts_plain_cons.
Qed.

Lemma accepts_attributeText a :
  includes (fst a) "<!--" = false -> accepts (attributeText a).
Proof.
  intros Hn. unfold attributeText.
  apply (accepts_plain_cons " "); [reflexivity|].
  apply (accepts_quoted (fst a) "=" _ Hn); [reflexivity|].
  change (quote +:+ escapeAttr (snd a) +:+ quote)
    with (String (ascii_of_N 34) (escapeAttr (snd a) +:+ quote)).
  apply (accepts_plain_cons (ascii_of_N 34)); [reflexivity|].
  apply wellMarked_app; [apply lt_free_wellMarked, escapeAttr_lt_free|].
  split; reflexivity.
Qed.

Lemma accepts_join l : Forall accepts l -> accepts (join "" l).
Proof.
  induction 1 as [|x l Hx _ IH]; [intros k; reflexivity|].
  rewrite join_empty_cons. now apply accepts_app.
Qed.

Lemma accepts_refChunk el :
  match ariaRef_ref el with
  | Some r => includes r "<!--" = false
  | None => True
  end ->
  accepts (join "" (refChunk el)).
Proof.
  unfold refChunk. destruct (ariaRef_ref el) as [r|]; [|intros _ k; reflexivity].
  intros Hr. destruct (truthy r); [|intros k; reflexivity].
  unfold join. cbn [String.concat].
  change (" ref=" +:+ quote +:+ r +:+ quote)
    with (String " " (String "r" (String "e" (String "f" (String "="
            (String (ascii_of_N 34) (r +:+ quote))))))).
  intros k. cbn [commentScan].
  repeat (match goal with
          | |- context [completes ?k ?c] =>
              destruct (plainChar_step c k eq_refl) as [-> ->]
          end; cbn [andb]).
  apply (accepts_quoted r (ascii_of_N 34) "" Hr); reflexivity.
Qed.

(** The names the serializer writes without escaping hold no [<!--]: the
    tag name, which does not start with [!--] either, the names of the
    attributes that [shouldSkipAttribute] lets through, and the ref. *)
Definition plainNames (el : Element) : bool :=
  negb (includes ("<" +:+ tagName el) "<!--")
  && forallb (fun a => shouldSkipAttribute (fst a) || negb (includes (fst a) "<!--"))
             (attributes el)
  && match ariaRef_ref el with
     | Some r => negb (includes r "<!--")
     | None => true
     end.

Definition plainNodesWith (plain : Element -> bool) : list Node -> bool :=
  fix loop (l : list Node) : bool :=
    match l with
    | [] => true
    | ElementNode el :: rest => plain el && loop rest
    | _ :: rest => loop rest
    end.

(** [plainNames] at every element the walk serializes. *)
Fixpoint plainTree (el : Element) : bool :=
  match el with
  | mkElement tag _ _ children shadow =>
      _shouldSkipElement el
      || (plainNames el
          && (has VOID_TAGS tag
              || (plainNodesWith plainTree children
                  && match shadow with
                     | Some l => plainNodesWith plainTree l
                     | None => true
                     end)))
  end.

Lemma wellMarked_open tag tail :
  includes ("<" +:+ tag) "<!--" = false -> resets tail ->
  wellMarked ("<" +:+ toLowerCase tag +:+ tail).
Proof.
  intros Ht Htail.
  assert (Hs : commentScan markerTail 1 (toLowerCase tag) = true).
  { apply commentScan_never. rewrite commentScan_lower.
    apply includes_commentScan; [lia|exact Ht]. }
  change ("<" +:+ toLowerCase tag +:+ tail) with (String "<" (toLowerCase tag +:+ tail)).
  split.
  - cbn [commentScan]. change (completes 0 "<") with false. cbn [andb].
    change (commentStep 0 "<") with 1.
    apply (commentScan_app _ markerTail_app); [exact Hs|apply Htail].
  - cbn [commentState]. rewrite commentState_app. apply Htail.
Qed.

Lemma resets_close tag :
  includes ("<" +:+ tag) "<!--" = false -> resets ("</" +:+ toLowerCase tag +:+ ">").
Proof.
  intros Ht.
  assert (Hs : commentScan markerTail 0 (toLowerCase tag) = true).
  { apply commentScan_never. rewrite commentScan_lower.
    apply includes_commentScan; [lia|]. exact (includes_suffix "<" tag _ Ht). }
  change ("</" +:+ toLowerCase tag +:+ ">")
    with (String "<" (String "/" (toLowerCase tag +:+ ">"))).
  intros k. cbn [commentScan commentState].
  assert (Hc : completes k "<" = false) by (unfold completes; apply andb_false_r).
  rewrite Hc. cbn [andb]. change (commentStep k "<") with 1.
  change (completes 1 "/") with false. change (commentStep 1 "/") with 0. cbn [andb].
  split.
  - apply (commentScan_app _ markerTail_app); [exact Hs|].
    apply (resets_plain ">" eq_refl).
  - rewrite commentState_app. apply (resets_plain ">" eq_refl).
Qed.

Lemma wellMarked_nodes l :
  Forall (fun n => match n with
                   | ElementNode el => plainTree el = true -> wellMarked (canonicalText el)
                   | _ => True
                   end) l ->
  plainNodesWith plainTree l = true ->
  wellMarked (canonicalNodesWith canonicalText l).
Proof.
  induction 1 as [|n l Hn _ IH]; intros Hp; [apply wellMarked_nil|].
  destruct n as [el|t|d|k d]; cbn [plainNodesWith canonicalNodesWith] in *.
  - apply andb_true_iff in Hp as [Hel Hl]. apply wellMarked_app; auto.
  - apply wellMarked_app; [|auto].
    destruct (truthy (trim t)); [|apply wellMarked_nil].
    apply lt_free_wellMarked, escapeHtml_lt_free.
  - auto.
  - auto.
Qed.

Lemma plainNames_attributes el :
  plainNames el = true ->
  Forall accepts (map attributeText (sortedAttributes el)).
Proof.
  intros Hp. unfold plainNames in Hp. rewrite !andb_true_iff in Hp.
  destruct Hp as [[_ Ha] _]. rewrite forallb_forall in Ha.
  apply Forall_map, List.Forall_forall. intros e He.
  apply accepts_attributeText.
  destruct (sortedAttributes_In el e He) as (a & Hin & Hentry).
  destruct (attributeEntry_kept el a e Hentry) as (Hskip & Hname & _).
  specialize (Ha a Hin). rewrite <- Hname, Hskip in Ha.
  now apply negb_true_iff in Ha.
Qed.

Lemma wellMarked_canonicalText el :
  plainTree el = true -> wellMarked (canonicalText el).
Proof.
  induction el using Element_tree_ind
    with (Q := fun n => match n with
                        | ElementNode el =>
                            plainTree el = true -> wellMarked (canonicalText el)
                        | _ => True
                        end); try exact I; [|exact IHel].
  set (el := mkElement tag attrs idn children shadow).
  intros Hp. rewrite canonicalText_eq.
  change (plainTree el)
    with (_shouldSkipElement el
          || (plainNames el
              && (has VOID_TAGS tag
                  || (plainNodesWith plainTree children
                      && match shadow with
                         | Some l => plainNodesWith plainTree l
                         | None => true
                         end)))) in Hp.
  destruct (_shouldSkipElement el); [apply wellMarked_nil|].
  cbn [orb] in Hp. apply andb_true_iff in Hp as [Hnames Hrest].
  cbn [tagName childNodes shadowRoot el].
  assert (Htag : includes ("<" +:+ tag) "<!--" = false).
  { unfold plainNames in Hnames. rewrite !andb_true_iff in Hnames.
    destruct Hnames as [[Ht _] _]. now apply negb_true_iff in Ht. }
  assert (Href : accepts (join "" (refChunk el))).
  { apply accepts_refChunk. unfold plainNames in Hnames.
    rewrite !andb_true_iff in Hnames. destruct Hnames as [_ Hr].
    destruct (ariaRef_ref el); [now apply negb_true_iff in Hr|exact I]. }
  pose proof (accepts_join _ (plainNames_attributes el Hnames)) as Hattrs.
  apply wellMarked_open; [exact Htag|].
  apply accepts_resets; [exact Hattrs|].
  apply accepts_resets; [exact Href|].
  apply resets_wellMarked; [apply (resets_plain ">" eq_refl)|].
  destruct (has VOID_TAGS tag); [apply wellMarked_nil|].
  cbn [orb] in Hrest. apply andb_true_iff in Hrest as [Hc Hs].
  apply wellMarked_app; [now apply wellMarked_nodes|].
  apply wellMarked_app.
  - destruct shadow as [l|]; [|apply wellMarked_nil].
    apply (wellMarked_app "<!-- shadow-root -->"); [split; reflexivity|].
    apply wellMarked_app; [now apply wellMarked_nodes|split; reflexivity].
  - assert (Hclose := resets_close tag Htag 0). exact Hclose.
Qed.

(** C10 (amended). Comment nodes of the source document never reach the
    canonical text: the child loop passes over a comment node without
    pushing anything, so a document and the same document with every
    comment node removed (at any depth, shadow trees included) serialize
    to the same text and the same frame refs; what a text node contributes
    holds no [<]. Tag names, attribute names and refs are written as they
    are: when none of those the walk writes holds [<!--] (and no tag name
    starts with [!--]), every [<!--] of the text is the start of one of
    the serializer's own markers, [<!-- shadow-root -->] and
    [<!-- /shadow-root -->]. *)
Theorem comments_never_emitted :
  (forall (d : string) (rest : list Node) (b : AIDomBuilder),
      _serializeChildren (CommentNode d :: rest) b = _serializeChildren rest b)
  /\ (forall root : Element,
         AIDomBuilderInjection {| body := stripComments root |}
         = AIDomBuilderInjection {| body := root |})
  /\ (forall text : string, includes (escapeHtml text) "<" = false)
  /\ (forall root : Element,
         plainTree root = true ->
         forall before after : string,
           html (AIDomBuilderInjection {| body := root |})
           = before +:+ "<!--" +:+ after ->
           startsWith after " shadow-root -->" = true
           \/ startsWith after " /shadow-root -->" = true).
Proof.
  split; [|split; [|split]].
  - intros d rest b. apply _serializeChildren_cons.
  - intros root. unfold AIDomBuilderInjection, build. cbn [body fst].
    rewrite stripComments_serializeElement. reflexivity.
  - apply escapeHtml_lt_free.
  - intros root Hp before after E.
    unfold AIDomBuilderInjection in E. cbn [body] in E. rewrite build_eq in E.
    cbn [html] in E. rewrite (proj1 (walk_computes_canonical root)) in E.
    destruct (wellMarked_canonicalText root Hp) as [Hscan _].
    rewrite E in Hscan.
    apply (commentScan_sound _ before 0 after) in Hscan.
    now apply orb_true_iff in Hscan.
Qed.

(** A document with comment nodes in the light and in the shadow tree and
    a text that reads like the inside of a comment. *)
Definition commentedDocument : Element :=
  mkElement "DIV" [("id", "host"); ("data-x", "<!--")] None
    [CommentNode " note "; TextNode "!-- not a comment -->";
     ElementNode (mkElement "X--" [] None [TextNode "<!-- text -->"] None)]
    (Some [CommentNode "inner"; ElementNode (mkElement "SPAN" [] None [] None)]).

Example commentedDocument_html :
  html (AIDomBuilderInjection {| body := commentedDocument |})
  = "<div id=" +:+ quoted "host" +:+ ">!-- not a comment --&gt;"
    +:+ "<x-->&lt;!-- text --&gt;</x-->"
    +:+ "<!-- shadow-root --><span></span><!-- /shadow-root --></div>".
Proof. vm_compute. reflexivity. Qed.

Lemma comments_never_emitted_witness :
  plainTree commentedDocument = true
  /\ AIDomBuilderInjection {| body := stripComments commentedDocument |}
     = AIDomBuilderInjection {| body := commentedDocument |}
  /\ forall before after : string,
       html (AIDomBuilderInjection {| body := commentedDocument |})
       = before +:+ "<!--" +:+ after ->
       startsWith after " shadow-root -->" = true
       \/ startsWith after " /shadow-root -->" = true.
Proof.
  split; [reflexivity|]. split.
  - exact (proj1 (proj2 comments_never_emitted) commentedDocument).
  - exact (proj2 (proj2 (proj2 comments_never_emitted)) commentedDocument eq_refl).
Defined.

(** C10 as stated fails: an attribute name and a tag name are written as
    they are. The element below, which the HTML parser builds from
    [<div <!--x=y><x--></x--></div>], has no comment node; its text holds a
    [<!--] that is no marker, closed by the [-->] of the child's tag. *)
Lemma comments_never_emitted_counterexample :
  let root := mkElement "DIV" [("<!--x", "y")] None
                [ElementNode (mkElement "X--" [] None [] None)] None in
  stripComments root = root
  /\ html (AIDomBuilderInjection {| body := root |})
     = "<div " +:+ "<!--" +:+ "x=" +:+ quoted "y" +:+ "><x" +:+ "-->" +:+ "</x--></div>"
  /\ ~ (forall before after : string,
          html (AIDomBuilderInjection {| body := root |})
          = before +:+ "<!--" +:+ after ->
          startsWith after " shadow-root -->" = true
          \/ startsWith after " /shadow-root -->" = true
          \/ startsWith after " BEGIN IFRAME " = true
          \/ startsWith after " END IFRAME " = true).
Proof.
  cbv zeta. split; [reflexivity|]. split; [vm_compute; reflexivity|].
  intros H.
  specialize (H "<div " ("x=" +:+ quoted "y" +:+ "><x--></x--></div>") eq_refl).
  vm_compute in H. destruct H as [H|[H|[H|H]]]; discriminate.
Qed.
(** ** The shapes of a generated class name *)

(** The three shapes of a generated identifier, as the specification
    words them: a token that starts with a framework prefix and a hyphen;
    an underscore followed by five or more letters and digits and nothing
    else; a token that holds a run of eight or more hexadecimal digits. *)
Definition frameworkPrefixed (cls : string) : Prop :=
  exists p rest : string,
    In p ["css"; "sc"; "emotion"; "styled"; "jsx"] /\ cls = p +:+ "-" +:+ rest.

Definition hashedModule (cls : string) : Prop :=
  exists rest : string,
    cls = "_" +:+ rest /\ 5 <= String.length rest /\ allChars isAlnum rest = true.

Definition longHexRun (cls : string) : Prop :=
  exists before run after : string,
    cls = before +:+ run +:+ after
    /\ 8 <= String.length run /\ allChars isHex run = true.

Definition generatedShape (cls : string) : Prop :=
  frameworkPrefixed cls \/ hashedModule cls \/ longHexRun cls.

Lemma prefix_split p : forall s,
  String.prefix p s = true -> exists rest, s = p +:+ rest.
Proof.
  induction p as [|c p IH]; intros s H; [now exists s|].
  destruct s as [|d s]; [discriminate|]. cbn [String.prefix] in H.
  destruct (ascii_dec c d) as [->|]; [|discriminate].
  destruct (IH s H) as [rest ->]. now exists rest.
Qed.

Lemma pattern_framework_prefix_shape cls :
  pattern_framework_prefix cls = true <-> frameworkPrefixed cls.
Proof.
  unfold pattern_framework_prefix, frameworkPrefixed. rewrite existsb_exists. split.
  - intros (p & Hp & H). apply prefix_split in H as [rest ->].
    exists p, rest. split; [exact Hp|apply append_assoc].
  - intros (p & rest & Hp & ->). exists p. split; [exact Hp|].
    unfold startsWith. rewrite <- append_assoc. apply prefix_self.
Qed.

Lemma pattern_module_hash_shape cls :
  pattern_module_hash cls = true <-> hashedModule cls.
Proof.
  unfold pattern_module_hash, hashedModule. split.
  - destruct cls as [|c rest]; [discriminate|]. rewrite !andb_true_iff.
    intros [[Hc Hlen] Hall]. exists rest. split; [|split; [|exact Hall]].
    + apply N.eqb_eq in Hc. unfold code in Hc.
      apply (f_equal ascii_of_N) in Hc. rewrite ascii_N_embedding in Hc. now subst c.
    + now apply Nat.leb_le in Hlen.
  - intros (rest & -> & Hlen & Hall).
    change ("_" +:+ rest) with (String "_" rest). cbv beta iota.
    apply Nat.leb_le in Hlen. now rewrite Hlen, Hall.
Qed.

(** What [hexRun] finds: the end of a run that began before [s], or a
    whole run inside [s]. *)
Lemma hexRun_sound s : forall run,
  hexRun run s = true ->
  (exists digits after,
      s = digits +:+ after /\ allChars isHex digits = true
      /\ 8 <= run + String.length digits)
  \/ longHexRun s.
Proof.
  induction s as [|c s IH]; intros run H; [discriminate|].
  cbn [hexRun] in H. destruct (isHex c) eqn:Ec.
  - destruct (Nat.leb_spec 8 (S run)) as [Hle|Hlt].
    + left. exists (String c ""), s. cbn [allChars String.length]. rewrite Ec.
      split; [reflexivity|]. split; [reflexivity|lia].
    + destruct (IH _ H) as [(digits & after & -> & Hall & Hlen)|(before & digits & after & -> & Hlen & Hall)].
      * left. exists (String c digits), after. cbn [allChars String.length].
        rewrite Ec, Hall. split; [reflexivity|]. split; [reflexivity|lia].
      * right. exists (String c before), digits, after. auto.
  - right.
    destruct (IH _ H) as [(digits & after & -> & Hall & Hlen)|(before & digits & after & -> & Hlen & Hall)].
    + exists (String c ""), digits, after. auto.
    + exists (String c before), digits, after. auto.
Qed.

Lemma hexRun_digits digits : forall run after,
  allChars isHex digits = true -> digits <> "" ->
  8 <= run + String.length digits ->
  hexRun run (digits +:+ after) = true.
Proof.
  induction digits as [|c digits IH]; intros run after Hall Hne Hlen; [congruence|].
  change (String c digits +:+ after) with (String c (digits +:+ after)).
  cbn [allChars String.length] in *. apply andb_true_iff in Hall as [Hc Hall].
  cbn [hexRun]. rewrite Hc. destruct (Nat.leb_spec 8 (S run)); [reflexivity|].
  apply IH; [exact Hall| |lia]. intros ->. cbn in Hlen. lia.
Qed.

Lemma hexRun_skip before : forall run rest,
  (forall run', hexRun run' rest = true) -> hexRun run (before +:+ rest) = true.
Proof.
  induction before as [|c before IH]; intros run rest H; [apply H|].
  change (String c before +:+ rest) with (String c (before +:+ rest)).
  cbn [hexRun]. destruct (isHex c); [destruct (8 <=? S run)%nat|]; auto.
Qed.

Lemma pattern_long_hex_shape cls : pattern_long_hex cls = true <-> longHexRun cls.
Proof.
  unfold pattern_long_hex. split.
  - intros H. destruct (hexRun_sound cls 0 H) as [(digits & after & -> & Hall & Hlen)|H']; [|exact H'].
    exists "", digits, after. auto.
  - intros (before & digits & after & -> & Hlen & Hall).
    apply hexRun_skip. intros run'. apply hexRun_digits; [exact Hall| |lia].
    intros ->. cbn in Hlen. lia.
Qed.

Lemma generatedClass_shape cls : generatedClass cls = true <-> generatedShape cls.
Proof.
  unfold generatedClass, generatedShape.
  rewrite !orb_true_iff, pattern_framework_prefix_shape, pattern_module_hash_shape,
    pattern_long_hex_shape. tauto.
Qed.

Lemma filterClasses_tokens v t :
  t <> "" ->
  In t (split_whitespace (filterClasses v))
  <-> In t (split_whitespace v) /\ generatedClass t = false.
Proof.
  intros Ht.
  assert (Hkept : In t (List.filter keptClass (split_whitespace v))
                  <-> In t (split_whitespace v) /\ generatedClass t = false).
  { rewrite List.filter_In. unfold keptClass. rewrite andb_true_iff, negb_true_iff.
    destruct t; [congruence|]. cbn [truthy]. tauto. }
  rewrite <- Hkept. rewrite filterClasses_eq.
  destruct (List.filter keptClass (split_whitespace v)) as [|u us] eqn:E.
  - cbn. split; [intros [H|[]]; congruence|intros []].
  - rewrite <- E. unfold split_whitespace at 1.
    rewrite split_join; [reflexivity|apply kept_tokens_clean|rewrite E; discriminate].
Qed.

Lemma class_only_html v :
  AIDomBuilderInjection {| body := mkElement "P" [("class", v)] None [] None |}
  = {| html := "<p"
               +:+ (if truthy (filterClasses v)
                    then " class=" +:+ quote +:+ escapeAttr (filterClasses v) +:+ quote
                    else "")
               +:+ "></p>";
       iframeRefs := [] |}.
Proof.
  unfold AIDomBuilderInjection. cbn [body]. rewrite build_eq.
  set (el := mkElement "P" [("class", v)] None [] None).
  destruct (element_structure el) as [(Es & _)|[(_ & Ev & _)|(_ & _ & Ec & Er)]];
    [discriminate Es|discriminate Ev|].
  rewrite Ec, Er. unfold openChunks, sortedAttributes.
  cbn [attributes el]. rewrite collectAttributes_class.
  destruct (truthy (filterClasses v)); reflexivity.
Qed.

(** C9. The serializer splits the value of a [class] attribute on white
    space and drops the empty tokens and the tokens of generated shape:
    a token is dropped by [GENERATED_CLASS_PATTERNS] exactly when it is
    framework-prefixed, a hashed-module token or holds a long hexadecimal
    run; the tokens of the result are the other tokens of the value, in
    their order, joined by one space; with no survivor the attribute is
    omitted. [css-1a2b3c help-text sc-dkPtRN] yields [class="help-text"],
    [css-1a2b3c sc-dkPtRN] yields no [class] attribute, and a hashed-module
    token and a token with a long hexadecimal run are dropped alike. *)
Theorem class_filtering :
  (forall cls : string,
      existsb (fun p => p cls) GENERATED_CLASS_PATTERNS = true <-> generatedShape cls)
  /\ (forall v t : string,
         In t (split_whitespace (filterClasses v)) /\ t <> ""
         <-> In t (split_whitespace v) /\ t <> "" /\ ~ generatedShape t)
  /\ (forall v : string,
         filterClasses v =
         join " " (List.filter (fun cls => truthy cls && negb (generatedClass cls))
                               (split_whitespace v)))
  /\ (forall (el : Element) (v : string),
         collectAttributes el [("class", v)] [] =
         if truthy (filterClasses v) then [("class", filterClasses v)] else [])
  /\ (forall v : string,
         AIDomBuilderInjection {| body := mkElement "P" [("class", v)] None [] None |}
         = {| html := "<p"
                      +:+ (if truthy (filterClasses v)
                           then " class=" +:+ quote +:+ escapeAttr (filterClasses v)
                                +:+ quote
                           else "")
                      +:+ "></p>";
              iframeRefs := [] |})
  /\ AIDomBuilderInjection
       {| body := mkElement "P" [("class", "css-1a2b3c help-text sc-dkPtRN")]
                            None [] None |}
     = {| html := "<p class=" +:+ quoted "help-text" +:+ "></p>"; iframeRefs := [] |}
  /\ AIDomBuilderInjection
       {| body := mkElement "P" [("class", "css-1a2b3c sc-dkPtRN")] None [] None |}
     = {| html := "<p></p>"; iframeRefs := [] |}
  /\ AIDomBuilderInjection
       {| body := mkElement "P"
                    [("class", "_3fkL2xB btn x-DEADbeef01 _abc facade _3fk-2xB")]
                    None [] None |}
     = {| html := "<p class=" +:+ quoted "btn _abc facade _3fk-2xB" +:+ "></p>";
          iframeRefs := [] |}
  /\ AIDomBuilderInjection
       {| body := mkElement "P" [("class", "_3fkL2xB a1b2c3d4e5f6")] None [] None |}
     = {| html := "<p></p>"; iframeRefs := [] |}.
Proof.
  split; [|split; [|split; [|split; [|split]]]].
  - intros cls. rewrite generatedClass_patterns. apply generatedClass_shape.
  - intros v t. rewrite <- generatedClass_shape. split.
    + intros [Hin Ht]. apply (filterClasses_tokens v t Ht) in Hin as [Hin Hg].
      split; [exact Hin|]. split; [exact Ht|]. now rewrite Hg.
    + intros (Hin & Ht & Hg). split; [|exact Ht].
      apply (filterClasses_tokens v t Ht). split; [exact Hin|].
      now destruct (generatedClass t).
  - intros v. unfold filterClasses. f_equal.
    apply List.filter_ext. intros cls. now rewrite generatedClass_patterns.
  - apply collectAttributes_class.
  - apply class_only_html.
  - repeat split; vm_compute; reflexivity.
Qed.
(** ** Re-ordering the source attributes of a tree *)

(** The tree in which every element [el] carries the attributes
    [order el] in place of its own. *)
Fixpoint reorderAttributes (order : Element -> list (string * string)) (el : Element)
  : Element :=
  match el with
  | mkElement tag _ idn children shadow =>
      let nodes :=
        map (fun n => match n with
                      | ElementNode child => ElementNode (reorderAttributes order child)
                      | _ => n
                      end) in
      mkElement tag (order el) idn (nodes children)
        match shadow with
        | Some l => Some (nodes l)
        | None => None
        end
  end.

Definition reorderNode (order : Element -> list (string * string)) (n : Node) : Node :=
  match n with
  | ElementNode child => ElementNode (reorderAttributes order child)
  | _ => n
  end.

(** The elements [_serializeElement] is called on during the walk of
    [el]. *)
Fixpoint visited (el : Element) : list Element :=
  match el with
  | mkElement tag _ _ children shadow =>
      let nodes :=
        flat_map (fun n => match n with
                           | ElementNode child => visited child
                           | _ => []
                           end) in
      el :: (if _shouldSkipElement el || has VOID_TAGS tag then []
             else nodes children
                  ++ match shadow with
                     | Some l => nodes l
                     | None => []
                     end)
  end.

Definition visitedNode (n : Node) : list Element :=
  match n with
  | ElementNode child => visited child
  | _ => []
  end.

(** [order el] is a permutation of the attributes of [el] under which the
    attributes the serializer keeps and that share a rank stay in their
    relative order; this is so in particular when no two of them share a
    rank. The names kept are none of those inherited from
    [Object.prototype]. *)
Definition keepsRankOrder (order : Element -> list (string * string)) (el : Element)
  : Prop :=
  Permutation (order el) (attributes el)
  /\ Forall ownName (collectAttributes el (attributes el) [])
  /\ (List.NoDup (map (fun a => rankZ (fst a)) (collectAttributes el (attributes el) []))
      \/ forall k : Z,
           List.filter (fun a => hasRank k (fst a)) (collectAttributes el (order el) [])
           = List.filter (fun a => hasRank k (fst a))
                         (collectAttributes el (attributes el) [])).

Lemma Permutation_flat_map_same {A B} (f : A -> list B) l l' :
  Permutation l l' -> Permutation (flat_map f l) (flat_map f l').
Proof.
  induction 1 as [|x l l' _ IH|x y l|l l' l'' _ IH1 _ IH2]; cbn [flat_map].
  - constructor.
  - now apply Permutation_app_head.
  - rewrite !app_assoc. apply Permutation_app_tail, Permutation_app_comm.
  - now transitivity (flat_map f l').
Qed.

Lemma Permutation_filter_same {A} (p : A -> bool) l l' :
  Permutation l l' -> Permutation (List.filter p l) (List.filter p l').
Proof.
  induction 1 as [|x l l' _ IH|x y l|l l' l'' _ IH1 _ IH2]; cbn [List.filter].
  - constructor.
  - destruct (p x); [now constructor|exact IH].
  - destruct (p x), (p y); try reflexivity. apply perm_swap.
  - now transitivity (List.filter p l').
Qed.

Lemma distinct_keys_filter {A} (key : A -> Z) k l :
  List.NoDup (map key l) -> (length (List.filter (fun a => (key a =? k)%Z) l) <= 1)%nat.
Proof.
  induction l as [|a l IH]; cbn [map List.filter]; [cbn; lia|].
  intros H. inversion H as [|? ? Hnotin Hnd]; subst.
  destruct (Z.eqb_spec (key a) k) as [E|]; [|now apply IH].
  assert (Hnone : List.filter (fun a0 => (key a0 =? k)%Z) l = []).
  { destruct (List.filter (fun a0 => (key a0 =? k)%Z) l) as [|b rest] eqn:Ef; [reflexivity|].
    exfalso. apply Hnotin.
    assert (Hb : In b (List.filter (fun a0 => (key a0 =? k)%Z) l))
      by (rewrite Ef; now left).
    apply List.filter_In in Hb as [Hin Hk]. apply Z.eqb_eq in Hk.
    rewrite E, <- Hk. now apply in_map. }
  rewrite Hnone. cbn. lia.
Qed.

Lemma short_Permutation_eq {A} (l l' : list A) :
  Permutation l l' -> (length l' <= 1)%nat -> l = l'.
Proof.
  intros Hp Hlen. destruct l' as [|a [|b l']]; [| |cbn in Hlen; lia].
  - symmetry in Hp. now apply Permutation_nil in Hp.
  - symmetry in Hp. now apply Permutation_length_1_inv in Hp.
Qed.

(** With pairwise different ranks the kept attributes of each rank are
    the same whatever the order. *)
Lemma distinct_ranks_keep_order (c1 c2 : list (string * string)) :
  Permutation c1 c2 -> Forall ownName c2 ->
  List.NoDup (map (fun a => rankZ (fst a)) c2) ->
  forall k, List.filter (fun a => hasRank k (fst a)) c1
            = List.filter (fun a => hasRank k (fst a)) c2.
Proof.
  intros Hp Hown Hnd k.
  assert (Hown1 : Forall ownName c1) by (now rewrite Hp).
  rewrite !filter_hasRank_own by assumption. unfold keyIs.
  apply short_Permutation_eq; [now apply Permutation_filter_same|].
  now apply (distinct_keys_filter (fun a => rankZ (fst a))).
Qed.

Lemma kept_order_sorted el (l : list (string * string)) :
  Permutation l (attributes el) ->
  Forall ownName (collectAttributes el (attributes el) []) ->
  (forall k, List.filter (fun a => hasRank k (fst a)) (collectAttributes el l [])
             = List.filter (fun a => hasRank k (fst a))
                           (collectAttributes el (attributes el) [])) ->
  sort compareAttrs (collectAttributes el l [])
  = sort compareAttrs (collectAttributes el (attributes el) []).
Proof.
  intros Hp Hown Hf.
  assert (Hpc : Permutation (collectAttributes el l [])
                            (collectAttributes el (attributes el) [])).
  { rewrite !collectAttributes_flat_map. cbn [app].
    now apply Permutation_flat_map_same. }
  assert (Hown1 : Forall ownName (collectAttributes el l [])) by (now rewrite Hpc).
  apply (sort_determined compareAttrs (fun a => rankZ (fst a)));
    auto using compareAttrs_ordersByKey.
  intros k. rewrite <- !filter_hasRank_own by assumption. apply Hf.
Qed.

Lemma find_none_app {A} (p : A -> bool) l rest :
  (forall a, In a l -> p a = false) -> List.find p (l ++ rest) = List.find p rest.
Proof.
  induction l as [|a l IH]; intros H; [reflexivity|].
  cbn [app List.find]. rewrite (H a (or_introl eq_refl)).
  apply IH. intros b Hb. apply H. now right.
Qed.

(** [rel] is never dropped or rewritten by the attribute loop:
    [getAttribute(el, 'rel')] can be read off the attributes kept. *)
Lemma find_rel_collected el l :
  List.find (fun a => String.eqb (fst a) "rel") l
  = List.find (fun a => String.eqb (fst a) "rel") (collectAttributes el l []).
Proof.
  rewrite collectAttributes_flat_map. cbn [app].
  induction l as [|[n v] l IH]; [reflexivity|].
  cbn [List.find flat_map fst]. destruct (String.eqb_spec n "rel") as [->|Hn].
  - assert (E : attributeEntry el ("rel", v) = [("rel", v)]) by reflexivity.
    rewrite E. reflexivity.
  - rewrite find_none_app; [exact IH|].
    intros e He. rewrite (attributeEntry_name el (n, v) e He). cbn [fst].
    now apply String.eqb_neq.
Qed.

Lemma kept_order_rel el l :
  (forall k, List.filter (fun a => hasRank k (fst a)) (collectAttributes el l [])
             = List.filter (fun a => hasRank k (fst a))
                           (collectAttributes el (attributes el) [])) ->
  List.find (fun a => String.eqb (fst a) "rel") l
  = List.find (fun a => String.eqb (fst a) "rel") (attributes el).
Proof.
  intros Hf.
  assert (Hq : forall a : string * string,
             String.eqb (fst a) "rel" = true -> hasRank 44 (fst a) = true).
  { intros a Ha. apply String.eqb_eq in Ha. rewrite Ha.
    unfold hasRank. now rewrite rank_rel. }
  rewrite (find_rel_collected el l), (find_rel_collected el (attributes el)).
  rewrite (find_filter _ (fun a => hasRank 44 (fst a)) (collectAttributes el l []) Hq).
  rewrite (find_filter _ (fun a => hasRank 44 (fst a)) (collectAttributes el (attributes el) []) Hq).
  now rewrite Hf.
Qed.

Lemma keepsRankOrder_filters order el :
  keepsRankOrder order el ->
  forall k, List.filter (fun a => hasRank k (fst a)) (collectAttributes el (order el) [])
            = List.filter (fun a => hasRank k (fst a))
                          (collectAttributes el (attributes el) []).
Proof.
  intros (Hp & Hown & [Hnd|Hf]); [|exact Hf].
  apply distinct_ranks_keep_order; [|exact Hown|exact Hnd].
  rewrite !collectAttributes_flat_map. cbn [app].
  now apply Permutation_flat_map_same.
Qed.

Lemma reorder_children order l :
  Forall (fun n => match n with
                   | ElementNode el =>
                       Forall (keepsRankOrder order) (visited el) ->
                       forall b, _serializeElement (reorderAttributes order el) b
                                 = _serializeElement el b
                   | _ => True
                   end) l ->
  Forall (keepsRankOrder order) (flat_map visitedNode l) ->
  forall b, _serializeChildren (map (reorderNode order) l) b = _serializeChildren l b.
Proof.
  induction 1 as [|n l Hn _ IH]; intros Hv b; [reflexivity|].
  cbn [flat_map map] in *. apply Forall_app in Hv as [Hvn Hvl].
  rewrite !_serializeChildren_cons.
  destruct n as [el|t|d|k d]; cbn [reorderNode serializeNode visitedNode] in *;
    rewrite ?(Hn Hvn); now apply IH.
Qed.

Lemma reorder_serializeElement order el :
  Forall (keepsRankOrder order) (visited el) ->
  forall b, _serializeElement (reorderAttributes order el) b = _serializeElement el b.
Proof.
  induction el using Element_tree_ind
    with (Q := fun n => match n with
                        | ElementNode el =>
                            Forall (keepsRankOrder order) (visited el) ->
                            forall b, _serializeElement (reorderAttributes order el) b
                                      = _serializeElement el b
                        | _ => True
                        end); try exact I; [|exact IHel].
  set (el := mkElement tag attrs idn children shadow).
  intros Hv b.
  change (visited el)
    with (el :: (if _shouldSkipElement el || has VOID_TAGS tag then []
                 else flat_map visitedNode children
                      ++ match shadow with
                         | Some l => flat_map visitedNode l
                         | None => []
                         end)) in Hv.
  inversion Hv as [|? ? Hel Hrest]; subst.
  pose proof (keepsRankOrder_filters order el Hel) as Hf.
  destruct Hel as (Hp & Hown & _).
  change (reorderAttributes order el)
    with (mkElement tag (order el) idn (map (reorderNode order) children)
            match shadow with
            | Some l => Some (map (reorderNode order) l)
            | None => None
            end).
  set (el' := mkElement tag (order el) idn (map (reorderNode order) children)
                match shadow with
                | Some l => Some (map (reorderNode order) l)
                | None => None
                end).
  assert (Hskip : _shouldSkipElement el' = _shouldSkipElement el).
  { unfold _shouldSkipElement, getAttribute. cbn [tagName attributes el'].
    rewrite (kept_order_rel el (order el) Hf). reflexivity. }
  assert (Hsorted : sortedAttributes el' = sortedAttributes el).
  { unfold sortedAttributes. cbn [attributes el'].
    rewrite (collectAttributes_tag el' el (order el) []) by reflexivity.
    now apply kept_order_sorted. }
  rewrite !_serializeElement_eq, Hskip. unfold _serializeAttributes. rewrite Hsorted.
  change (ownIframeRef el') with (ownIframeRef el).
  change (tagName el') with (tagName el).
  change (_serializeRef el') with (_serializeRef el).
  change (childNodes el') with (map (reorderNode order) children).
  change (childNodes el) with children.
  change (shadowRoot el) with shadow.
  change (shadowRoot el')
    with (match shadow with
          | Some l => Some (map (reorderNode order) l)
          | None => None
          end).
  change (tagName el) with tag in *.
  destruct (_shouldSkipElement el); [reflexivity|]. cbv zeta.
  destruct (has VOID_TAGS tag); [reflexivity|].
  cbn [orb] in Hrest. apply Forall_app in Hrest as [Hc Hs].
  rewrite (reorder_children order children H Hc).
  destruct shadow as [l|]; [|reflexivity].
  rewrite (reorder_children order l H0 Hs). reflexivity.
Qed.

(** C2 (amended). Re-ordering the source attributes of any elements of
    the tree leaves the canonical text and the frame refs as they are,
    provided that at every element the walk reaches the attributes the
    serializer keeps and that share a rank of [attrOrder] (several
    [aria-*], several unlisted names) stay in their relative order; this
    holds in particular when the kept attributes of each element have
    pairwise different ranks, wherever the dropped attributes ([data-*],
    [on*], [style], [ref]) move. The names kept are assumed not to be
    property names inherited from [Object.prototype]. *)
Theorem attribute_order_stability :
  forall (order : Element -> list (string * string)) (root : Element),
    Forall (keepsRankOrder order) (visited root) ->
    AIDomBuilderInjection {| body := reorderAttributes order root |}
    = AIDomBuilderInjection {| body := root |}.
Proof.
  intros order root Hv. unfold AIDomBuilderInjection, build. cbn [body fst].
  now rewrite (reorder_serializeElement order root Hv).
Qed.

(** Moving the first attribute of every element to the end. *)
Definition firstToEnd (el : Element) : list (string * string) :=
  match attributes el with
  | a :: rest => rest ++ [a]
  | [] => []
  end.

Definition formInput : Element :=
  mkElement "INPUT"
    [("value", "x"); ("onclick", "send()"); ("id", "first-name"); ("aria-label", "First")]
    None [] None.

Definition formLabel : Element :=
  mkElement "LABEL"
    [("for", "first-name"); ("aria-label", "First"); ("data-b", "2");
     ("aria-hidden", "true"); ("data-a", "1")]
    None [TextNode "First name"] None.

Definition formScript : Element :=
  mkElement "SCRIPT" [("src", "a.js")] None
    [ElementNode (mkElement "B" [("aria-a", "1"); ("aria-b", "2")] None [] None)] None.

Definition formDocument : Element :=
  mkElement "FORM" [("data-b", "2"); ("id", "f"); ("data-a", "1"); ("action", "/go")] None
    [ElementNode formLabel; ElementNode formInput; ElementNode formScript] None.

Example formDocument_reordered :
  reorderAttributes firstToEnd formDocument
  = mkElement "FORM" [("id", "f"); ("data-a", "1"); ("action", "/go"); ("data-b", "2")] None
      [ElementNode
         (mkElement "LABEL"
            [("aria-label", "First"); ("data-b", "2"); ("aria-hidden", "true");
             ("data-a", "1"); ("for", "first-name")]
            None [TextNode "First name"] None);
       ElementNode
         (mkElement "INPUT"
            [("onclick", "send()"); ("id", "first-name"); ("aria-label", "First");
             ("value", "x")]
            None [] None);
       ElementNode
         (mkElement "SCRIPT" [("src", "a.js")] None
            [ElementNode (mkElement "B" [("aria-b", "2"); ("aria-a", "1")] None [] None)]
            None)]
      None.
Proof. reflexivity. Qed.

Lemma attribute_order_stability_witness :
  AIDomBuilderInjection {| body := reorderAttributes firstToEnd formDocument |}
  = AIDomBuilderInjection {| body := formDocument |}.
Proof.
  apply attribute_order_stability.
  change (visited formDocument) with [formDocument; formLabel; formInput; formScript].
  assert (Hrot : forall (a : string * string) rest, Permutation (rest ++ [a]) (a :: rest)).
  { intros a rest. symmetry. apply Permutation_cons_append. }
  repeat apply List.Forall_cons; [| | | |apply List.Forall_nil].
  - split; [apply Hrot|]. split; [repeat constructor|]. left.
    change (map _ (collectAttributes formDocument (attributes formDocument) []))
      with [0; 12]%Z.
    repeat (constructor; [cbn; intuition discriminate|]). constructor.
  - split; [apply Hrot|]. split; [repeat constructor|]. right. intros k.
    change (collectAttributes formLabel (firstToEnd formLabel) [])
      with [("aria-label", "First"); ("aria-hidden", "true"); ("for", "first-name")].
    change (collectAttributes formLabel (attributes formLabel) [])
      with [("for", "first-name"); ("aria-label", "First"); ("aria-hidden", "true")].
    cbn [List.filter fst].
    change (hasRank k "for") with (14 =? k)%Z.
    change (hasRank k "aria-label") with (5 =? k)%Z.
    change (hasRank k "aria-hidden") with (5 =? k)%Z.
    destruct (Z.eqb_spec 14 k), (Z.eqb_spec 5 k); try reflexivity; lia.
  - split; [apply Hrot|]. split; [repeat constructor|]. left.
    change (map _ (collectAttributes formInput (attributes formInput) []))
      with [20; 0; 5]%Z.
    repeat (constructor; [cbn; intuition discriminate|]). constructor.
  - split; [apply Hrot|]. split; [repeat constructor|]. left.
    change (map _ (collectAttributes formScript (attributes formScript) []))
      with [11]%Z.
    repeat (constructor; [cbn; intuition discriminate|]). constructor.
Defined.

Example formDocument_html :
  html (AIDomBuilderInjection {| body := reorderAttributes firstToEnd formDocument |})
  = "<form id=" +:+ quoted "f" +:+ " action=" +:+ quoted "/go" +:+ ">"
    +:+ "<label aria-label=" +:+ quoted "First" +:+ " aria-hidden=" +:+ quoted "true"
    +:+ " for=" +:+ quoted "first-name" +:+ ">First name</label>"
    +:+ "<input id=" +:+ quoted "first-name" +:+ " aria-label=" +:+ quoted "First"
    +:+ " value=" +:+ quoted "x" +:+ ">"
    +:+ "</form>".
Proof. vm_compute. reflexivity. Qed.

(** * Further properties of the frame stitcher *)

(** ** [String.prototype.replace] with a string pattern *)

Lemma prefix_drop p s :
  String.prefix p s = true -> s = p +:+ drop (String.length p) s.
Proof.
  revert s. induction p as [|c p IH]; intros s H; [reflexivity|].
  destruct s as [|d s]; [discriminate|]. cbn [String.prefix] in H.
  destruct (ascii_dec c d) as [<-|]; [|discriminate].
  cbn [String.length drop]. change (String c p +:+ ?x) with (String c (p +:+ x)).
  f_equal. now apply IH.
Qed.

Lemma splitAtFirst_sound s p before after :
  splitAtFirst s p = Some (before, after) -> s = before +:+ p +:+ after.
Proof.
  revert before. induction s as [|c s IH]; intros before; cbn [splitAtFirst].
  - destruct (String.prefix p "") eqn:E; [|discriminate].
    intros [= <- <-]. now apply prefix_drop.
  - destruct (String.prefix p (String c s)) eqn:E.
    + intros [= <- <-]. now apply prefix_drop.
    + destruct (splitAtFirst s p) as [[b a]|] eqn:Es; [|discriminate].
      intros [= <- <-]. change (String c b +:+ ?x) with (String c (b +:+ x)).
      f_equal. now apply IH.
Qed.

Lemma splitAtFirst_includes s p :
  includes s p = match splitAtFirst s p with Some _ => true | None => false end.
Proof.
  induction s as [|c s IH]; cbn [includes splitAtFirst].
  - destruct (String.prefix p ""); reflexivity.
  - destruct (String.prefix p (String c s)); [reflexivity|].
    rewrite IH. now destruct (splitAtFirst s p) as [[b a]|].
Qed.

Lemma splitAtFirst_first s p : forall before after,
  splitAtFirst s p = Some (before, after) ->
  forall before' after', s = before' +:+ p +:+ after' ->
                         String.length before <= String.length before'.
Proof.
  induction s as [|c s IH]; intros before after; cbn [splitAtFirst].
  - destruct (String.prefix p ""); [|discriminate].
    intros [= <- <-] ? ? _. cbn. lia.
  - destruct (String.prefix p (String c s)) eqn:E.
    + intros [= <- <-] ? ? _. cbn. lia.
    + destruct (splitAtFirst s p) as [[b a]|] eqn:Es; [|discriminate].
      intros [= <- <-] before' after' Hs.
      destruct before' as [|d before'].
      * change ("" +:+ ?x) with x in Hs. rewrite Hs, prefix_self in E. discriminate.
      * change (String d before' +:+ ?x) with (String d (before' +:+ x)) in Hs.
        injection Hs as _ Hs. cbn [String.length].
        specialize (IH b a eq_refl before' after' Hs). lia.
Qed.

Lemma code_eqb c n :
  (n < 256)%N -> (code c =? n)%N = Ascii.eqb (ascii_of_N n) c.
Proof.
  intros Hn. unfold code. destruct (Ascii.eqb_spec (ascii_of_N n) c) as [<-|Hne].
  - rewrite N_ascii_embedding by exact Hn. apply N.eqb_refl.
  - apply N.eqb_neq. intros E. apply Hne. rewrite <- E. apply ascii_N_embedding.
Qed.

(** A replacement text without [$] is inserted as it is. *)
Lemma getSubstitution_plain matched before after repl :
  includes repl "$" = false -> getSubstitution matched before after repl = repl.
Proof.
  change "$" with (single "$").
  induction repl as [|c repl IH]; [reflexivity|].
  rewrite includes_single_cons. intros H. apply orb_false_iff in H as [Hc Hr].
  cbn [getSubstitution]. rewrite (code_eqb c 36) by reflexivity.
  change (ascii_of_N 36) with "$"%char. rewrite Hc. now rewrite IH.
Qed.

(** [replace] with a string pattern: when the pattern does not occur the
    text is returned unchanged; when it occurs and the replacement holds
    no [$], exactly the first occurrence is replaced by the replacement
    text. *)
Lemma replace_first_occurrence :
  forall s p repl : string,
    includes repl "$" = false ->
    (includes s p = false -> replace s p repl = s)
    /\ (includes s p = true ->
        exists before after,
          s = before +:+ p +:+ after
          /\ replace s p repl = before +:+ repl +:+ after
          /\ forall before' after',
               s = before' +:+ p +:+ after' ->
               String.length before <= String.length before').
Proof.
  intros s p repl Hplain. unfold replace. rewrite splitAtFirst_includes.
  destruct (splitAtFirst s p) as [[before after]|] eqn:E.
  - split; [discriminate|]. intros _. exists before, after.
    split; [now apply splitAtFirst_sound|].
    split; [now rewrite getSubstitution_plain|].
    now apply (splitAtFirst_first s p before after).
  - split; [reflexivity|discriminate].
Qed.

(** ** Stitching one frame *)

Lemma iframeStitched_plain r child :
  includes r "$" = false -> includes child "$" = false ->
  includes (iframeStitched r child) "$" = false.
Proof.
  intros Hr Hc. unfold iframeStitched. change "$" with (single "$") in *.
  rewrite !includes_single_app, Hr, Hc. reflexivity.
Qed.

(** X9. A frame element written as [<iframe ref="r"></iframe>] whose
    frame can be entered, holds no frames of its own and serializes to a
    text without [$] is expanded in place: its first occurrence becomes
    the frame element holding the child text between the BEGIN and END
    markers of [r], the rest of the text is untouched, and one serializer
    run in that frame is recorded. *)
Theorem bare_frame_is_inlined :
  forall (main frame : Frame) (r text : string) (trace : list Event),
    contentFrame (contentFrames main) r = Some frame ->
    iframeRefs (evaluate frame) = [] ->
    includes (html (evaluate frame)) "$" = false ->
    includes r "$" = false ->
    includes text (iframeEmpty r) = true ->
    exists before after,
      text = before +:+ iframeEmpty r +:+ after
      /\ stitchFrame main (text, trace) r
         = (before +:+ iframeStitched r (html (evaluate frame)) +:+ after,
            trace ++ [Evaluate (Some r)])
      /\ forall before' after',
           text = before' +:+ iframeEmpty r +:+ after' ->
           String.length before <= String.length before'.
Proof.
  intros main frame r text trace Hframe Hrefs Hchild Hr Hin.
  destruct (replace_first_occurrence text (iframeEmpty r)
              (iframeStitched r (html (evaluate frame)))
              (iframeStitched_plain _ _ Hr Hchild)) as [_ H].
  destruct (H Hin) as (before & after & Htext & Hrep & Hfirst).
  exists before, after. split; [exact Htext|]. split; [|exact Hfirst].
  unfold stitchFrame. rewrite Hframe. cbv zeta. rewrite Hrefs.
  cbn [stitchNested fst snd]. now rewrite Hrep.
Qed.

Lemma bare_frame_is_inlined_witness :
  exists before after,
    "<body>" +:+ iframeEmpty "e2" +:+ "</body>" = before +:+ iframeEmpty "e2" +:+ after
    /\ stitchFrame (mkFrame {| body := mkElement "BODY" [] None [] None |}
                      [("e2", mkFrame submitDocument [])])
         ("<body>" +:+ iframeEmpty "e2" +:+ "</body>", [Evaluate None]) "e2"
       = (before +:+ iframeStitched "e2" (html (evaluate (mkFrame submitDocument [])))
            +:+ after,
          [Evaluate None] ++ [Evaluate (Some "e2")])
    /\ forall before' after',
         "<body>" +:+ iframeEmpty "e2" +:+ "</body>"
         = before' +:+ iframeEmpty "e2" +:+ after' ->
         String.length before <= String.length before'.
Proof.
  apply (bare_frame_is_inlined
           (mkFrame {| body := mkElement "BODY" [] None [] None |}
              [("e2", mkFrame submitDocument [])])
           (mkFrame submitDocument []) "e2");
    vm_compute; reflexivity.
Defined.

(** * Further properties of the session orchestrator *)

(** ** Diff file names *)

Lemma uint_digits d : allChars isDigit (NilEmpty.string_of_uint d) = true.
Proof. induction d; cbn [NilEmpty.string_of_uint allChars]; try rewrite IHd; reflexivity. Qed.

Lemma ofNat_digits n : allChars isDigit (ofNat n) = true.
Proof.
  unfold ofNat, NilZero.string_of_uint.
  destruct (Nat.to_uint n); try apply uint_digits. reflexivity.
Qed.

Lemma allChars_app f a b : allChars f (a +:+ b) = allChars f a && allChars f b.
Proof.
  induction a as [|c a IH]; [reflexivity|].
  change (String c a +:+ b) with (String c (a +:+ b)). cbn [allChars].
  now rewrite IH, andb_assoc.
Qed.

Lemma repeatChar_all f n c : f c = true -> allChars f (repeatChar n c) = true.
Proof. intros H. induction n; cbn [repeatChar allChars]; [reflexivity|now rewrite H]. Qed.

Lemma padStart_digits n : allChars isDigit (padStart 3 "0" (ofNat n)) = true.
Proof.
  unfold padStart. rewrite allChars_app, ofNat_digits, repeatChar_all; reflexivity.
Qed.

(** The number a run of decimal digits stands for. *)
Definition decimalValue (s : string) : nat :=
  match NilEmpty.uint_of_string s with
  | Some d => Nat.of_uint d
  | None => 0
  end.

Lemma decimalValue_zero s : decimalValue (String "0" s) = decimalValue s.
Proof.
  unfold decimalValue. cbn [NilEmpty.uint_of_string].
  destruct (NilEmpty.uint_of_string s); reflexivity.
Qed.

Lemma decimalValue_ofNat n : decimalValue (ofNat n) = n.
Proof.
  unfold decimalValue, ofNat, NilZero.string_of_uint.
  rewrite <- (DecimalNat.Unsigned.of_to n) at 2.
  destruct (Nat.to_uint n) eqn:E; try (rewrite <- E, NilEmpty.usu; reflexivity).
  reflexivity.
Qed.

(** The counter can be read back from its padded form. *)
Lemma decimalValue_padStart n : decimalValue (padStart 3 "0" (ofNat n)) = n.
Proof.
  unfold padStart. induction (3 - String.length (ofNat n)) as [|k IH].
  - apply decimalValue_ofNat.
  - cbn [repeatChar]. change (String "0" ?a +:+ ?b) with (String "0" (a +:+ b)).
    now rewrite decimalValue_zero.
Qed.

(** The leading run of digits. *)
Fixpoint leadingDigits (s : string) : string :=
  match s with
  | String c s' => if isDigit c then String c (leadingDigits s') else EmptyString
  | EmptyString => EmptyString
  end.

Lemma leadingDigits_hyphen num rest :
  allChars isDigit num = true -> leadingDigits (num +:+ "-" +:+ rest) = num.
Proof.
  induction num as [|c num IH]; [reflexivity|].
  cbn [allChars]. intros H. apply andb_true_iff in H as [Hc Hn].
  change (String c num +:+ ?x) with (String c (num +:+ x)). cbn [leadingDigits].
  now rewrite Hc, IH.
Qed.

(** X10. The counter can be read back from a diff file name, whatever the
    tool name and the arguments are: names built for different counters
    are different, so no diff file of a session overwrites another. *)
Theorem formatDiffName_counter_injective :
  (forall counter toolName toolArgs,
      decimalValue (leadingDigits (formatDiffName counter toolName toolArgs)) = counter)
  /\ (forall c1 c2 t1 t2 a1 a2,
         formatDiffName c1 t1 a1 = formatDiffName c2 t2 a2 -> c1 = c2).
Proof.
  assert (H : forall counter toolName toolArgs,
             decimalValue (leadingDigits (formatDiffName counter toolName toolArgs))
             = counter).
  { intros counter toolName toolArgs. unfold formatDiffName. cbv zeta.
    rewrite leadingDigits_hyphen by apply padStart_digits.
    apply decimalValue_padStart. }
  split; [exact H|].
  intros c1 c2 t1 t2 a1 a2 E.
  rewrite <- (H c1 t1 a1), <- (H c2 t2 a2). now rewrite E.
Qed.

(** The part of the name that comes from the tool arguments. *)
Definition diffNameSuffix (toolArgs : ToolArgs) : string :=
  let r := match arg_ref toolArgs with Some r => r | None => "" end in
  let value := match arg_value toolArgs with Some v => slice0 20 v | None => "" end in
  collapseHyphens (sanitizeChars (join "-" (List.filter truthy [r; value]))).

Definition safeChar (c : ascii) : bool := isAlnum c || (code c =? 45)%N.

Lemma sanitizeChars_safe s : allChars safeChar (sanitizeChars s) = true.
Proof.
  induction s as [|c s IH]; [reflexivity|].
  cbn [sanitizeChars allChars]. rewrite IH, andb_true_r. unfold safeChar.
  destruct (isAlnum c || (code c =? 45)%N) eqn:E; [exact E|reflexivity].
Qed.

Lemma sanitizeChars_length s : String.length (sanitizeChars s) = String.length s.
Proof. induction s as [|c s IH]; [reflexivity|]. cbn. now rewrite IH. Qed.

Lemma collapseHyphens_safe s :
  allChars safeChar s = true -> allChars safeChar (collapseHyphens s) = true.
Proof.
  induction s as [|c s IH]; [reflexivity|].
  cbn [allChars]. intros H. apply andb_true_iff in H as [Hc Hs].
  cbn [collapseHyphens]. destruct (code c =? 45)%N.
  - destruct s as [|d s]; [cbn; now rewrite Hc|].
    destruct (code d =? 45)%N; [now apply IH|].
    cbn [allChars]. rewrite Hc. now apply IH.
  - cbn [allChars]. rewrite Hc. now apply IH.
Qed.

Lemma collapseHyphens_length s :
  String.length (collapseHyphens s) <= String.length s.
Proof.
  induction s as [|c s IH]; [reflexivity|].
  cbn [collapseHyphens]. destruct (code c =? 45)%N.
  - destruct s as [|d s]; [reflexivity|].
    destruct (code d =? 45)%N; cbn [String.length] in *; lia.
  - cbn [String.length]. lia.
Qed.

Definition startsWithHyphen (s : string) : bool :=
  match s with String c _ => (code c =? 45)%N | EmptyString => false end.

Lemma collapseHyphens_head s :
  startsWithHyphen (collapseHyphens s) = startsWithHyphen s.
Proof.
  induction s as [|c s IH]; [reflexivity|].
  cbn [collapseHyphens]. destruct (code c =? 45)%N eqn:Ec.
  - destruct s as [|d s]; [reflexivity|].
    destruct (code d =? 45)%N eqn:Ed.
    + rewrite IH. cbn [startsWithHyphen]. now rewrite Ec, Ed.
    + reflexivity.
  - reflexivity.
Qed.

Lemma includes_double_hyphen c s :
  includes (String c s) "--" = ((code c =? 45)%N && startsWithHyphen s) || includes s "--".
Proof.
  cbn [includes]. f_equal.
  destruct (String.prefix "--" (String c s)) eqn:E.
  - cbn [String.prefix] in E. rewrite (code_eqb c 45) by reflexivity.
    change (ascii_of_N 45) with "-"%char.
    destruct (ascii_dec "-" c) as [<-|]; [|discriminate].
    destruct s as [|d s]; [discriminate|]. cbn [startsWithHyphen].
    cbn [String.prefix] in E.
    rewrite (code_eqb d 45) by reflexivity. change (ascii_of_N 45) with "-"%char.
    destruct (ascii_dec "-" d) as [<-|]; [reflexivity|discriminate].
  - cbn [String.prefix] in E. rewrite (code_eqb c 45) by reflexivity.
    change (ascii_of_N 45) with "-"%char.
    destruct (ascii_dec "-" c) as [<-|Hne].
    + destruct s as [|d s]; [reflexivity|]. cbn [startsWithHyphen].
      cbn [String.prefix] in E.
      rewrite (code_eqb d 45) by reflexivity. change (ascii_of_N 45) with "-"%char.
      destruct (ascii_dec "-" d) as [<-|Hne].
      * rewrite prefix_empty in E. discriminate.
      * destruct (Ascii.eqb_spec "-" d); [congruence|]. reflexivity.
    + destruct (Ascii.eqb_spec "-" c); [congruence|]. reflexivity.
Qed.

Lemma collapseHyphens_single s : includes (collapseHyphens s) "--" = false.
Proof.
  induction s as [|c s IH]; [reflexivity|].
  cbn [collapseHyphens]. destruct (code c =? 45)%N eqn:Ec.
  - destruct s as [|d s]; [rewrite includes_double_hyphen; cbn; now rewrite andb_false_r|].
    destruct (code d =? 45)%N eqn:Ed; [exact IH|].
    rewrite includes_double_hyphen, IH, collapseHyphens_head.
    cbn [startsWithHyphen]. now rewrite Ed, andb_false_r.
  - rewrite includes_double_hyphen, IH.
    destruct (code c =? 45)%N; [discriminate|reflexivity].
Qed.

Lemma take_length n s : String.length (take n s) <= n.
Proof.
  revert s. induction n as [|n IH]; intros s; [destruct s; cbn; lia|].
  destruct s as [|c s]; cbn; [lia|]. specialize (IH s). lia.
Qed.

Lemma length_append a b : String.length (a +:+ b) = String.length a + String.length b.
Proof.
  induction a as [|c a IH]; [reflexivity|].
  change (String c a +:+ b) with (String c (a +:+ b)). cbn. now rewrite IH.
Qed.

(** X11. Whatever the tool arguments hold, what they contribute to a diff
    file name consists of letters, digits and single hyphens only, and is
    at most 21 characters longer than the ref; a path separator or a dot
    in the name can only come from the tool name. *)
Theorem diff_name_arguments_sanitized :
  forall (counter : nat) (toolName : string) (toolArgs : ToolArgs),
    let suffix := diffNameSuffix toolArgs in
    formatDiffName counter toolName toolArgs
    = padStart 3 "0" (ofNat counter) +:+ "-" +:+ replace toolName "browser_" ""
      +:+ (if truthy suffix then "-" +:+ suffix else "") +:+ ".diff"
    /\ allChars (fun c => isAlnum c || (code c =? 45)%N) suffix = true
    /\ includes suffix "--" = false
    /\ String.length suffix
       <= String.length (match arg_ref toolArgs with Some r => r | None => "" end) + 21.
Proof.
  intros counter toolName toolArgs suffix. split; [reflexivity|].
  unfold suffix, diffNameSuffix. cbv zeta. split; [|split].
  - apply collapseHyphens_safe, sanitizeChars_safe.
  - apply collapseHyphens_single.
  - etransitivity; [apply collapseHyphens_length|]. rewrite sanitizeChars_length.
    destruct (arg_ref toolArgs) as [r|]; destruct (arg_value toolArgs) as [v|];
      cbn [List.filter];
      repeat match goal with
             | |- context [truthy ?x] => destruct (truthy x)
             end;
      unfold join; cbn [String.concat String.length];
      rewrite ?length_append; cbn [String.length];
      try pose proof (take_length 20 v); unfold slice0 in *; lia.
Qed.

Example diff_name_traversal_neutralised :
  formatDiffName 3 "browser_type"
    {| arg_ref := Some "e14"; arg_value := Some "../../etc/passwd" |}
  = "003-type-e14-etc-passwd.diff".
Proof. vm_compute. reflexivity. Qed.

(** ** The session directory *)

(** The directories a trace creates and removes. *)
Fixpoint mkdirs (trace : list Event) : list string :=
  match trace with
  | [] => []
  | Mkdir d :: rest => d :: mkdirs rest
  | _ :: rest => mkdirs rest
  end.

(** The files a trace writes, with their contents. *)
Fixpoint fileWrites (trace : list Event) : list (string * string) :=
  match trace with
  | [] => []
  | WriteFile f c :: rest => (f, c) :: fileWrites rest
  | WriteDiff d :: rest => (path d, content d) :: fileWrites rest
  | _ :: rest => fileWrites rest
  end.

Lemma mkdirs_app t1 t2 : mkdirs (t1 ++ t2) = mkdirs t1 ++ mkdirs t2.
Proof.
  induction t1 as [|e t1 IH]; [reflexivity|].
  destruct e; cbn [app mkdirs]; rewrite IH; reflexivity.
Qed.

Lemma fileWrites_app t1 t2 : fileWrites (t1 ++ t2) = fileWrites t1 ++ fileWrites t2.
Proof.
  induction t1 as [|e t1 IH]; [reflexivity|].
  destruct e; cbn [app fileWrites]; rewrite IH; reflexivity.
Qed.

Lemma stitchNested_quiet frame refs st :
  mkdirs (snd (stitchNested frame refs st)) = mkdirs (snd st)
  /\ fileWrites (snd (stitchNested frame refs st)) = fileWrites (snd st).
Proof.
  revert st. induction refs as [|r refs IH]; intros st; [split; reflexivity|].
  cbn [stitchNested]. destruct (contentFrame (contentFrames frame) r); [|split; reflexivity].
  destruct (IH (replace (fst st) (iframeEmpty r)
                  (iframeStitched r (html (evaluate f))),
                snd st ++ [Evaluate (Some r)])) as [-> ->].
  cbn [snd]. rewrite mkdirs_app, fileWrites_app. cbn. now rewrite !app_nil_r.
Qed.

Lemma extractFullDom_quiet p :
  mkdirs (snd (extractFullDom p)) = [] /\ fileWrites (snd (extractFullDom p)) = [].
Proof.
  unfold extractFullDom. destruct (mainFrame p) as [frame|]; [|split; reflexivity].
  cbn [snd]. unfold stitchAll.
  generalize (iframeRefs (evaluate frame)). intros refs.
  assert (H : forall st, mkdirs (snd (fold_left (stitchFrame frame) refs st)) = mkdirs (snd st)
                         /\ fileWrites (snd (fold_left (stitchFrame frame) refs st))
                            = fileWrites (snd st)).
  { induction refs as [|r refs IH]; intros st; [split; reflexivity|].
    cbn [fold_left]. destruct (IH (stitchFrame frame st r)) as [-> ->].
    unfold stitchFrame. destruct (contentFrame (contentFrames frame) r); [|split; reflexivity].
    destruct (stitchNested_quiet f (iframeRefs (evaluate f))
                (replace (fst st) (iframeEmpty r) (iframeStitched r (html (evaluate f))),
                 snd st ++ [Evaluate (Some r)])) as [-> ->].
    cbn [snd]. rewrite mkdirs_app, fileWrites_app. cbn. now rewrite !app_nil_r. }
  apply H.
Qed.


Lemma ensureStateDir_cached L this e ctx :
  defined (_stateDir this) = true ->
  _ensureStateDir L this e ctx = (_stateDir this, this, []).
Proof. intros H. unfold _ensureStateDir. now rewrite H. Qed.

Lemma ensureStateDir_cases L this e ctx :
  (_stateDir (stateOf (_ensureStateDir L this e ctx)) = _stateDir this
   /\ mkdirs (traceOf (_ensureStateDir L this e ctx)) = [])
  \/ (defined (_stateDir this) = false
      /\ exists segments,
           _stateDir (stateOf (_ensureStateDir L this e ctx)) = Some (path_join L segments)
           /\ mkdirs (traceOf (_ensureStateDir L this e ctx))
              = [path_join L segments; path_join L [path_join L segments; "diffs"]]).
Proof.
  unfold _ensureStateDir.
  destruct (defined (_stateDir this)) eqn:Hd; [left; split; reflexivity|].
  destruct (defined _ && defined _).
  - destruct (PW_DOM_STATE_INSTANCE_ID e), (PW_DOM_STATE_WORKSPACE e);
      try (left; split; reflexivity).
    right. split; [reflexivity|]. eexists. split; reflexivity.
  - destruct (hasExplicitRoots ctx); [|left; split; reflexivity].
    right. split; [reflexivity|]. eexists. split; reflexivity.
Qed.

Lemma update_after_dir L this c :
  _stateDir (stateOf (update L this c))
  = _stateDir (stateOf (_ensureStateDir L this (env c) (context c)))
  /\ mkdirs (traceOf (update L this c))
     = mkdirs (traceOf (_ensureStateDir L this (env c) (context c))).
Proof.
  unfold update.
  destruct (_ensureStateDir L this (env c) (context c)) as [[dir this1] ev1].
  destruct dir as [dir|]; [|split; reflexivity].
  destruct (truthy dir); cbn [negb]; [|split; reflexivity].
  destruct (extractFullDom_quiet (page c)) as [Hm _].
  destruct (extractFullDom (page c)) as [[raw|] ev2]; cbn [snd] in Hm.
  - destruct (match _previousDom this1 with Some _ => _ | None => _ end) as [d|];
      [destruct (truthy d)|]; unfold stateOf, traceOf; cbn [fst snd _stateDir];
      rewrite ?mkdirs_app, ?Hm; cbn; rewrite ?app_nil_r; auto.
  - unfold stateOf, traceOf; cbn [fst snd]. rewrite mkdirs_app, Hm, app_nil_r. auto.
Qed.

Lemma update_stateDir L this c :
  (_stateDir (stateOf (update L this c)) = _stateDir this
   /\ mkdirs (traceOf (update L this c)) = [])
  \/ (defined (_stateDir this) = false
      /\ exists segments,
           _stateDir (stateOf (update L this c)) = Some (path_join L segments)
           /\ mkdirs (traceOf (update L this c))
              = [path_join L segments; path_join L [path_join L segments; "diffs"]]).
Proof.
  destruct (update_after_dir L this c) as [-> ->].
  apply ensureStateDir_cases.
Qed.

Lemma session_cons_state L this c calls :
  stateOf (session L this (c :: calls))
  = stateOf (session L (stateOf (update L this c)) calls).
Proof. now rewrite session_cons. Qed.

Lemma session_cons_trace L this c calls :
  traceOf (session L this (c :: calls))
  = traceOf (update L this c) ++ traceOf (session L (stateOf (update L this c)) calls).
Proof. now rewrite session_cons. Qed.

Lemma session_keeps_dir L calls : forall this,
  defined (_stateDir this) = true ->
  _stateDir (stateOf (session L this calls)) = _stateDir this
  /\ mkdirs (traceOf (session L this calls)) = [].
Proof.
  induction calls as [|c calls IH]; intros this Hd; [split; reflexivity|].
  rewrite session_cons_state, session_cons_trace, mkdirs_app.
  destruct (update_stateDir L this c) as [[Hs Hm]|[Hn _]]; [|congruence].
  assert (Hd' : defined (_stateDir (stateOf (update L this c))) = true) by now rewrite Hs.
  destruct (IH _ Hd') as [Hs' Hm'].
  rewrite Hm, Hm', Hs', Hs. split; reflexivity.
Qed.

(** X13. The directory is resolved at most once: as soon as a session has
    a directory, every later [update()] keeps it and creates no
    directory, whatever the environment variables and the roots say by
    then. *)
Theorem state_dir_resolved_once :
  forall (L : Libs) (calls : list Call) (this : DomState),
    defined (_stateDir this) = true ->
    _stateDir (stateOf (session L this calls)) = _stateDir this
    /\ mkdirs (traceOf (session L this calls)) = []
    /\ Forall (fun c => _stateDir (stateOf (update L this c)) = _stateDir this) calls.
Proof.
  intros L calls this Hd.
  destruct (session_keeps_dir L calls this Hd) as [Hs Hm].
  split; [exact Hs|]. split; [exact Hm|].
  apply List.Forall_forall. intros c _.
  destruct (update_stateDir L this c) as [[H _]|[Hn _]]; [exact H|congruence].
Qed.

Lemma state_dir_resolved_once_witness :
  let this := {| _previousDom := None; _diffCounter := 0;
                 _stateDir := Some "/work/.playwright-mcp/browser-state/inst-1" |} in
  _stateDir (stateOf (session sampleLibs this
                        [ sampleCall (pageWith "") emptyEnv;
                          sampleCall (pageWith "John")
                            {| PW_DOM_STATE_INSTANCE_ID := Some "inst-2";
                               PW_DOM_STATE_WORKSPACE := Some "/other" |} ]))
  = Some "/work/.playwright-mcp/browser-state/inst-1".
Proof.
  cbv zeta.
  apply (state_dir_resolved_once sampleLibs
           [ sampleCall (pageWith "") emptyEnv;
             sampleCall (pageWith "John")
               {| PW_DOM_STATE_INSTANCE_ID := Some "inst-2";
                  PW_DOM_STATE_WORKSPACE := Some "/other" |} ]
           {| _previousDom := None; _diffCounter := 0;
              _stateDir := Some "/work/.playwright-mcp/browser-state/inst-1" |}).
  reflexivity.
Defined.


(** Stand-ins that join like [path.join]: an empty result becomes [.]. *)
Definition dottedLibs : Libs := {|
  html_beautify := html_beautify sampleLibs;
  createPatch := createPatch sampleLibs;
  path_join := fun segments =>
    match join "/" segments with
    | EmptyString => "."
    | joined => joined
    end
|}.


Example directory_survives_lost_addressing :
  mkdirs (traceOf (session dottedLibs new_DomState
                     [ sampleCall (pageWith "") multiplexerEnv;
                       sampleCall (pageWith "John") emptyEnv ]))
  = [ "/work/.playwright-mcp/browser-state/inst-1";
      "/work/.playwright-mcp/browser-state/inst-1/diffs" ]
  /\ diffSequence (traceOf (session dottedLibs new_DomState
                              [ sampleCall (pageWith "") multiplexerEnv;
                                sampleCall (pageWith "John") emptyEnv ])) = [1].
Proof. vm_compute. split; reflexivity. Qed.

(** ** What one [update()] writes *)

Lemma ensureStateDir_result L this e ctx dir this1 ev1 :
  _ensureStateDir L this e ctx = (Some dir, this1, ev1) ->
  _stateDir this1 = Some dir
  /\ _previousDom this1 = _previousDom this
  /\ _diffCounter this1 = _diffCounter this
  /\ fileWrites ev1 = []
  /\ diffSequence ev1 = [].
Proof.
  unfold _ensureStateDir.
  destruct (defined (_stateDir this)).
  - intros [= <- <- <-]. repeat split; auto.
  - destruct (defined _ && defined _).
    + destruct (PW_DOM_STATE_INSTANCE_ID e), (PW_DOM_STATE_WORKSPACE e);
        try discriminate.
      intros [= <- <- <-]. repeat split.
    + destruct (hasExplicitRoots ctx); [|discriminate].
      intros [= <- <- <-]. repeat split.
Qed.

Lemma ensureStateDir_nofiles L this e ctx :
  fileWrites (traceOf (_ensureStateDir L this e ctx)) = [].
Proof.
  unfold _ensureStateDir.
  destruct (defined (_stateDir this)); [reflexivity|].
  destruct (defined _ && defined _).
  - destruct (PW_DOM_STATE_INSTANCE_ID e), (PW_DOM_STATE_WORKSPACE e); reflexivity.
  - destruct (hasExplicitRoots ctx); reflexivity.
Qed.

(** The state, result and trace of an [update()] that gets past the
    directory and the extraction. *)
Lemma update_result L this c dir this1 ev1 raw ev2 :
  _ensureStateDir L this (env c) (context c) = (Some dir, this1, ev1) ->
  truthy dir = true ->
  extractFullDom (page c) = (Some raw, ev2) ->
  update L this c
  = (Some {| domPath := path_join L [dir; "dom.html"];
             ariaPath := path_join L [dir; "accessibility-tree.yaml"];
             diffPath :=
               match diffStrOf L (_previousDom this) (prettyPrintHtml L raw) with
               | Some _ =>
                   Some (path_join L [dir; "diffs";
                                      formatDiffName (S (_diffCounter this))
                                        (toolName c) (toolArgs c)])
               | None => None
               end;
             diff := diffStrOf L (_previousDom this) (prettyPrintHtml L raw) |},
     {| _previousDom := Some (prettyPrintHtml L raw);
        _diffCounter :=
          match diffStrOf L (_previousDom this) (prettyPrintHtml L raw) with
          | Some _ => S (_diffCounter this)
          | None => _diffCounter this
          end;
        _stateDir := Some dir |},
     ev1 ++ ev2
     ++ [WriteFile (path_join L [dir; "dom.html"]) (prettyPrintHtml L raw);
         WriteFile (path_join L [dir; "accessibility-tree.yaml"]) (ariaSnapshot c)]
     ++ match diffStrOf L (_previousDom this) (prettyPrintHtml L raw) with
        | Some d =>
            [WriteDiff {| sequence := S (_diffCounter this);
                          path := path_join L [dir; "diffs";
                                               formatDiffName (S (_diffCounter this))
                                                 (toolName c) (toolArgs c)];
                          content := d |}]
        | None => []
        end).
Proof.
  intros He Hd Hx.
  destruct (ensureStateDir_result _ _ _ _ _ _ _ He) as (Hs & Hp & Hc & _).
  unfold update. rewrite He, Hd. cbn [negb]. rewrite Hx.
  fold (diffStrOf L (_previousDom this1) (prettyPrintHtml L raw)).
  rewrite Hp, Hc, Hs.
  destruct (diffStrOf L (_previousDom this) (prettyPrintHtml L raw)) as [d|] eqn:Ed.
  - rewrite (diffStrOf_defined _ _ _ _ Ed). reflexivity.
  - reflexivity.
Qed.

Lemma update_inv L this c r :
  resultOf (update L this c) = Some r ->
  exists dir this1 ev1 raw ev2,
    _ensureStateDir L this (env c) (context c) = (Some dir, this1, ev1)
    /\ truthy dir = true
    /\ extractFullDom (page c) = (Some raw, ev2).
Proof.
  unfold update.
  destruct (_ensureStateDir L this (env c) (context c)) as [[[dir|] this1] ev1];
    [|discriminate].
  destruct (truthy dir) eqn:Hd; cbn [negb]; [|discriminate].
  destruct (extractFullDom (page c)) as [[raw|] ev2]; [|discriminate].
  intros _. exists dir, this1, ev1, raw, ev2. auto.
Qed.

Lemma update_failure_nofiles L this c :
  resultOf (update L this c) = None -> fileWrites (traceOf (update L this c)) = [].
Proof.
  unfold update.
  pose proof (ensureStateDir_nofiles L this (env c) (context c)) as Hf.
  destruct (_ensureStateDir L this (env c) (context c)) as [[dir this1] ev1].
  unfold traceOf in Hf. cbn [snd] in Hf.
  destruct dir as [dir|]; [|intros _; exact Hf].
  destruct (truthy dir); cbn [negb]; [|intros _; exact Hf].
  destruct (extractFullDom_quiet (page c)) as [_ Hq].
  destruct (extractFullDom (page c)) as [[raw|] ev2]; cbn [snd] in Hq.
  - destruct (match _previousDom this1 with Some _ => _ | None => _ end) as [d|];
      [destruct (truthy d)|]; discriminate.
  - intros _. unfold traceOf. cbn [snd]. now rewrite fileWrites_app, Hf, Hq.
Qed.

(** X15. A successful [update()] writes, in this order, [dom.html] with
    exactly the text it keeps as [_previousDom], the accessibility tree,
    and the diff if there is one, all below the session directory and with
    the diff named after the new counter; a failed [update()] writes no
    file at all. *)
Theorem written_files_match_state :
  forall (L : Libs) (this : DomState) (c : Call),
    match resultOf (update L this c) with
    | Some r =>
        exists dir dom,
          _stateDir (stateOf (update L this c)) = Some dir
          /\ _previousDom (stateOf (update L this c)) = Some dom
          /\ domPath r = path_join L [dir; "dom.html"]
          /\ ariaPath r = path_join L [dir; "accessibility-tree.yaml"]
          /\ match diffPath r with
             | Some p =>
                 p = path_join L [dir; "diffs";
                                  formatDiffName (_diffCounter (stateOf (update L this c)))
                                    (toolName c) (toolArgs c)]
             | None => True
             end
          /\ fileWrites (traceOf (update L this c))
             = (domPath r, dom) :: (ariaPath r, ariaSnapshot c)
               :: match diffPath r, diff r with
                  | Some p, Some d => [(p, d)]
                  | _, _ => []
                  end
    | None => fileWrites (traceOf (update L this c)) = []
    end.
Proof.
  intros L this c.
  destruct (resultOf (update L this c)) as [r|] eqn:Er;
    [|now apply update_failure_nofiles].
  destruct (update_inv L this c r Er) as (dir & this1 & ev1 & raw & ev2 & He & Hd & Hx).
  destruct (ensureStateDir_result _ _ _ _ _ _ _ He) as (_ & _ & _ & Hf & _).
  destruct (extractFullDom_quiet (page c)) as [_ Hq]. rewrite Hx in Hq. cbn [snd] in Hq.
  rewrite (update_result L this c dir this1 ev1 raw ev2 He Hd Hx) in Er |- *.
  unfold resultOf in Er. cbn [fst] in Er. injection Er as <-.
  unfold stateOf, traceOf.
  cbn [fst snd _stateDir _previousDom _diffCounter domPath ariaPath diffPath diff].
  exists dir, (prettyPrintHtml L raw).
  rewrite !fileWrites_app, Hf, Hq.
  destruct (diffStrOf L (_previousDom this) (prettyPrintHtml L raw)) as [d|];
    repeat split; reflexivity.
Qed.


(** ** Diff files when the file system can reject *)

Lemma update_accepting L this c :
  FallibleFs.update L FallibleFs.accepting this c
  = (FallibleFs.Returned (resultOf (update L this c)),
     stateOf (update L this c), traceOf (update L this c)).
Proof.
  unfold FallibleFs.update, update, FallibleFs._ensureStateDir, _ensureStateDir,
    FallibleFs.accepting.
  cbn [negb].
  destruct (defined (_stateDir this)).
  - destruct (_stateDir this) as [dir|]; [|reflexivity].
    destruct (truthy dir); cbn [negb]; [|reflexivity].
    destruct (extractFullDom (page c)) as [[raw|] ev2]; [|reflexivity].
    destruct (_previousDom this) as [previous|]; [|reflexivity].
    cbv zeta. destruct (includes _ "@@"); [|reflexivity].
    destruct (truthy _); reflexivity.
  - destruct (if defined (PW_DOM_STATE_INSTANCE_ID (env c))
                 && defined (PW_DOM_STATE_WORKSPACE (env c))
              then _ else _) as [dir|]; [|reflexivity].
    destruct (truthy dir); cbn [negb]; [|reflexivity].
    destruct (extractFullDom (page c)) as [[raw|] ev2]; [|reflexivity].
    cbn [_previousDom _diffCounter _stateDir].
    destruct (_previousDom this) as [previous|]; [|reflexivity].
    cbv zeta. destruct (includes _ "@@"); [|reflexivity].
    destruct (truthy _); reflexivity.
Qed.

Lemma diffSequence_files trace :
  diffSequence trace = map sequence (FallibleFs.diffFiles trace).
Proof.
  induction trace as [|e trace IH]; [reflexivity|].
  destruct e; cbn [diffSequence FallibleFs.diffFiles map]; now rewrite IH.
Qed.

Lemma diffFiles_app t1 t2 :
  FallibleFs.diffFiles (t1 ++ t2) = FallibleFs.diffFiles t1 ++ FallibleFs.diffFiles t2.
Proof.
  induction t1 as [|e t1 IH]; [reflexivity|].
  destruct e; cbn [app FallibleFs.diffFiles]; now rewrite IH.
Qed.

Lemma extractFullDom_diffFiles p : FallibleFs.diffFiles (snd (extractFullDom p)) = [].
Proof.
  pose proof (extractFullDom_diffSequence p) as H. rewrite diffSequence_files in H.
  now apply map_eq_nil in H.
Qed.

Lemma ensureStateDir_fs L fs this e ctx :
  _previousDom (stateOf (FallibleFs._ensureStateDir L fs this e ctx)) = _previousDom this
  /\ _diffCounter (stateOf (FallibleFs._ensureStateDir L fs this e ctx)) = _diffCounter this
  /\ FallibleFs.diffFiles (traceOf (FallibleFs._ensureStateDir L fs this e ctx)) = []
  /\ (forall dir,
         resultOf (FallibleFs._ensureStateDir L fs this e ctx)
         = FallibleFs.Returned (Some dir) ->
         _stateDir (stateOf (FallibleFs._ensureStateDir L fs this e ctx)) = Some dir)
  /\ (forall dir, _stateDir this = Some dir -> truthy dir = true ->
                  FallibleFs._ensureStateDir L fs this e ctx
                  = (FallibleFs.Returned (Some dir), this, [])).
Proof.
  unfold FallibleFs._ensureStateDir.
  destruct (defined (_stateDir this)) eqn:Edef.
  - split; [reflexivity|]. split; [reflexivity|]. split; [reflexivity|]. split.
    + intros dir [= E]. exact E.
    + intros dir -> _. reflexivity.
  - assert (Hno : forall dir, _stateDir this = Some dir -> truthy dir = true -> False).
    { intros dir Hd Ht. rewrite Hd in Edef. cbn [defined] in Edef. congruence. }
    destruct (if defined (PW_DOM_STATE_INSTANCE_ID e) && defined (PW_DOM_STATE_WORKSPACE e)
              then _ else _) as [dir|].
    + destruct (fs (Mkdir dir)); cbn [negb];
        [destruct (fs (Mkdir _)); cbn [negb]|];
        (split; [reflexivity|]; split; [reflexivity|]; split; [reflexivity|]; split;
         [intros d E; try discriminate E; now injection E as <-
         |intros d Hd Ht; destruct (Hno d Hd Ht)]).
    + split; [reflexivity|]. split; [reflexivity|]. split; [reflexivity|]. split;
        [intros d [=]|intros d Hd Ht; destruct (Hno d Hd Ht)].
Qed.

(** The result, state and trace of an [update()] whose directory
    resolves, whose extraction succeeds and whose writes are carried
    out. *)
Lemma update_fs_result L fs this c dir this1 ev1 raw ev2 :
  FallibleFs._ensureStateDir L fs this (env c) (context c)
  = (FallibleFs.Returned (Some dir), this1, ev1) ->
  truthy dir = true ->
  extractFullDom (page c) = (Some raw, ev2) ->
  fs (WriteFile (path_join L [dir; "dom.html"]) (prettyPrintHtml L raw)) = true ->
  fs (WriteFile (path_join L [dir; "accessibility-tree.yaml"]) (ariaSnapshot c)) = true ->
  (forall d, fs (WriteDiff d) = true) ->
  FallibleFs.update L fs this c
  = (FallibleFs.Returned
       (Some {| domPath := path_join L [dir; "dom.html"];
                ariaPath := path_join L [dir; "accessibility-tree.yaml"];
                diffPath :=
                  match diffStrOf L (_previousDom this) (prettyPrintHtml L raw) with
                  | Some _ =>
                      Some (path_join L [dir; "diffs";
                                         formatDiffName (S (_diffCounter this))
                                           (toolName c) (toolArgs c)])
                  | None => None
                  end;
                diff := diffStrOf L (_previousDom this) (prettyPrintHtml L raw) |}),
     {| _previousDom := Some (prettyPrintHtml L raw);
        _diffCounter :=
          match diffStrOf L (_previousDom this) (prettyPrintHtml L raw) with
          | Some _ => S (_diffCounter this)
          | None => _diffCounter this
          end;
        _stateDir := Some dir |},
     ev1 ++ ev2
     ++ [WriteFile (path_join L [dir; "dom.html"]) (prettyPrintHtml L raw);
         WriteFile (path_join L [dir; "accessibility-tree.yaml"]) (ariaSnapshot c)]
     ++ match diffStrOf L (_previousDom this) (prettyPrintHtml L raw) with
        | Some d =>
            [WriteDiff {| sequence := S (_diffCounter this);
                          path := path_join L [dir; "diffs";
                                               formatDiffName (S (_diffCounter this))
                                                 (toolName c) (toolArgs c)];
                          content := d |}]
        | None => []
        end).
Proof.
  intros He Hd Hx Hdom Haria Hdiff.
  destruct (ensureStateDir_fs L fs this (env c) (context c)) as (Hp & Hc & _ & Hs & _).
  rewrite He in Hp, Hc, Hs. unfold stateOf, resultOf in Hp, Hc, Hs.
  cbn [fst snd] in Hp, Hc, Hs. specialize (Hs dir eq_refl).
  unfold FallibleFs.update. rewrite He, Hd. cbn [negb]. rewrite Hx, Hdom, Haria.
  cbn [negb]. fold (diffStrOf L (_previousDom this1) (prettyPrintHtml L raw)).
  rewrite Hp, Hc, Hs.
  destruct (diffStrOf L (_previousDom this) (prettyPrintHtml L raw)) as [d|] eqn:Ed.
  - rewrite (diffStrOf_defined _ _ _ _ Ed), Hdiff. reflexivity.
  - reflexivity.
Qed.

(** What any [update()] does to the diff files and to the counter: it
    writes none and keeps the counter; or it writes the one numbered after
    the counter; or the write of that one is rejected, after the counter
    was incremented. *)
Lemma update_fs_diff L fs this c :
  (FallibleFs.diffFiles (traceOf (FallibleFs.update L fs this c)) = []
   /\ _diffCounter (stateOf (FallibleFs.update L fs this c)) = _diffCounter this)
  \/ (exists dir previous raw,
         _stateDir (stateOf (FallibleFs.update L fs this c)) = Some dir
         /\ truthy dir = true
         /\ _previousDom this = Some previous
         /\ fst (extractFullDom (page c)) = Some raw
         /\ includes (createPatch L "dom.html" previous (prettyPrintHtml L raw)) "@@" = true
         /\ FallibleFs.diffFiles (traceOf (FallibleFs.update L fs this c))
            = [{| sequence := S (_diffCounter this);
                  path := path_join L [dir; "diffs";
                                       formatDiffName (S (_diffCounter this))
                                         (toolName c) (toolArgs c)];
                  content := createPatch L "dom.html" previous (prettyPrintHtml L raw) |}]
         /\ _diffCounter (stateOf (FallibleFs.update L fs this c)) = S (_diffCounter this)
         /\ _previousDom (stateOf (FallibleFs.update L fs this c))
            = Some (prettyPrintHtml L raw)
         /\ exists r, resultOf (FallibleFs.update L fs this c) = FallibleFs.Returned (Some r))
  \/ (exists d,
         fs (WriteDiff d) = false
         /\ FallibleFs.diffFiles (traceOf (FallibleFs.update L fs this c)) = []
         /\ _diffCounter (stateOf (FallibleFs.update L fs this c)) = S (_diffCounter this)
         /\ _previousDom (stateOf (FallibleFs.update L fs this c)) = _previousDom this
         /\ resultOf (FallibleFs.update L fs this c) = FallibleFs.Threw).
Proof.
  destruct (ensureStateDir_fs L fs this (env c) (context c)) as (Hp & Hc & Ht & Hs & _).
  unfold FallibleFs.update.
  destruct (FallibleFs._ensureStateDir L fs this (env c) (context c))
    as [[[[dir|]|] this1] ev1];
    unfold stateOf, traceOf, resultOf in *; cbn [fst snd] in *;
    [|left; split; auto..].
  specialize (Hs dir eq_refl).
  pose proof (extractFullDom_diffFiles (page c)) as Hx.
  destruct (truthy dir) eqn:Edir; cbn [negb fst snd]; [|left; split; auto].
  destruct (extractFullDom (page c)) as [[raw|] ev2] eqn:Ex; cbn [fst snd] in *;
    [|left; rewrite ?diffFiles_app, ?Ht, ?Hx; split; auto].
  destruct (fs (WriteFile (path_join L [dir; "dom.html"]) _)); cbn [negb fst snd];
    [|left; rewrite ?diffFiles_app, ?Ht, ?Hx; split; auto].
  destruct (fs (WriteFile (path_join L [dir; "accessibility-tree.yaml"]) _));
    cbn [negb fst snd];
    [|left; rewrite ?diffFiles_app, ?Ht, ?Hx; split; auto].
  rewrite Hp, Hc.
  destruct (_previousDom this) as [previous|]; cbn [fst snd];
    [|left; rewrite ?diffFiles_app, ?Ht, ?Hx; split; auto].
  cbv zeta.
  destruct (includes (createPatch L "dom.html" previous (prettyPrintHtml L raw)) "@@") eqn:Ei;
    cbn [fst snd];
    [|left; rewrite ?diffFiles_app, ?Ht, ?Hx; split; auto].
  rewrite (includes_truthy _ "@@" eq_refl Ei).
  match goal with |- context [fs (WriteDiff ?d)] => destruct (fs (WriteDiff d)) eqn:Ed end;
    cbn [negb fst snd].
  - right; left. exists dir, previous, raw.
    rewrite ?diffFiles_app, ?Ht, ?Hx. cbn [_stateDir _diffCounter _previousDom].
    repeat split; auto. eexists; reflexivity.
  - right; right. eexists. split; [exact Ed|].
    rewrite ?diffFiles_app, ?Ht, ?Hx. cbn [_stateDir _diffCounter _previousDom].
    repeat split; auto.
Qed.

Lemma update_fs_dir L fs this c dir :
  _stateDir this = Some dir -> truthy dir = true ->
  _stateDir (stateOf (FallibleFs.update L fs this c)) = Some dir.
Proof.
  intros Hd Ht.
  destruct (ensureStateDir_fs L fs this (env c) (context c)) as (_ & _ & _ & _ & He).
  unfold FallibleFs.update. rewrite (He dir Hd Ht), Ht. cbn [negb].
  destruct (extractFullDom (page c)) as [[raw|] ev2]; [|exact Hd].
  destruct (fs (WriteFile (path_join L [dir; "dom.html"]) _)); cbn [negb]; [|exact Hd].
  destruct (fs (WriteFile (path_join L [dir; "accessibility-tree.yaml"]) _));
    cbn [negb]; [|exact Hd].
  destruct (_previousDom this) as [previous|]; [|exact Hd].
  cbv zeta. destruct (includes _ "@@"); [|exact Hd].
  destruct (truthy (createPatch L "dom.html" previous (prettyPrintHtml L raw)));
    [|exact Hd].
  match goal with |- context [fs (WriteDiff ?d)] => destruct (fs (WriteDiff d)) end;
    exact Hd.
Qed.

Lemma session_fs_cons L this c fs calls :
  FallibleFs.session L this ((c, fs) :: calls) =
  (resultOf (FallibleFs.update L fs this c)
     :: resultOf (FallibleFs.session L (stateOf (FallibleFs.update L fs this c)) calls),
   stateOf (FallibleFs.session L (stateOf (FallibleFs.update L fs this c)) calls),
   traceOf (FallibleFs.update L fs this c)
     ++ traceOf (FallibleFs.session L (stateOf (FallibleFs.update L fs this c)) calls)).
Proof.
  cbn [FallibleFs.session]. destruct (FallibleFs.update L fs this c) as [[r this'] ev].
  unfold resultOf, stateOf, traceOf. cbn [fst snd].
  destruct (FallibleFs.session L this' calls) as [[rs this''] evs]. reflexivity.
Qed.

Lemma session_fs_dir L calls : forall this dir,
  _stateDir this = Some dir -> truthy dir = true ->
  _stateDir (stateOf (FallibleFs.session L this calls)) = Some dir.
Proof.
  induction calls as [|[c fs] calls IH]; intros this dir Hd Ht; [exact Hd|].
  rewrite session_fs_cons. unfold stateOf at 1. cbn [fst snd].
  apply IH; [|exact Ht]. now apply update_fs_dir.
Qed.

Lemma session_fs_diffs L calls : forall this,
  (forall c fs d, In (c, fs) calls -> fs (WriteDiff d) = true) ->
  map sequence (FallibleFs.diffFiles (traceOf (FallibleFs.session L this calls)))
  = seq (S (_diffCounter this))
        (length (FallibleFs.diffFiles (traceOf (FallibleFs.session L this calls))))
  /\ _diffCounter (stateOf (FallibleFs.session L this calls))
     = _diffCounter this
       + length (FallibleFs.diffFiles (traceOf (FallibleFs.session L this calls)))
  /\ Forall (fun d =>
               exists c fs dir,
                 In (c, fs) calls
                 /\ _stateDir (stateOf (FallibleFs.session L this calls)) = Some dir
                 /\ path d = path_join L [dir; "diffs";
                                          formatDiffName (sequence d) (toolName c) (toolArgs c)])
            (FallibleFs.diffFiles (traceOf (FallibleFs.session L this calls))).
Proof.
  induction calls as [|[c fs] calls IH]; intros this Hfs.
  - cbn. split; [reflexivity|]. split; [lia|constructor].
  - rewrite session_fs_cons.
    assert (Hrest : forall c' fs' d, In (c', fs') calls -> fs' (WriteDiff d) = true)
      by (intros c' fs' d Hin; apply (Hfs c' fs' d); now right).
    destruct (IH (stateOf (FallibleFs.update L fs this c)) Hrest) as (Hseq & Hcount & Hnames).
    set (this1 := stateOf (FallibleFs.update L fs this c)) in *.
    set (rest := FallibleFs.session L this1 calls) in *.
    change (stateOf (?r, stateOf rest, ?t)) with (stateOf rest).
    change (traceOf (?r, ?s, ?t)) with t.
    rewrite diffFiles_app.
    assert (Hnames' : Forall (fun d =>
                         exists c0 fs0 dir,
                           In (c0, fs0) ((c, fs) :: calls)
                           /\ _stateDir (stateOf rest) = Some dir
                           /\ path d = path_join L [dir; "diffs";
                                                    formatDiffName (sequence d)
                                                      (toolName c0) (toolArgs c0)])
                      (FallibleFs.diffFiles (traceOf rest))).
    { eapply List.Forall_impl; [|exact Hnames].
      intros d (c0 & fs0 & dir & Hin & Hdir & Hpath).
      exists c0, fs0, dir. split; [now right|]. now split. }
    destruct (update_fs_diff L fs this c)
      as [(Hnone & Hc)|[(dir & previous & raw & Hdir & Htruthy & _ & _ & _ & Hone & Hc & _)
                       |(d & Hrej & _)]].
    + rewrite Hnone. cbn [app]. fold this1 in Hc. rewrite Hc in Hseq, Hcount.
      split; [exact Hseq|]. split; [exact Hcount|exact Hnames'].
    + rewrite Hone. cbn [app map length seq]. fold this1 in Hc, Hdir.
      rewrite Hc in Hseq, Hcount. rewrite Hseq.
      split; [reflexivity|]. split; [rewrite Hcount; lia|].
      constructor; [|exact Hnames'].
      exists c, fs, dir. split; [now left|]. split; [|reflexivity].
      unfold rest. now apply session_fs_dir.
    + rewrite (Hfs c fs d (or_introl eq_refl)) in Hrej. discriminate.
Qed.

(** The previous text, when there is one and [dom] differs from it. *)
Definition changedFrom (previousDom : option string) (dom : string) : option string :=
  match previousDom with
  | Some previous => if String.eqb previous dom then None else Some previous
  | None => None
  end.

Lemma diffStrOf_changedFrom L previousDom dom :
  (forall t, includes (createPatch L "dom.html" t t) "@@" = false) ->
  (forall old new, old <> new ->
                   includes (createPatch L "dom.html" old new) "@@" = true) ->
  diffStrOf L previousDom dom
  = match changedFrom previousDom dom with
    | Some previous => Some (createPatch L "dom.html" previous dom)
    | None => None
    end.
Proof.
  intros Hsame Hdiff. unfold diffStrOf, changedFrom.
  destruct previousDom as [previous|]; [|reflexivity]. cbv zeta.
  destruct (String.eqb_spec previous dom) as [->|Hne].
  - now rewrite Hsame.
  - now rewrite (Hdiff _ _ Hne).
Qed.

Lemma formatDiffName_number counter toolName toolArgs :
  startsWith (formatDiffName counter toolName toolArgs)
             (padStart 3 "0" (ofNat counter) +:+ "-") = true
  /\ decimalValue (leadingDigits (formatDiffName counter toolName toolArgs)) = counter.
Proof.
  unfold formatDiffName. cbv zeta. split.
  - unfold startsWith.
    match goal with
    | |- String.prefix (?n +:+ "-") (?n +:+ "-" +:+ ?rest) = true =>
        rewrite <- (append_assoc n "-" rest); apply prefix_self
    end.
  - rewrite leadingDigits_hyphen by apply padStart_digits.
    apply decimalValue_padStart.
Qed.

(** C3 (amended). Provided [createPatch] emits a hunk header exactly when
    the two texts differ. An [update()] whose directory resolves, whose
    extraction succeeds and whose writes the file system carries out
    writes [dom.html] and the accessibility tree, and writes a diff file
    exactly when a previous text exists and the new formatted text differs
    from it: the file [diffs/<name>] whose name [formatDiffName] builds
    from the counter plus one, which becomes the counter. Whatever the
    file system does, a diff file is only ever written for a text that
    differs from the previous one, and never while no previous text
    exists. The name starts with the number, padded to three digits, and a
    hyphen. Over a session in which no write of a diff file is rejected,
    the diff files written carry, in order, the numbers 1, 2, ... without
    a gap, up to the final counter, each under the directory of the
    session and under the name built from its number. *)
Theorem diff_sequencing :
  forall L : Libs,
    (forall t, includes (createPatch L "dom.html" t t) "@@" = false) ->
    (forall old new, old <> new ->
                     includes (createPatch L "dom.html" old new) "@@" = true) ->
    (forall fs this c dir this1 ev1 raw ev2,
        FallibleFs._ensureStateDir L fs this (env c) (context c)
        = (FallibleFs.Returned (Some dir), this1, ev1) ->
        truthy dir = true ->
        extractFullDom (page c) = (Some raw, ev2) ->
        fs (WriteFile (path_join L [dir; "dom.html"]) (prettyPrintHtml L raw)) = true ->
        fs (WriteFile (path_join L [dir; "accessibility-tree.yaml"]) (ariaSnapshot c))
        = true ->
        (forall d, fs (WriteDiff d) = true) ->
        FallibleFs.update L fs this c
        = match changedFrom (_previousDom this) (prettyPrintHtml L raw) with
          | Some previous =>
              (FallibleFs.Returned
                 (Some {| domPath := path_join L [dir; "dom.html"];
                          ariaPath := path_join L [dir; "accessibility-tree.yaml"];
                          diffPath :=
                            Some (path_join L [dir; "diffs";
                                               formatDiffName (S (_diffCounter this))
                                                 (toolName c) (toolArgs c)]);
                          diff := Some (createPatch L "dom.html" previous
                                          (prettyPrintHtml L raw)) |}),
               {| _previousDom := Some (prettyPrintHtml L raw);
                  _diffCounter := S (_diffCounter this);
                  _stateDir := Some dir |},
               ev1 ++ ev2
               ++ [WriteFile (path_join L [dir; "dom.html"]) (prettyPrintHtml L raw);
                   WriteFile (path_join L [dir; "accessibility-tree.yaml"])
                             (ariaSnapshot c)]
               ++ [WriteDiff
                     {| sequence := S (_diffCounter this);
                        path := path_join L [dir; "diffs";
                                             formatDiffName (S (_diffCounter this))
                                               (toolName c) (toolArgs c)];
                        content := createPatch L "dom.html" previous
                                     (prettyPrintHtml L raw) |}])
          | None =>
              (FallibleFs.Returned
                 (Some {| domPath := path_join L [dir; "dom.html"];
                          ariaPath := path_join L [dir; "accessibility-tree.yaml"];
                          diffPath := None;
                          diff := None |}),
               {| _previousDom := Some (prettyPrintHtml L raw);
                  _diffCounter := _diffCounter this;
                  _stateDir := Some dir |},
               ev1 ++ ev2
               ++ [WriteFile (path_join L [dir; "dom.html"]) (prettyPrintHtml L raw);
                   WriteFile (path_join L [dir; "accessibility-tree.yaml"])
                             (ariaSnapshot c)])
          end)
    /\ (forall fs this c d,
           In d (FallibleFs.diffFiles (traceOf (FallibleFs.update L fs this c))) ->
           exists dir previous raw,
             _previousDom this = Some previous
             /\ fst (extractFullDom (page c)) = Some raw
             /\ previous <> prettyPrintHtml L raw
             /\ d = {| sequence := S (_diffCounter this);
                       path := path_join L [dir; "diffs";
                                            formatDiffName (S (_diffCounter this))
                                              (toolName c) (toolArgs c)];
                       content := createPatch L "dom.html" previous
                                    (prettyPrintHtml L raw) |}
             /\ FallibleFs.diffFiles (traceOf (FallibleFs.update L fs this c)) = [d])
    /\ (forall fs this c,
           _previousDom this = None ->
           FallibleFs.diffFiles (traceOf (FallibleFs.update L fs this c)) = [])
    /\ (forall counter toolName toolArgs,
           startsWith (formatDiffName counter toolName toolArgs)
                      (padStart 3 "0" (ofNat counter) +:+ "-") = true
           /\ decimalValue (leadingDigits (formatDiffName counter toolName toolArgs))
              = counter)
    /\ (forall calls : list (Call * FallibleFs.FileSystem),
           (forall c fs d, In (c, fs) calls -> fs (WriteDiff d) = true) ->
           map sequence
               (FallibleFs.diffFiles (traceOf (FallibleFs.session L new_DomState calls)))
           = seq 1 (_diffCounter (stateOf (FallibleFs.session L new_DomState calls)))
           /\ length (FallibleFs.diffFiles
                        (traceOf (FallibleFs.session L new_DomState calls)))
              = _diffCounter (stateOf (FallibleFs.session L new_DomState calls))
           /\ Forall (fun d =>
                        exists c fs dir,
                          In (c, fs) calls
                          /\ _stateDir (stateOf (FallibleFs.session L new_DomState calls))
                             = Some dir
                          /\ path d
                             = path_join L [dir; "diffs";
                                            formatDiffName (sequence d)
                                              (toolName c) (toolArgs c)])
                     (FallibleFs.diffFiles
                        (traceOf (FallibleFs.session L new_DomState calls)))).
Proof.
  intros L Hsame Hdiff. split; [|split; [|split; [|split]]].
  - intros fs this c dir this1 ev1 raw ev2 He Hd Hx Hdom Haria Hfs.
    rewrite (update_fs_result L fs this c dir this1 ev1 raw ev2 He Hd Hx Hdom Haria Hfs).
    rewrite (diffStrOf_changedFrom L _ _ Hsame Hdiff).
    destruct (changedFrom (_previousDom this) (prettyPrintHtml L raw)); reflexivity.
  - intros fs this c d Hin.
    destruct (update_fs_diff L fs this c)
      as [(Hnone & _)|[(dir & previous & raw & _ & _ & Hp & Hraw & Hi & Hone & _)
                      |(d' & _ & Hnone & _)]];
      [rewrite Hnone in Hin; destruct Hin| |rewrite Hnone in Hin; destruct Hin].
    rewrite Hone in Hin. destruct Hin as [<-|[]].
    exists dir, previous, raw. split; [exact Hp|]. split; [exact Hraw|].
    split; [|split; [reflexivity|exact Hone]].
    intros E. rewrite E, Hsame in Hi. discriminate.
  - intros fs this c Hnone.
    destruct (update_fs_diff L fs this c)
      as [(H & _)|[(dir & previous & raw & _ & _ & Hp & _)|(d' & _ & H & _)]];
      [exact H| |exact H].
    rewrite Hnone in Hp. discriminate.
  - apply formatDiffName_number.
  - intros calls Hfs.
    destruct (session_fs_diffs L calls new_DomState Hfs) as (Hseq & Hcount & Hnames).
    cbn [_diffCounter new_DomState] in Hseq, Hcount. cbn [Nat.add] in Hcount.
    rewrite Hcount. split; [exact Hseq|]. split; [reflexivity|exact Hnames].
Qed.

(** A file system that rejects the write of the diff file numbered 2. *)
Definition rejectsSecondDiff : FallibleFs.FileSystem :=
  fun e => match e with
           | WriteDiff d => negb (sequence d =? 2)%nat
           | _ => true
           end.

Definition fourCaptures : list (Call * FallibleFs.FileSystem) :=
  [ (sampleCall (pageWith "") multiplexerEnv, FallibleFs.accepting);
    (sampleCall (pageWith "John") multiplexerEnv, FallibleFs.accepting);
    (sampleCall (pageWith "John") multiplexerEnv, FallibleFs.accepting);
    (sampleCall (pageWith "John Doe") multiplexerEnv, FallibleFs.accepting) ].

Example fourCaptures_files :
  map path (FallibleFs.diffFiles
              (traceOf (FallibleFs.session sampleLibs new_DomState fourCaptures)))
  = [ "/work/.playwright-mcp/browser-state/inst-1/diffs/001-type-e14-John.diff";
      "/work/.playwright-mcp/browser-state/inst-1/diffs/002-type-e14-John.diff" ].
Proof. vm_compute. reflexivity. Qed.

Lemma diff_sequencing_witness :
  map sequence
      (FallibleFs.diffFiles
         (traceOf (FallibleFs.session sampleLibs new_DomState fourCaptures)))
  = seq 1 (_diffCounter
             (stateOf (FallibleFs.session sampleLibs new_DomState fourCaptures)))
  /\ FallibleFs.diffFiles
       (traceOf (FallibleFs.update sampleLibs FallibleFs.accepting new_DomState
                   (sampleCall (pageWith "") multiplexerEnv)))
     = [].
Proof.
  destruct (diff_sequencing sampleLibs sampleLibs_same sampleLibs_differ)
    as (_ & _ & Hfirst & _ & Hsession).
  split.
  - apply Hsession. intros c fs d Hin.
    destruct Hin as [E|[E|[E|[E|[]]]]]; injection E as <- <-; reflexivity.
  - apply Hfirst. reflexivity.
Defined.

(** C3 as stated fails: the counter is incremented before the diff file
    is written, and a rejected write is not handled. When the write of the
    diff numbered 2 is rejected, that [update()] throws; the updates that
    succeed have then written the diff files numbered 1 and 3. *)
Lemma diff_sequencing_counterexample :
  let calls :=
    [ (sampleCall (pageWith "") multiplexerEnv, FallibleFs.accepting);
      (sampleCall (pageWith "John") multiplexerEnv, FallibleFs.accepting);
      (sampleCall (pageWith "John Doe") multiplexerEnv, rejectsSecondDiff);
      (sampleCall (pageWith "John Doe") multiplexerEnv, FallibleFs.accepting) ] in
  let run := FallibleFs.session sampleLibs new_DomState calls in
  map (fun r => match r with
                | FallibleFs.Returned (Some r) => Some (diffPath r)
                | _ => None
                end) (resultOf run)
  = [ Some None;
      Some (Some "/work/.playwright-mcp/browser-state/inst-1/diffs/001-type-e14-John.diff");
      None;
      Some (Some "/work/.playwright-mcp/browser-state/inst-1/diffs/003-type-e14-John.diff") ]
  /\ nth_error (resultOf run) 2 = Some FallibleFs.Threw
  /\ map path (FallibleFs.diffFiles (traceOf run))
     = [ "/work/.playwright-mcp/browser-state/inst-1/diffs/001-type-e14-John.diff";
         "/work/.playwright-mcp/browser-state/inst-1/diffs/003-type-e14-John.diff" ]
  /\ map sequence (FallibleFs.diffFiles (traceOf run)) = [1; 3]
  /\ map sequence (FallibleFs.diffFiles (traceOf run))
     <> seq 1 (length (FallibleFs.diffFiles (traceOf run))).
Proof.
  cbv zeta. split; [vm_compute; reflexivity|]. split; [vm_compute; reflexivity|].
  split; [vm_compute; reflexivity|]. split; [vm_compute; reflexivity|].
  vm_compute. discriminate.
Qed.

(** * Properties of the multiplexer *)

(** ** The instance registry *)

Import JSMap.
Import InstanceManager(Status, starting, ready, closed, Host, Launch, copyProfileError, createLaunchConfigError,
  connectError, now, Error, MaximumReached, HostError, FailedToCreate, NotFound, NotReady,
  instances, profileDirs, configFiles, nextId, config, workspaceRoot,
  with_instances, with_profileDirs, with_configFiles, with_nextId,
  new_InstanceManager, setWorkspaceRoot, copyProfile, createLaunchConfig, buildArgs,
  cleanupProfile, childEnv, create, get, getOrThrow, close, closeAll, getConfig,
  process_env).

Section MapFacts.
Context {V : Type}.
Implicit Types (m : Map V) (k : string) (v : V).

Lemma Map_get_None m k : Map_get m k = None <-> ~ In k (Map_keys m).
Proof.
  induction m as [|[k' v'] m IH]; cbn [Map_get Map_keys map fst In]; [tauto|].
  destruct (String.eqb_spec k' k) as [->|Hne].
  - split; [discriminate|]. intros H. exfalso. apply H. now left.
  - fold (Map_keys m). rewrite IH. tauto.
Qed.

Lemma Map_get_In m k v : Map_get m k = Some v -> In (k, v) m.
Proof.
  induction m as [|[k' v'] m IH]; cbn [Map_get]; [discriminate|].
  destruct (String.eqb_spec k' k) as [->|Hne].
  - intros [= ->]. now left.
  - intros H. right. auto.
Qed.

Lemma Map_In_get m k v : List.NoDup (Map_keys m) -> In (k, v) m -> Map_get m k = Some v.
Proof.
  induction m as [|[k' v'] m IH]; cbn [Map_get Map_keys map fst]; [intros _ []|].
  intros Hnd [[= -> ->]|Hin].
  - now rewrite String.eqb_refl.
  - inversion Hnd as [|? ? Hk Hnd']; subst.
    destruct (String.eqb_spec k' k) as [E|Hne]; [|now apply IH].
    exfalso. apply Hk. apply (in_map fst) in Hin. cbn [fst] in Hin. now rewrite E.
Qed.

Lemma Map_set_fresh m k v : Map_get m k = None -> Map_set m k v = m ++ [(k, v)].
Proof.
  induction m as [|[k' v'] m IH]; cbn [Map_get Map_set app]; [reflexivity|].
  destruct (String.eqb k' k); [discriminate|]. intros H. now rewrite IH.
Qed.

Lemma Map_set_last m k v v' : Map_get m k = None -> Map_set (m ++ [(k, v)]) k v' = m ++ [(k, v')].
Proof.
  induction m as [|[k' w] m IH]; cbn [Map_get Map_set app].
  - now rewrite String.eqb_refl.
  - destruct (String.eqb k' k); [discriminate|]. intros H. now rewrite IH.
Qed.

Lemma Map_delete_last m k v : Map_get m k = None -> Map_delete (m ++ [(k, v)]) k = m.
Proof.
  induction m as [|[k' w] m IH]; cbn [Map_get Map_delete app].
  - now rewrite String.eqb_refl.
  - destruct (String.eqb k' k); [discriminate|]. intros H. now rewrite IH.
Qed.

Lemma Map_delete_filter m k :
  List.NoDup (Map_keys m) ->
  Map_delete m k = List.filter (fun e => negb (String.eqb (fst e) k)) m.
Proof.
  induction m as [|[k' w] m IH]; cbn [Map_delete Map_keys map fst List.filter]; [reflexivity|].
  intros Hnd. inversion Hnd as [|? ? Hk Hnd']; subst.
  destruct (String.eqb_spec k' k) as [->|Hne]; cbn [negb].
  - symmetry. apply forallb_filter_id. apply forallb_forall. intros [k'' w'] Hin.
    cbn [fst]. destruct (String.eqb_spec k'' k) as [E|]; [|reflexivity].
    exfalso. apply Hk. apply (in_map fst) in Hin. cbn [fst] in Hin. now rewrite <- E.
  - now rewrite (IH Hnd').
Qed.

Lemma Map_keys_app m m' : Map_keys (m ++ m') = Map_keys m ++ Map_keys m'.
Proof. apply map_app. Qed.

Lemma Map_keys_delete m k k' : In k' (Map_keys (Map_delete m k)) -> In k' (Map_keys m).
Proof.
  induction m as [|[k'' w] m IH]; cbn [Map_delete Map_keys map fst]; [auto|].
  destruct (String.eqb k'' k); cbn [map fst In]; [auto|].
  intros [H|H]; [now left|right; now apply IH].
Qed.

Lemma Map_delete_NoDup m k : List.NoDup (Map_keys m) -> List.NoDup (Map_keys (Map_delete m k)).
Proof.
  induction m as [|[k'' w] m IH]; cbn [Map_delete Map_keys map fst]; [auto|].
  intros Hnd. inversion Hnd as [|? ? Hk Hnd']; subst.
  destruct (String.eqb k'' k); [exact Hnd'|].
  cbn [map fst]. constructor; [|now apply IH].
  intros H. apply Hk. now apply (Map_keys_delete m k).
Qed.

Lemma Map_delete_In m k e : In e (Map_delete m k) -> In e m.
Proof.
  induction m as [|[k'' w] m IH]; cbn [Map_delete]; [auto|].
  destruct (String.eqb k'' k); cbn [In]; [auto|].
  intros [H|H]; [now left|right; now apply IH].
Qed.

Lemma Map_delete_size m k : Map_size (Map_delete m k) <= Map_size m.
Proof.
  unfold Map_size. induction m as [|[k'' w] m IH]; cbn [Map_delete length]; [lia|].
  destruct (String.eqb k'' k); cbn [length]; lia.
Qed.

Lemma Map_delete_get m k :
  List.NoDup (Map_keys m) -> Map_get (Map_delete m k) k = None.
Proof.
  intros Hnd. apply Map_get_None. rewrite (Map_delete_filter m k Hnd).
  unfold Map_keys. intros H. apply in_map_iff in H as ([k' w] & <- & Hin).
  apply filter_In in Hin as [_ Hin]. cbn [fst] in *.
  now rewrite String.eqb_refl in Hin.
Qed.

Lemma Map_delete_get_other m k k' :
  k' <> k -> Map_get (Map_delete m k) k' = Map_get m k'.
Proof.
  intros Hne. induction m as [|[k'' w] m IH]; cbn [Map_delete Map_get]; [reflexivity|].
  destruct (String.eqb_spec k'' k) as [->|Hk].
  - destruct (String.eqb_spec k k'); [congruence|reflexivity].
  - cbn [Map_get]. now rewrite IH.
Qed.
End MapFacts.

(** The id [create] makes from the counter. *)
Definition instanceId (n : nat) : string := "inst-" +:+ ofNat n.

Lemma append_inj_l a b c : a +:+ b = a +:+ c -> b = c.
Proof.
  induction a as [|x a IH]; [auto|].
  change (String x a +:+ b) with (String x (a +:+ b)).
  change (String x a +:+ c) with (String x (a +:+ c)).
  intros [= E]. auto.
Qed.

Lemma instanceId_inj n m : instanceId n = instanceId m -> n = m.
Proof.
  unfold instanceId. intros E. apply append_inj_l in E.
  rewrite <- (decimalValue_ofNat n), <- (decimalValue_ofNat m). now rewrite E.
Qed.


(** *** Frames: what the helpers of [create] leave alone *)

Definition sameRegistry (this this' : InstanceManager.InstanceManager) : Prop :=
  instances this' = instances this
  /\ nextId this' = nextId this
  /\ config this' = config this
  /\ workspaceRoot this' = workspaceRoot this.

Lemma sameRegistry_refl this : sameRegistry this this.
Proof. now repeat split. Qed.

Lemma copyProfile_frame H this id sourceDir browser w :
  sameRegistry this (snd (copyProfile H this id sourceDir browser w)).
Proof.
  unfold copyProfile. destruct (copyProfileError w); now repeat split.
Qed.

Lemma createLaunchConfig_frame H this id headless browser w :
  sameRegistry this (snd (createLaunchConfig H this id headless browser w)).
Proof.
  unfold createLaunchConfig. destruct (createLaunchConfigError w); now repeat split.
Qed.

Lemma buildArgs_frame H this id instanceConfig w :
  sameRegistry this (snd (buildArgs H this id instanceConfig w)).
Proof.
  unfold buildArgs.
  destruct (InstanceManager.coalesce _ _); [apply sameRegistry_refl|].
  destruct (truthy (InstanceManager.orElse _ _)); [apply sameRegistry_refl|].
  cbv zeta.
  set (headless := InstanceManager.coalesce (InstanceManager.InstanceConfig.headless instanceConfig) _).
  set (browser := InstanceManager.coalesce (InstanceManager.InstanceConfig.browser instanceConfig) _).
  set (sourceDir := InstanceManager.orElse (InstanceManager.InstanceConfig.userDataDir instanceConfig) _).
  destruct (truthy sourceDir).
  - pose proof (copyProfile_frame H this id sourceDir browser w) as Hc.
    destruct (copyProfile H this id sourceDir browser w) as [[e|profileRoot] this1];
      cbn [snd] in Hc; [exact Hc|].
    pose proof (createLaunchConfig_frame H this1 id headless browser w) as Hl.
    destruct (createLaunchConfig H this1 id headless browser w) as [[e|configPath] this2];
      cbn [snd] in Hl |- *;
      destruct Hc as (? & ? & ? & ?), Hl as (? & ? & ? & ?);
      repeat split; congruence.
  - pose proof (createLaunchConfig_frame H this id headless browser w) as Hl.
    destruct (createLaunchConfig H this id headless browser w) as [[e|configPath] this2];
      cbn [snd] in Hl |- *; exact Hl.
Qed.

Lemma buildArgs_error H this id instanceConfig w e :
  fst (buildArgs H this id instanceConfig w) = inl e -> exists message, e = HostError message.
Proof.
  unfold buildArgs.
  destruct (InstanceManager.coalesce _ _); [discriminate|].
  destruct (truthy (InstanceManager.orElse _ _)); [discriminate|].
  cbv zeta.
  set (headless := InstanceManager.coalesce (InstanceManager.InstanceConfig.headless instanceConfig) _).
  set (browser := InstanceManager.coalesce (InstanceManager.InstanceConfig.browser instanceConfig) _).
  set (sourceDir := InstanceManager.orElse (InstanceManager.InstanceConfig.userDataDir instanceConfig) _).
  assert (Hl : forall this1 e1 this2,
             createLaunchConfig H this1 id headless browser w = (inl e1, this2) ->
             exists message, e1 = HostError message).
  { intros this1 e1 this2. unfold createLaunchConfig.
    destruct (createLaunchConfigError w); intros [= <- _]; eauto. }
  destruct (truthy sourceDir).
  - unfold copyProfile. destruct (copyProfileError w) as [message|].
    + intros [= <-]. eauto.
    + match goal with
      | |- context [createLaunchConfig H ?t id headless browser w] =>
          destruct (createLaunchConfig H t id headless browser w) as [[e1|configPath] this2]
            eqn:El
      end; [|discriminate].
      intros [= <-]. eapply Hl, El.
  - destruct (createLaunchConfig H this id headless browser w) as [[e1|configPath] this2]
      eqn:El; [|discriminate].
    intros [= <-]. eapply Hl, El.
Qed.

Lemma cleanupProfile_frame this id : sameRegistry this (cleanupProfile this id).
Proof.
  unfold cleanupProfile.
  destruct (Map_get (profileDirs this) id) as [profileDir|];
    [destruct (truthy profileDir)|];
    match goal with
    | |- context [Map_get (configFiles ?t) id] =>
        destruct (Map_get (configFiles t) id) as [configFile|];
        [destruct (truthy configFile)|]
    end; now repeat split.
Qed.

(** *** The registry invariant *)

(** A registry of [size] instances respects the limit [n]: a finite limit
    admits as many instances as the least integer not below it, and none
    when it is negative; [NaN] and [+Infinity] are no limit. *)
Definition withinCapacity (size : nat) (n : InstanceManager.Number) : Prop :=
  match InstanceManager.numberValue n with
  | InstanceManager.Finite q => (Z.of_nat size <= Z.max 0 (Qceiling q))%Z
  | InstanceManager.MinusInfinity => size = 0
  | InstanceManager.PlusInfinity | InstanceManager.NotANumber => True
  end.

Record Consistent (this : InstanceManager.InstanceManager) : Prop := {
  keys_assigned :
    Forall (fun k => exists n, k = instanceId n /\ n < nextId this)
           (Map_keys (instances this));
  keys_unique : List.NoDup (Map_keys (instances this));
  entries_ready :
    Forall (fun e => InstanceManager.ManagedInstance.id (snd e) = fst e
                     /\ InstanceManager.ManagedInstance.status (snd e) = ready)
           (instances this);
  size_bounded :
    withinCapacity (Map_size (instances this))
                   (InstanceManager.RequiredConfig.maxInstances (config this))
}.

Lemma Consistent_fresh this :
  Consistent this -> Map_get (instances this) (instanceId (nextId this)) = None.
Proof.
  intros [Hk _ _ _]. apply Map_get_None. intros Hin.
  rewrite List.Forall_forall in Hk. destruct (Hk _ Hin) as (n & E & Hlt).
  apply instanceId_inj in E. lia.
Qed.

(** What [create] does to the registry. *)
Lemma create_registry H this instanceConfig w :
  Map_get (instances this) (instanceId (nextId this)) = None ->
  config (snd (create H this instanceConfig w)) = config this
  /\ workspaceRoot (snd (create H this instanceConfig w)) = workspaceRoot this
  /\ match fst (create H this instanceConfig w) with
     | inr instance =>
         instances (snd (create H this instanceConfig w))
         = instances this ++ [(instanceId (nextId this), instance)]
         /\ InstanceManager.ManagedInstance.id instance = instanceId (nextId this)
         /\ InstanceManager.ManagedInstance.status instance = ready
         /\ InstanceManager.ManagedInstance.config instance = instanceConfig
         /\ nextId (snd (create H this instanceConfig w)) = S (nextId this)
         /\ InstanceManager.atLeast (Map_size (instances this))
              (InstanceManager.RequiredConfig.maxInstances (config this)) = false
     | inl (MaximumReached n) =>
         snd (create H this instanceConfig w) = this
         /\ n = InstanceManager.RequiredConfig.maxInstances (config this)
         /\ InstanceManager.atLeast (Map_size (instances this))
              (InstanceManager.RequiredConfig.maxInstances (config this)) = true
     | inl (FailedToCreate id _) =>
         instances (snd (create H this instanceConfig w)) = instances this
         /\ id = instanceId (nextId this)
         /\ nextId (snd (create H this instanceConfig w)) = S (nextId this)
     | inl _ =>
         instances (snd (create H this instanceConfig w)) = instances this
         /\ nextId (snd (create H this instanceConfig w)) = S (nextId this)
     end.
Proof.
  intros Hfresh. unfold create. fold (instanceId (nextId this)).
  destruct (InstanceManager.atLeast (Map_size (instances this))
              (InstanceManager.RequiredConfig.maxInstances (config this))) eqn:Efull.
  - cbn [fst snd]. now repeat split.
  - 
    pose proof (buildArgs_frame H (with_nextId this (S (nextId this)))
                  (instanceId (nextId this)) instanceConfig w) as (Hi & Hn & Hc & Hw).
    pose proof (buildArgs_error H (with_nextId this (S (nextId this)))
                  (instanceId (nextId this)) instanceConfig w) as He.
    destruct (buildArgs H (with_nextId this (S (nextId this)))
                (instanceId (nextId this)) instanceConfig w) as [[e|args] this1].
    + cbn [fst snd with_nextId instances nextId config workspaceRoot] in *.
      split; [exact Hc|]. split; [exact Hw|].
      destruct (He e eq_refl) as [message ->]. now split.
    + cbn [snd with_nextId instances nextId config workspaceRoot] in Hi, Hn, Hc, Hw.
      cbv zeta. cbn [with_instances instances].
      rewrite Hi, (Map_set_fresh _ _ _ Hfresh), !(Map_set_last _ _ _ _ Hfresh).
      destruct (connectError w) as [message|].
      * rewrite (Map_delete_last _ _ _ Hfresh).
        match goal with
        | |- context [cleanupProfile ?t ?i] =>
            destruct (cleanupProfile_frame t i) as (Hi' & Hn' & Hc' & Hw')
        end.
        cbn [fst snd]. cbn [with_instances instances nextId config workspaceRoot] in *.
        rewrite Hi', Hn', Hc', Hw'. now repeat split.
      * cbn [fst snd with_instances instances nextId config workspaceRoot
             InstanceManager.ManagedInstance.id InstanceManager.ManagedInstance.status InstanceManager.ManagedInstance.config].
        now repeat split.
Qed.

(** *** Calls on one manager, one after the other *)

Inductive Operation :=
| Create (instanceConfig : InstanceManager.InstanceConfig.t) (w : Launch)
| Close (id : string)
| CloseAll
| SetWorkspaceRoot (root : option string).

Definition perform (H : Host) (this : InstanceManager.InstanceManager) (op : Operation)
  : InstanceManager.InstanceManager :=
  match op with
  | Create instanceConfig w => snd (create H this instanceConfig w)
  | Close id => snd (close this id)
  | CloseAll => snd (closeAll this)
  | SetWorkspaceRoot root => setWorkspaceRoot this root
  end.

(** The manager after the calls. *)
Definition run (H : Host) (this : InstanceManager.InstanceManager) (ops : list Operation)
  : InstanceManager.InstanceManager :=
  fold_left (perform H) ops this.

(** What the [create] calls among them returned, in call order. *)
Fixpoint creations (H : Host) (this : InstanceManager.InstanceManager)
                   (ops : list Operation)
  : list (Error + InstanceManager.ManagedInstance.t) :=
  match ops with
  | [] => []
  | op :: rest =>
      match op with
      | Create instanceConfig w => [fst (create H this instanceConfig w)]
      | _ => []
      end ++ creations H (perform H this op) rest
  end.

(** The ids a caller gets to see: the id of a returned instance and the id
    named in a [Failed to create instance] error. *)
Definition assignedId (r : Error + InstanceManager.ManagedInstance.t) : list string :=
  match r with
  | inr instance => [InstanceManager.ManagedInstance.id instance]
  | inl (FailedToCreate id _) => [id]
  | inl _ => []
  end.

Lemma Map_delete_absent {V} (m : Map V) k : Map_get m k = None -> Map_delete m k = m.
Proof.
  induction m as [|[k' v] m IH]; cbn [Map_get Map_delete]; [reflexivity|].
  destruct (String.eqb k' k); [discriminate|]. intros E. now rewrite IH.
Qed.

Lemma close_registry this id :
  instances (snd (close this id)) = Map_delete (instances this) id
  /\ nextId (snd (close this id)) = nextId this
  /\ config (snd (close this id)) = config this
  /\ workspaceRoot (snd (close this id)) = workspaceRoot this.
Proof.
  unfold close. destruct (Map_get (instances this) id) as [instance|] eqn:E.
  - cbn [snd].
    destruct (cleanupProfile_frame (with_instances this (Map_delete (instances this) id)) id)
      as (Hi & Hn & Hc & Hw).
    cbn [with_instances instances nextId config workspaceRoot] in *. auto.
  - cbn [snd]. now rewrite (Map_delete_absent _ _ E).
Qed.

Lemma closeAll_fold this ids acc :
  let result :=
    fold_left
      (fun (acc : option Error * InstanceManager.InstanceManager) id =>
         let '(e, this) := close (snd acc) id in
         (match fst acc with Some first => Some first | None => e end, this))
      ids (acc, this) in
  instances (snd result) = fold_left Map_delete ids (instances this)
  /\ nextId (snd result) = nextId this
  /\ config (snd result) = config this
  /\ workspaceRoot (snd result) = workspaceRoot this.
Proof.
  cbv zeta. revert this acc. induction ids as [|id ids IH]; intros this acc.
  - now repeat split.
  - cbn [fold_left snd fst].
    destruct (close_registry this id) as (Hi & Hn & Hc & Hw).
    destruct (close this id) as [e this1]. cbn [snd] in *.
    destruct (IH this1 (match acc with Some first => Some first | None => e end))
      as (Hi' & Hn' & Hc' & Hw').
    rewrite Hi', Hn', Hc', Hw', Hi. auto.
Qed.

Lemma Map_delete_all {V} (m : Map V) : fold_left Map_delete (Map_keys m) m = [].
Proof.
  induction m as [|[k v] m IH]; [reflexivity|].
  cbn [Map_keys map fst fold_left Map_delete]. rewrite String.eqb_refl. exact IH.
Qed.

Lemma closeAll_registry this :
  instances (snd (closeAll this)) = []
  /\ nextId (snd (closeAll this)) = nextId this
  /\ config (snd (closeAll this)) = config this
  /\ workspaceRoot (snd (closeAll this)) = workspaceRoot this.
Proof.
  unfold closeAll. cbv zeta.
  destruct (closeAll_fold this (Map_keys (instances this)) None) as (Hi & Hn & Hc & Hw).
  cbv zeta in Hi, Hn, Hc, Hw. rewrite Hi, Map_delete_all. auto.
Qed.

Lemma closeAll_no_error this : fst (closeAll this) = None.
Proof.
  unfold closeAll. cbv zeta.
  remember (instances this) as m eqn:Em. symmetry in Em. revert this Em.
  induction m as [|[k v] m IH]; intros this Em; [reflexivity|].
  cbn [Map_keys map fst fold_left snd].
  destruct (close_registry this k) as (Hi & _).
  assert (Hc : fst (close this k) = None).
  { unfold close. rewrite Em. cbn [Map_get]. now rewrite String.eqb_refl. }
  destruct (close this k) as [e this1]. cbn [fst snd] in *. subst e.
  apply IH. rewrite Hi, Em. cbn [Map_delete]. now rewrite String.eqb_refl.
Qed.

(** *** The invariant holds in every state a run reaches *)

Lemma withinCapacity_le size size' n :
  size' <= size -> withinCapacity size n -> withinCapacity size' n.
Proof.
  unfold withinCapacity. destruct (InstanceManager.numberValue n); [lia| |lia|]; auto.
Qed.

(** [size >= q] is false exactly when [size] is below the least integer
    not below [q]. *)
Lemma below_limit (size : nat) (q : Q) :
  Qle_bool q (inject_Z (Z.of_nat size)) = false -> (Z.of_nat size < Qceiling q)%Z.
Proof.
  intros H. destruct (Z.lt_ge_cases (Z.of_nat size) (Qceiling q)) as [Hlt|Hge]; [exact Hlt|].
  assert (Hle : Qle_bool q (inject_Z (Z.of_nat size)) = true).
  { apply Qle_bool_iff. apply Qle_trans with (inject_Z (Qceiling q)).
    - apply Qle_ceiling.
    - rewrite <- Zle_Qle. lia. }
  congruence.
Qed.

Lemma withinCapacity_S size n :
  InstanceManager.atLeast size n = false -> withinCapacity (S size) n.
Proof.
  unfold InstanceManager.atLeast, withinCapacity.
  destruct (InstanceManager.numberValue n) as [q| | |]; [|auto|discriminate|auto].
  intros H. apply below_limit in H. lia.
Qed.

Lemma Consistent_new H config : Consistent (new_InstanceManager H config).
Proof.
  split; cbn [instances new_InstanceManager Map_keys map]; try constructor.
  unfold withinCapacity, Map_size. cbn [length].
  destruct (InstanceManager.numberValue _); [lia|exact I|reflexivity|exact I].
Qed.

Lemma Consistent_create H this instanceConfig w :
  Consistent this -> Consistent (snd (create H this instanceConfig w)).
Proof.
  intros HC. pose proof (Consistent_fresh this HC) as Hfresh.
  destruct (create_registry H this instanceConfig w Hfresh) as (Hc & _ & Hr).
  destruct HC as [Hk Hu He Hs].
  destruct (fst (create H this instanceConfig w)) as [[n|message|id message|id|id status]|i].
  - destruct Hr as (-> & _). now split.
  - destruct Hr as (Hi & Hn). split; rewrite ?Hi, ?Hn, ?Hc; auto.
    eapply List.Forall_impl; [|exact Hk]. intros k (n & -> & Hlt). exists n. split; [auto|lia].
  - destruct Hr as (Hi & _ & Hn). split; rewrite ?Hi, ?Hn, ?Hc; auto.
    eapply List.Forall_impl; [|exact Hk]. intros k (n & -> & Hlt). exists n. split; [auto|lia].
  - destruct Hr as (Hi & Hn). split; rewrite ?Hi, ?Hn, ?Hc; auto.
    eapply List.Forall_impl; [|exact Hk]. intros k (n & -> & Hlt). exists n. split; [auto|lia].
  - destruct Hr as (Hi & Hn). split; rewrite ?Hi, ?Hn, ?Hc; auto.
    eapply List.Forall_impl; [|exact Hk]. intros k (n & -> & Hlt). exists n. split; [auto|lia].
  - destruct Hr as (Hi & Hid & Hst & _ & Hn & Hlt).
    split; rewrite ?Hi, ?Hn, ?Hc.
    + rewrite Map_keys_app. apply Forall_app. split.
      * eapply List.Forall_impl; [|exact Hk]. intros k (n & -> & Hl). exists n. split; [auto|lia].
      * constructor; [|constructor]. exists (nextId this). split; [reflexivity|lia].
    + rewrite Map_keys_app. cbn [Map_keys map fst].
      apply List.NoDup_app; [exact Hu|repeat constructor; intros []|].
      intros k Hin [<-|[]]. apply Map_get_None in Hfresh. auto.
    + apply Forall_app. split; [exact He|]. constructor; [|constructor]. now split.
    + unfold Map_size in *. rewrite length_app. cbn [length].
      rewrite Nat.add_1_r. now apply withinCapacity_S.
Qed.

Lemma Consistent_delete this this' id :
  Consistent this ->
  instances this' = Map_delete (instances this) id ->
  nextId this' = nextId this -> config this' = config this ->
  Consistent this'.
Proof.
  intros [Hk Hu He Hs] Hi Hn Hc. split; rewrite ?Hi, ?Hn, ?Hc.
  - apply List.Forall_forall. intros k Hin.
    rewrite List.Forall_forall in Hk. apply Hk. now apply (Map_keys_delete _ id).
  - now apply Map_delete_NoDup.
  - apply List.Forall_forall. intros e Hin.
    rewrite List.Forall_forall in He. apply He. now apply (Map_delete_In _ id).
  - apply (withinCapacity_le (Map_size (instances this))); [|exact Hs].
    apply Map_delete_size.
Qed.

Lemma Consistent_perform H this op : Consistent this -> Consistent (perform H this op).
Proof.
  intros HC. destruct op as [instanceConfig w|id| |root]; cbn [perform].
  - now apply Consistent_create.
  - destruct (close_registry this id) as (Hi & Hn & Hc & _).
    now apply (Consistent_delete this _ id).
  - destruct (closeAll_registry this) as (Hi & Hn & Hc & _).
    destruct HC as [Hk Hu He Hs]. split; rewrite ?Hi, ?Hn, ?Hc; try constructor.
    apply (withinCapacity_le (Map_size (instances this))); [cbn; lia|exact Hs].
  - destruct HC as [Hk Hu He Hs]. now split.
Qed.

Lemma Consistent_run H ops : forall this, Consistent this -> Consistent (run H this ops).
Proof.
  induction ops as [|op ops IH]; intros this HC; [exact HC|].
  cbn [run fold_left]. apply IH. now apply Consistent_perform.
Qed.

Lemma perform_config H this op :
  config (perform H this op) = config this /\ nextId this <= nextId (perform H this op).
Proof.
  destruct op as [instanceConfig w|id| |root]; cbn [perform].
  - unfold create.
    destruct (InstanceManager.atLeast _ _); [cbn [snd]; split; [reflexivity|lia]|].
    destruct (buildArgs_frame H (with_nextId this (S (nextId this)))
                ("inst-" +:+ ofNat (nextId this)) instanceConfig w) as (_ & Hn & Hc & _).
    destruct (buildArgs H (with_nextId this (S (nextId this)))
                ("inst-" +:+ ofNat (nextId this)) instanceConfig w) as [[e|args] this1];
      cbn [snd with_nextId nextId config] in *; [split; [auto|lia]|].
    cbv zeta. destruct (connectError w).
    + match goal with
      | |- context [cleanupProfile ?t ?i] =>
          destruct (cleanupProfile_frame t i) as (_ & Hn' & Hc' & _)
      end.
      cbn [snd with_instances nextId config] in *. rewrite Hn', Hc', Hn, Hc. split; [auto|lia].
    + cbn [snd with_instances nextId config]. rewrite Hn, Hc. split; [auto|lia].
  - destruct (close_registry this id) as (_ & -> & -> & _). auto.
  - destruct (closeAll_registry this) as (_ & -> & -> & _). auto.
  - cbn. auto.
Qed.

Lemma run_config H ops : forall this,
  config (run H this ops) = config this /\ nextId this <= nextId (run H this ops).
Proof.
  induction ops as [|op ops IH]; intros this; [cbn; split; [reflexivity|lia]|].
  cbn [run fold_left]. destruct (IH (perform H this op)) as [Hc Hn].
  destruct (perform_config H this op) as [Hc' Hn'].
  unfold run in *. rewrite Hc, Hc'. split; [reflexivity|lia].
Qed.

(** *** Instance ids *)

Lemma creations_ids H ops : forall this,
  Consistent this ->
  Forall (fun id => exists n, id = instanceId n
                              /\ nextId this <= n < nextId (run H this ops))
         (flat_map assignedId (creations H this ops))
  /\ List.NoDup (flat_map assignedId (creations H this ops))
  /\ Forall (fun k => In k (Map_keys (instances this))
                      \/ In k (flat_map assignedId (creations H this ops)))
            (Map_keys (instances (run H this ops))).
Proof.
  induction ops as [|op ops IH]; intros this HC.
  - cbn. split; [constructor|]. split; [constructor|].
    apply List.Forall_forall. auto.
  - cbn [creations run fold_left]. rewrite flat_map_app.
    destruct (IH _ (Consistent_perform H this op HC)) as (Hids & Hnd & Hkeys).
    fold (run H (perform H this op) ops) in *.
    destruct (run_config H ops (perform H this op)) as [_ Hmono].
    destruct (perform_config H this op) as [_ Hmono'].
    assert (Hrest : Forall (fun id => exists n, id = instanceId n
                                       /\ nextId this <= n < nextId (run H (perform H this op) ops))
                      (flat_map assignedId (creations H (perform H this op) ops))).
    { eapply List.Forall_impl; [|exact Hids]. intros id (n & -> & Hn). exists n.
      split; [reflexivity|lia]. }
    assert (Hhead :
              (flat_map assignedId
                 match op with
                 | Create instanceConfig w => [fst (create H this instanceConfig w)]
                 | _ => []
                 end = []
               /\ Forall (fun k => In k (Map_keys (instances this)))
                         (Map_keys (instances (perform H this op))))
              \/ (flat_map assignedId
                    match op with
                    | Create instanceConfig w => [fst (create H this instanceConfig w)]
                    | _ => []
                    end = [instanceId (nextId this)]
                  /\ nextId (perform H this op) = S (nextId this)
                  /\ Forall (fun k => In k (Map_keys (instances this))
                                      \/ k = instanceId (nextId this))
                            (Map_keys (instances (perform H this op))))).
    { destruct op as [instanceConfig w|id| |root]; cbn [perform flat_map].
      - destruct (create_registry H this instanceConfig w (Consistent_fresh this HC))
          as (_ & _ & Hr).
        destruct (fst (create H this instanceConfig w))
          as [[n|message|id message|id|id status]|i]; cbn [assignedId app].
        + left. destruct Hr as (-> & _). split; [reflexivity|].
          apply List.Forall_forall. auto.
        + left. destruct Hr as (-> & _). split; [reflexivity|].
          apply List.Forall_forall. auto.
        + right. destruct Hr as (-> & -> & ->). split; [reflexivity|]. split; [reflexivity|].
          apply List.Forall_forall. auto.
        + left. destruct Hr as (-> & _). split; [reflexivity|].
          apply List.Forall_forall. auto.
        + left. destruct Hr as (-> & _). split; [reflexivity|].
          apply List.Forall_forall. auto.
        + right. destruct Hr as (-> & -> & _ & _ & -> & _).
          split; [reflexivity|]. split; [reflexivity|].
          rewrite Map_keys_app. apply List.Forall_forall. intros k Hin.
          apply in_app_or in Hin as [Hin|[<-|[]]]; auto.
      - left. split; [reflexivity|].
        destruct (close_registry this id) as (-> & _).
        apply List.Forall_forall. intros k. apply Map_keys_delete.
      - left. split; [reflexivity|].
        destruct (closeAll_registry this) as (-> & _). constructor.
      - left. split; [reflexivity|]. apply List.Forall_forall. auto. }
    destruct Hhead as [(-> & Hsub)|(-> & Hnext & Hsub)]; cbn [app].
    + split; [exact Hrest|]. split; [exact Hnd|].
      apply List.Forall_forall. intros k Hin.
      rewrite List.Forall_forall in Hkeys, Hsub.
      destruct (Hkeys k Hin) as [Hk|Hk]; auto.
    + split; [|split].
      * constructor; [|exact Hrest]. exists (nextId this). split; [reflexivity|lia].
      * constructor; [|exact Hnd]. intros Hin.
        rewrite List.Forall_forall in Hids. destruct (Hids _ Hin) as (n & E & Hn).
        apply instanceId_inj in E. lia.
      * apply List.Forall_forall. intros k Hin.
        rewrite List.Forall_forall in Hkeys, Hsub.
        destruct (Hkeys k Hin) as [Hk|Hk]; [|right; now right].
        destruct (Hsub k Hk) as [Hk' | ->]; [now left|right; now left].
Qed.

(** X17. The ids a manager hands out are never reused: over any sequence
    of [create], [close], [closeAll] and [setWorkspaceRoot] calls on a new
    manager, the ids of the instances returned and of the creations that
    failed after the child was spawned are pairwise different, each is
    [inst-n] for a counter value [n >= 1] the manager has passed, and every
    instance still registered at the end carries one of them. *)
Theorem instance_ids_never_reused :
  forall (H : Host) (config : InstanceManager.MultiplexerConfig.t) (ops : list Operation),
    List.NoDup (flat_map assignedId (creations H (new_InstanceManager H config) ops))
    /\ Forall (fun id => exists n,
                   id = "inst-" +:+ ofNat n
                   /\ 1 <= n < nextId (run H (new_InstanceManager H config) ops))
              (flat_map assignedId (creations H (new_InstanceManager H config) ops))
    /\ Forall (fun k => In k (flat_map assignedId
                                (creations H (new_InstanceManager H config) ops)))
              (Map_keys (instances (run H (new_InstanceManager H config) ops))).
Proof.
  intros H config ops.
  destruct (creations_ids H ops _ (Consistent_new H config)) as (Hids & Hnd & Hkeys).
  split; [exact Hnd|]. split; [exact Hids|].
  eapply List.Forall_impl; [|exact Hkeys]. cbn. intros k Hk.
  destruct Hk as [Hk|Hk]; [destruct Hk|exact Hk].
Qed.

(** *** Capacity *)

Lemma creations_unlimited H ops : forall this,
  (forall size,
      InstanceManager.atLeast size
        (InstanceManager.RequiredConfig.maxInstances (config this)) = false) ->
  Forall (fun r => match r with
                   | inl (MaximumReached _) => False
                   | _ => True
                   end)
         (creations H this ops).
Proof.
  induction ops as [|op ops IH]; intros this Hnan; [constructor|].
  cbn [creations]. apply Forall_app. split.
  - destruct op as [instanceConfig w|id| |root]; try constructor; [|constructor].
    unfold create. rewrite Hnan.
    pose proof (buildArgs_error H (with_nextId this (S (nextId this)))
                  ("inst-" +:+ ofNat (nextId this)) instanceConfig w) as He.
    destruct (buildArgs H (with_nextId this (S (nextId this)))
                ("inst-" +:+ ofNat (nextId this)) instanceConfig w) as [[e|args] this1].
    + cbn [fst] in *. destruct (He e eq_refl) as [m ->]. exact I.
    + cbv zeta. destruct (connectError w); exact I.
  - apply IH. destruct (perform_config H this op) as [-> _]. exact Hnan.
Qed.

(** X18. [maxInstances] is a JavaScript number, 10 when the configuration
    gives none. Over any sequence of calls that do not overlap: when it is
    finite, the registry never holds more instances than the least integer
    not below it, and none at all when it is negative; when it is
    [-Infinity] the registry stays empty; when it is [NaN], which the
    command line stores for a value that is no number, or [+Infinity], no
    [create] is ever refused for capacity. The configuration itself is
    never changed. *)
Theorem capacity_is_respected :
  forall (H : Host) (config : InstanceManager.MultiplexerConfig.t) (ops : list Operation),
    match InstanceManager.numberValue
            (InstanceManager.coalesce
               (InstanceManager.MultiplexerConfig.maxInstances config)
               InstanceManager.ten) with
    | InstanceManager.Finite limit =>
        (Z.of_nat (length (InstanceManager.list (run H (new_InstanceManager H config) ops)))
         <= Z.max 0 (Qceiling limit))%Z
    | InstanceManager.MinusInfinity =>
        InstanceManager.list (run H (new_InstanceManager H config) ops) = []
    | InstanceManager.PlusInfinity | InstanceManager.NotANumber =>
        Forall (fun r => match r with
                         | inl (MaximumReached _) => False
                         | _ => True
                         end)
               (creations H (new_InstanceManager H config) ops)
    end
    /\ getConfig (run H (new_InstanceManager H config) ops)
       = getConfig (new_InstanceManager H config).
Proof.
  intros H config ops.
  destruct (Consistent_run H ops _ (Consistent_new H config)) as [_ _ _ Hs].
  destruct (run_config H ops (new_InstanceManager H config)) as [Hc _].
  unfold getConfig. rewrite Hc in *. split; [|reflexivity].
  cbn [InstanceManager.config new_InstanceManager
       InstanceManager.RequiredConfig.maxInstances] in Hs.
  unfold withinCapacity in Hs.
  assert (Hfree : forall n,
             InstanceManager.coalesce
               (InstanceManager.MultiplexerConfig.maxInstances config)
               InstanceManager.ten = n ->
             (forall size, InstanceManager.atLeast size n = false) ->
             Forall (fun r => match r with
                              | inl (MaximumReached _) => False
                              | _ => True
                              end)
                    (creations H (new_InstanceManager H config) ops)).
  { intros n En Hn. apply creations_unlimited.
    cbn [InstanceManager.config new_InstanceManager
         InstanceManager.RequiredConfig.maxInstances].
    rewrite En. exact Hn. }
  destruct (InstanceManager.numberValue
              (InstanceManager.coalesce
                 (InstanceManager.MultiplexerConfig.maxInstances config)
                 InstanceManager.ten)) as [limit| | |] eqn:El.
  - unfold InstanceManager.list, Map_values. rewrite length_map. exact Hs.
  - apply (Hfree _ eq_refl). intros size. unfold InstanceManager.atLeast. now rewrite El.
  - unfold InstanceManager.list, Map_values. unfold Map_size in Hs.
    destruct (instances (run H (new_InstanceManager H config) ops)); [reflexivity|discriminate].
  - apply (Hfree _ eq_refl). intros size. unfold InstanceManager.atLeast. now rewrite El.
Qed.

(** *** [create] *)

Lemma getOrThrow_ready this id instance :
  Map_get (instances this) id = Some instance ->
  InstanceManager.ManagedInstance.status instance = ready ->
  getOrThrow this id = inr instance.
Proof. intros Hg Hs. unfold getOrThrow. now rewrite Hg, Hs. Qed.

(** X19. On a manager reached by calls that do not overlap, a [create]
    that throws, for whatever reason, leaves the registry exactly as it
    was; a [create] that returns appends one entry, under an id that was
    not registered, and [getOrThrow] finds the returned instance there. *)
Theorem create_registers_or_leaves :
  forall (H : Host) (config : InstanceManager.MultiplexerConfig.t) (ops : list Operation)
         (instanceConfig : InstanceManager.InstanceConfig.t) (w : Launch),
    match fst (create H (run H (new_InstanceManager H config) ops) instanceConfig w) with
    | inr instance =>
        instances (snd (create H (run H (new_InstanceManager H config) ops)
                          instanceConfig w))
        = instances (run H (new_InstanceManager H config) ops)
          ++ [(InstanceManager.ManagedInstance.id instance, instance)]
        /\ get (run H (new_InstanceManager H config) ops)
               (InstanceManager.ManagedInstance.id instance) = None
        /\ getOrThrow (snd (create H (run H (new_InstanceManager H config) ops)
                              instanceConfig w))
                      (InstanceManager.ManagedInstance.id instance)
           = inr instance
    | inl e =>
        instances (snd (create H (run H (new_InstanceManager H config) ops)
                          instanceConfig w))
        = instances (run H (new_InstanceManager H config) ops)
    end.
Proof.
  intros H config ops instanceConfig w.
  set (this := run H (new_InstanceManager H config) ops).
  assert (HC : Consistent this) by apply Consistent_run, Consistent_new.
  pose proof (Consistent_fresh this HC) as Hfresh.
  destruct (create_registry H this instanceConfig w Hfresh) as (_ & _ & Hr).
  destruct (fst (create H this instanceConfig w))
    as [[n|message|id message|id|id status]|i].
  - now destruct Hr as (-> & _).
  - now destruct Hr as (-> & _).
  - now destruct Hr as (-> & _).
  - now destruct Hr as (-> & _).
  - now destruct Hr as (-> & _).
  - destruct Hr as (Hi & Hid & Hst & _).
    rewrite Hid. split; [exact Hi|]. split; [exact Hfresh|].
    apply getOrThrow_ready; [|exact Hst].
    rewrite Hi. apply Map_In_get.
    + rewrite <- Hi.
      apply (keys_unique _ (Consistent_create H this instanceConfig w HC)).
    + apply in_or_app. right. now left.
Qed.

(** *** [close] and [closeAll] *)

(** X20. On a manager reached by calls that do not overlap, [close] of a
    registered id removes that entry and no other, after which [get] does
    not find the id; [close] of any other id throws and changes nothing;
    [closeAll] never throws and leaves the registry empty. *)
Theorem close_removes_exactly_that_instance :
  forall (H : Host) (config : InstanceManager.MultiplexerConfig.t) (ops : list Operation)
         (id : string),
    match get (run H (new_InstanceManager H config) ops) id with
    | Some instance =>
        fst (close (run H (new_InstanceManager H config) ops) id) = None
        /\ instances (snd (close (run H (new_InstanceManager H config) ops) id))
           = List.filter (fun e => negb (String.eqb (fst e) id))
                         (instances (run H (new_InstanceManager H config) ops))
        /\ get (snd (close (run H (new_InstanceManager H config) ops) id)) id = None
        /\ S (length (InstanceManager.list
                        (snd (close (run H (new_InstanceManager H config) ops) id))))
           = length (InstanceManager.list (run H (new_InstanceManager H config) ops))
    | None =>
        close (run H (new_InstanceManager H config) ops) id
        = (Some (NotFound id), run H (new_InstanceManager H config) ops)
    end
    /\ fst (closeAll (run H (new_InstanceManager H config) ops)) = None
    /\ InstanceManager.list (snd (closeAll (run H (new_InstanceManager H config) ops))) = [].
Proof.
  intros H config ops id.
  set (this := run H (new_InstanceManager H config) ops).
  assert (HC : Consistent this) by apply Consistent_run, Consistent_new.
  split; [|split].
  - unfold get. destruct (Map_get (instances this) id) as [instance|] eqn:Eg.
    + destruct (close_registry this id) as (Hi & _).
      split; [unfold close; now rewrite Eg|].
      rewrite Hi. split; [apply Map_delete_filter, (keys_unique _ HC)|].
      split; [apply Map_delete_get, (keys_unique _ HC)|].
      unfold InstanceManager.list, Map_values. rewrite !length_map, Hi.
      clear Hi HC. induction (instances this) as [|[k v] m IH]; [discriminate|].
      cbn [Map_get Map_delete] in *. destruct (String.eqb k id); [reflexivity|].
      cbn [length]. now rewrite (IH Eg).
    + unfold close. now rewrite Eg.
  - apply closeAll_no_error.
  - destruct (closeAll_registry this) as (Hi & _).
    unfold InstanceManager.list. now rewrite Hi.
Qed.

(** *** Registered instances *)

(** X21. Between calls that do not overlap every registered instance is
    ready and is registered under its own id: [list] holds only ready
    instances that [get] finds by their id, and [getOrThrow] fails only
    for ids that are not registered. *)
Theorem registered_instances_are_ready :
  forall (H : Host) (config : InstanceManager.MultiplexerConfig.t) (ops : list Operation)
         (id : string),
    Forall (fun instance =>
              InstanceManager.ManagedInstance.status instance = ready
              /\ get (run H (new_InstanceManager H config) ops)
                     (InstanceManager.ManagedInstance.id instance) = Some instance)
           (InstanceManager.list (run H (new_InstanceManager H config) ops))
    /\ getOrThrow (run H (new_InstanceManager H config) ops) id
       = match get (run H (new_InstanceManager H config) ops) id with
         | Some instance => inr instance
         | None => inl (NotFound id)
         end.
Proof.
  intros H config ops id.
  set (this := run H (new_InstanceManager H config) ops).
  assert (HC : Consistent this) by apply Consistent_run, Consistent_new.
  destruct HC as [_ Hu He _]. rewrite List.Forall_forall in He. split.
  - apply List.Forall_forall. intros instance Hin.
    unfold InstanceManager.list, Map_values in Hin.
    apply in_map_iff in Hin as ([k i] & <- & Hin). cbn [snd].
    destruct (He _ Hin) as [Hid Hst]. cbn [fst snd] in Hid, Hst.
    split; [exact Hst|]. unfold get. rewrite Hid. now apply Map_In_get.
  - unfold getOrThrow, get.
    destruct (Map_get (instances this) id) as [instance|] eqn:Eg; [|reflexivity].
    destruct (He _ (Map_get_In _ _ _ Eg)) as [_ Hst]. cbn [snd] in Hst. now rewrite Hst.
Qed.

(** *** The environment of a child *)

Lemma childEnv_workspaceRoot H this this' id instanceConfig :
  workspaceRoot this' = workspaceRoot this ->
  childEnv H this' id instanceConfig = childEnv H this id instanceConfig.
Proof. intros E. unfold childEnv. now rewrite E. Qed.

(** The instance a successful [create] returns. *)
Lemma create_instance H this instanceConfig w instance :
  fst (create H this instanceConfig w) = inr instance ->
  InstanceManager.ManagedInstance.id instance = instanceId (nextId this)
  /\ InstanceManager.ManagedInstance.status instance = ready
  /\ InstanceManager.ManagedInstance.config instance = instanceConfig
  /\ InstanceManager.ManagedInstance.client instance
     = Some {| InstanceManager.Client.name := "multiplexer-" +:+ instanceId (nextId this);
               InstanceManager.Client.version := "1.0.0" |}
  /\ exists args,
       InstanceManager.ManagedInstance.transport instance
       = Some {| InstanceManager.StdioClientTransport.command := "node";
                 InstanceManager.StdioClientTransport.args :=
                   InstanceManager.RequiredConfig.cliPath (config this) :: args;
                 InstanceManager.StdioClientTransport.stderr := "pipe";
                 InstanceManager.StdioClientTransport.env :=
                   childEnv H this (instanceId (nextId this)) instanceConfig |}.
Proof.
  unfold create. fold (instanceId (nextId this)).
  destruct (InstanceManager.atLeast _ _); [discriminate|].
  destruct (buildArgs_frame H (with_nextId this (S (nextId this)))
              (instanceId (nextId this)) instanceConfig w) as (_ & _ & Hc & Hw).
  destruct (buildArgs H (with_nextId this (S (nextId this)))
              (instanceId (nextId this)) instanceConfig w) as [[e|args] this1];
    [discriminate|].
  cbn [snd with_nextId config workspaceRoot] in Hc, Hw. cbv zeta.
  destruct (connectError w); [discriminate|].
  cbn [fst with_instances config]. intros [= <-].
  cbn [InstanceManager.ManagedInstance.id InstanceManager.ManagedInstance.status
       InstanceManager.ManagedInstance.config InstanceManager.ManagedInstance.client
       InstanceManager.ManagedInstance.transport].
  repeat split. eexists. rewrite Hc. f_equal. f_equal.
  apply childEnv_workspaceRoot. exact Hw.
Qed.

(** What [process.env] gives the [DomState] of a process started with
    [env]. *)
Definition processEnv (env : gmap string string) : Env :=
  {| PW_DOM_STATE_INSTANCE_ID := env !! "PW_DOM_STATE_INSTANCE_ID";
     PW_DOM_STATE_WORKSPACE := env !! "PW_DOM_STATE_WORKSPACE" |}.

Lemma childEnv_lookup H this id instanceConfig :
  match InstanceManager.InstanceConfig.domState instanceConfig with
  | Some false =>
      childEnv H this id instanceConfig !! "PW_DOM_STATE_DISABLED" = Some "1"
      /\ childEnv H this id instanceConfig !! "PW_DOM_STATE_INSTANCE_ID"
         = process_env H !! "PW_DOM_STATE_INSTANCE_ID"
      /\ childEnv H this id instanceConfig !! "PW_DOM_STATE_WORKSPACE"
         = process_env H !! "PW_DOM_STATE_WORKSPACE"
  | _ =>
      childEnv H this id instanceConfig !! "PW_DOM_STATE_INSTANCE_ID" = Some id
      /\ childEnv H this id instanceConfig !! "PW_DOM_STATE_DISABLED"
         = process_env H !! "PW_DOM_STATE_DISABLED"
      /\ childEnv H this id instanceConfig !! "PW_DOM_STATE_WORKSPACE"
         = match workspaceRoot this with
           | Some root =>
               if truthy root then Some root
               else process_env H !! "PW_DOM_STATE_WORKSPACE"
           | None => process_env H !! "PW_DOM_STATE_WORKSPACE"
           end
  end.
Proof.
  unfold childEnv. cbv zeta.
  destruct (InstanceManager.InstanceConfig.domState instanceConfig) as [[|]|].
  - destruct (workspaceRoot this) as [root|]; [destruct (truthy root)|];
      repeat split;
      repeat first [ rewrite lookup_insert_eq
                   | rewrite lookup_insert_ne by discriminate ]; reflexivity.
  - repeat split;
      repeat first [ rewrite lookup_insert_eq
                   | rewrite lookup_insert_ne by discriminate ]; reflexivity.
  - destruct (workspaceRoot this) as [root|]; [destruct (truthy root)|];
      repeat split;
      repeat first [ rewrite lookup_insert_eq
                   | rewrite lookup_insert_ne by discriminate ]; reflexivity.
Qed.

(** X22. The child of a created instance is started with its own id in
    [PW_DOM_STATE_INSTANCE_ID] and the workspace root, if one is set, in
    [PW_DOM_STATE_WORKSPACE]; with [domState: false] it gets
    [PW_DOM_STATE_DISABLED=1] instead and the manager sets neither of the
    two, so they are what the manager's own process has. *)
Theorem child_environment :
  forall (H : Host) (this : InstanceManager.InstanceManager)
         (instanceConfig : InstanceManager.InstanceConfig.t) (w : Launch)
         (instance : InstanceManager.ManagedInstance.t),
    fst (create H this instanceConfig w) = inr instance ->
    exists transport,
      InstanceManager.ManagedInstance.transport instance = Some transport
      /\ match InstanceManager.InstanceConfig.domState instanceConfig with
         | Some false =>
             InstanceManager.StdioClientTransport.env transport !! "PW_DOM_STATE_DISABLED"
             = Some "1"
             /\ processEnv (InstanceManager.StdioClientTransport.env transport)
                = processEnv (process_env H)
         | _ =>
             InstanceManager.StdioClientTransport.env transport
               !! "PW_DOM_STATE_INSTANCE_ID"
             = Some (InstanceManager.ManagedInstance.id instance)
             /\ InstanceManager.StdioClientTransport.env transport
                  !! "PW_DOM_STATE_DISABLED"
                = process_env H !! "PW_DOM_STATE_DISABLED"
             /\ InstanceManager.StdioClientTransport.env transport
                  !! "PW_DOM_STATE_WORKSPACE"
                = match workspaceRoot this with
                  | Some root =>
                      if truthy root then Some root
                      else process_env H !! "PW_DOM_STATE_WORKSPACE"
                  | None => process_env H !! "PW_DOM_STATE_WORKSPACE"
                  end
         end.
Proof.
  intros H this instanceConfig w instance Hc.
  destruct (create_instance H this instanceConfig w instance Hc)
    as (Hid & _ & _ & _ & args & Ht).
  eexists. split; [exact Ht|].
  cbn [InstanceManager.StdioClientTransport.env]. rewrite Hid.
  pose proof (childEnv_lookup H this (instanceId (nextId this)) instanceConfig) as Hl.
  destruct (InstanceManager.InstanceConfig.domState instanceConfig) as [[|]|]; try exact Hl.
  destruct Hl as (Hd & Hi & Hw). split; [exact Hd|].
  unfold processEnv. now rewrite Hi, Hw.
Qed.

(** Stand-ins for the host, to run the definitions. *)
Definition sampleHost : Host :=
  {| InstanceManager.path_join := fun segments => join "/" segments;
     InstanceManager.path_dirname := fun p => p +:+ "/..";
     InstanceManager.os_homedir := "/home/user";
     InstanceManager.os_tmpdir := "/tmp";
     InstanceManager.__dirname := "/opt/multiplexer/dist/src";
     InstanceManager.require_resolve := fun _ => None;
     InstanceManager.process_env := {[ "HOME" := "/home/user" ]};
     InstanceManager.process_platform := "linux" |}.

Definition defaultConfig : InstanceManager.MultiplexerConfig.t :=
  {| InstanceManager.MultiplexerConfig.maxInstances := None;
     InstanceManager.MultiplexerConfig.defaultHeadless := None;
     InstanceManager.MultiplexerConfig.defaultBrowser := None;
     InstanceManager.MultiplexerConfig.authDir := None;
     InstanceManager.MultiplexerConfig.cliPath := None;
     InstanceManager.MultiplexerConfig.userDataDir := None;
     InstanceManager.MultiplexerConfig.profileName := None;
     InstanceManager.MultiplexerConfig.cdpEndpoint := None;
     InstanceManager.MultiplexerConfig.extension := None |}.

Definition emptyInstanceConfig : InstanceManager.InstanceConfig.t :=
  {| InstanceManager.InstanceConfig.headless := None;
     InstanceManager.InstanceConfig.browser := None;
     InstanceManager.InstanceConfig.storageState := None;
     InstanceManager.InstanceConfig.userDataDir := None;
     InstanceManager.InstanceConfig.cdpEndpoint := None;
     InstanceManager.InstanceConfig.extension := None;
     InstanceManager.InstanceConfig.domState := None;
     InstanceManager.InstanceConfig.args := None |}.

(** A launch in which every awaited call succeeds. *)
Definition launched : Launch :=
  {| copyProfileError := None; createLaunchConfigError := None;
     connectError := None; now := 1000 |}.

(** A launch whose child does not answer. *)
Definition unreachable : Launch :=
  {| copyProfileError := None; createLaunchConfigError := None;
     connectError := Some "Connection closed"; now := 1000 |}.

(** A manager with a workspace root and one instance closed again. *)
Definition sampleManager : InstanceManager.InstanceManager :=
  run sampleHost (new_InstanceManager sampleHost defaultConfig)
      [ SetWorkspaceRoot (Some "/work");
        Create emptyInstanceConfig launched;
        Create emptyInstanceConfig unreachable;
        Close "inst-1" ].

Example sampleManager_state :
  Map_keys (instances sampleManager) = []
  /\ nextId sampleManager = 3
  /\ map assignedId
         (creations sampleHost (new_InstanceManager sampleHost defaultConfig)
            [ SetWorkspaceRoot (Some "/work");
              Create emptyInstanceConfig launched;
              Create emptyInstanceConfig unreachable;
              Close "inst-1" ])
     = [["inst-1"]; ["inst-2"]].
Proof. vm_compute. repeat split; reflexivity. Qed.

Definition sampleConfig (limit : option InstanceManager.Number)
  : InstanceManager.MultiplexerConfig.t :=
  {| InstanceManager.MultiplexerConfig.maxInstances := limit;
     InstanceManager.MultiplexerConfig.defaultHeadless := None;
     InstanceManager.MultiplexerConfig.defaultBrowser := None;
     InstanceManager.MultiplexerConfig.authDir := None;
     InstanceManager.MultiplexerConfig.cliPath := None;
     InstanceManager.MultiplexerConfig.userDataDir := None;
     InstanceManager.MultiplexerConfig.profileName := None;
     InstanceManager.MultiplexerConfig.cdpEndpoint := None;
     InstanceManager.MultiplexerConfig.extension := None |}.

(** With a limit that is no number the capacity check never fires. *)
Example capacity_lost_with_NaN :
  let config :=
    sampleConfig (Some {| InstanceManager.numberValue := InstanceManager.NotANumber;
                          InstanceManager.numberText := "NaN" |}) in
  length (InstanceManager.list
            (run sampleHost (new_InstanceManager sampleHost config)
                 (List.repeat (Create emptyInstanceConfig launched) 12))) = 12.
Proof. vm_compute. reflexivity. Qed.

(** With a negative limit every [create] is refused. *)
Example capacity_negative :
  let config :=
    sampleConfig (Some {| InstanceManager.numberValue :=
                            InstanceManager.Finite (inject_Z (-1));
                          InstanceManager.numberText := "-1" |}) in
  match fst (create sampleHost (new_InstanceManager sampleHost config)
                    emptyInstanceConfig launched) with
  | inl e => InstanceManager.message e = "Maximum number of instances (-1) reached"
  | inr _ => False
  end.
Proof. vm_compute. reflexivity. Qed.

(** A limit of two and a half admits three instances. *)
Example capacity_fractional :
  let config :=
    sampleConfig (Some {| InstanceManager.numberValue := InstanceManager.Finite (5 # 2);
                          InstanceManager.numberText := "2.5" |}) in
  length (InstanceManager.list
            (run sampleHost (new_InstanceManager sampleHost config)
                 (List.repeat (Create emptyInstanceConfig launched) 12))) = 3.
Proof. vm_compute. reflexivity. Qed.

Definition sampleInstance : InstanceManager.ManagedInstance.t :=
  match fst (create sampleHost sampleManager emptyInstanceConfig launched) with
  | inr instance => instance
  | inl _ =>
      {| InstanceManager.ManagedInstance.id := "";
         InstanceManager.ManagedInstance.client := None;
         InstanceManager.ManagedInstance.transport := None;
         InstanceManager.ManagedInstance.config := emptyInstanceConfig;
         InstanceManager.ManagedInstance.createdAt := 0;
         InstanceManager.ManagedInstance.status := closed |}
  end.

Lemma sampleInstance_created :
  fst (create sampleHost sampleManager emptyInstanceConfig launched) = inr sampleInstance.
Proof. vm_compute. reflexivity. Qed.

Lemma child_environment_witness :
  exists transport,
    InstanceManager.ManagedInstance.transport sampleInstance = Some transport
    /\ InstanceManager.StdioClientTransport.env transport !! "PW_DOM_STATE_INSTANCE_ID"
       = Some "inst-3"
    /\ InstanceManager.StdioClientTransport.env transport !! "PW_DOM_STATE_WORKSPACE"
       = Some "/work".
Proof.
  destruct (child_environment sampleHost sampleManager emptyInstanceConfig launched
              sampleInstance sampleInstance_created)
    as (transport & Ht & Hi & _ & Hw).
  exists transport. split; [exact Ht|]. split; [exact Hi|exact Hw].
Defined.



(** ** The code sent for an export *)

Definition isLineTerminator (c : ascii) : bool :=
  (code c =? 10)%N || (code c =? 13)%N.

(** Reading the body of a single-quoted JavaScript string literal up to
    its closing apostrophe: the text it denotes, and what follows it. Of
    the escapes only the two that [escapedPath] writes are read; a line
    terminator ends the reading, as it ends the parse of the program. *)
Fixpoint readLiteral (s : string) : option (string * string) :=
  match s with
  | EmptyString => None
  | String c rest =>
      if Ascii.eqb c AuthManager.apostrophe then Some (EmptyString, rest)
      else if Ascii.eqb c AuthManager.backslash then
        match rest with
        | String d rest' =>
            if Ascii.eqb d AuthManager.backslash || Ascii.eqb d AuthManager.apostrophe then
              match readLiteral rest' with
              | Some (text, after) => Some (String d text, after)
              | None => None
              end
            else None
        | EmptyString => None
        end
      else if isLineTerminator c then None
      else
        match readLiteral rest with
        | Some (text, after) => Some (String c text, after)
        | None => None
        end
  end.

Lemma escapedPath_cons c s :
  AuthManager.escapedPath (String c s)
  = (if Ascii.eqb AuthManager.backslash c
     then String AuthManager.backslash (String AuthManager.backslash EmptyString)
     else if Ascii.eqb AuthManager.apostrophe c
          then String AuthManager.backslash (String AuthManager.apostrophe EmptyString)
          else String c EmptyString)
    +:+ AuthManager.escapedPath s.
Proof.
  unfold AuthManager.escapedPath. cbn [replaceAll].
  destruct (Ascii.eqb AuthManager.backslash c) eqn:Eb.
  - rewrite replaceAll_app. reflexivity.
  - cbn [replaceAll].
    destruct (Ascii.eqb AuthManager.apostrophe c); reflexivity.
Qed.

(** X24. The path of an export cannot leave the string literal it is
    written into: read as JavaScript, the code sent to the child is the
    call of [storageState] with a single-quoted literal that denotes
    exactly [outputPath], apostrophes and backslashes included, provided
    the path holds no line terminator. *)
Theorem exported_path_stays_in_its_literal :
  forall (outputPath : string),
    allChars (fun c => negb (isLineTerminator c)) outputPath = true ->
    (forall after,
        readLiteral (AuthManager.escapedPath outputPath
                     +:+ String AuthManager.apostrophe after)
        = Some (outputPath, after))
    /\ exists body,
         AuthManager.storageStateCode outputPath
         = "await page.context().storageState({ path: '" +:+ body
         /\ readLiteral body = Some (outputPath, " })").
Proof.
  intros outputPath Hok.
  assert (Hread : forall after,
             readLiteral (AuthManager.escapedPath outputPath
                          +:+ String AuthManager.apostrophe after)
             = Some (outputPath, after)).
  { intros after. induction outputPath as [|c s IH].
    - reflexivity.
    - cbn [allChars] in Hok. apply andb_true_iff in Hok as [Hc Hs].
      rewrite escapedPath_cons.
      destruct (Ascii.eqb_spec AuthManager.backslash c) as [<-|Hb].
      + change (readLiteral
                  (String AuthManager.backslash
                     (String AuthManager.backslash
                        (AuthManager.escapedPath s
                         +:+ String AuthManager.apostrophe after)))
                = Some (String AuthManager.backslash s, after)).
        cbn [readLiteral].
        change (Ascii.eqb AuthManager.backslash AuthManager.apostrophe) with false.
        change (Ascii.eqb AuthManager.backslash AuthManager.backslash) with true.
        cbn [orb]. now rewrite (IH Hs).
      + destruct (Ascii.eqb_spec AuthManager.apostrophe c) as [<-|Ha].
        * change (readLiteral
                    (String AuthManager.backslash
                       (String AuthManager.apostrophe
                          (AuthManager.escapedPath s
                           +:+ String AuthManager.apostrophe after)))
                  = Some (String AuthManager.apostrophe s, after)).
          cbn [readLiteral].
          change (Ascii.eqb AuthManager.backslash AuthManager.apostrophe) with false.
          change (Ascii.eqb AuthManager.backslash AuthManager.backslash) with true.
          change (Ascii.eqb AuthManager.apostrophe AuthManager.backslash) with false.
          change (Ascii.eqb AuthManager.apostrophe AuthManager.apostrophe) with true.
          cbn [orb]. now rewrite (IH Hs).
        * change (readLiteral
                    (String c (AuthManager.escapedPath s
                               +:+ String AuthManager.apostrophe after))
                  = Some (String c s, after)).
          cbn [readLiteral].
          destruct (Ascii.eqb_spec c AuthManager.apostrophe) as [E|_]; [congruence|].
          destruct (Ascii.eqb_spec c AuthManager.backslash) as [E|_]; [congruence|].
          apply negb_true_iff in Hc. rewrite Hc. now rewrite (IH Hs). }
  split; [exact Hread|].
  exists (AuthManager.escapedPath outputPath +:+ "' })"). split.
  - reflexivity.
  - apply (Hread " })").
Qed.

Lemma exported_path_stays_in_its_literal_witness :
  exists body,
    AuthManager.storageStateCode
      ("C:" +:+ String AuthManager.backslash "auth/o'neil.json")
    = "await page.context().storageState({ path: '" +:+ body
    /\ readLiteral body
       = Some ("C:" +:+ String AuthManager.backslash "auth/o'neil.json", " })").
Proof.
  apply (exported_path_stays_in_its_literal
           ("C:" +:+ String AuthManager.backslash "auth/o'neil.json")).
  reflexivity.
Defined.

Example exported_code :
  AuthManager.storageStateCode "/auth/o'neil.json"
  = "await page.context().storageState({ path: '/auth/o"
    +:+ String AuthManager.backslash "'neil.json' })".
Proof. reflexivity. Qed.

(** ** Routing *)

Import ToolRegistry(JSON, JNull, JBool, JNumber, JString, JArray, JObject, Schema, Tool,
  inputSchema, properties, required, additional, description, rest, property,
  MANAGEMENT_TOOLS, MANAGEMENT_TOOL_NAMES, proxyTools, allTools, initialized,
  new_ToolRegistry, isManagementTool, isInitialized, augmentWithInstanceId, discoverTools,
  getTools, getManagementTools, isProxyTool).
Import ToolRouter(ContentItem, TextContent, OtherContent, ToolCallResponse, content, isError,
  truthyValue, toString, Outcome, Handler, Handlers, handleInstanceCreate, handleInstanceList,
  handleInstanceClose, handleInstanceCloseAll, handleAuthExport, errorResponse,
  handleManagementTool, handleProxyTool, route).

(** Whether a tool of that name is in a list of tools. *)
Definition named (name : string) (tools : list Tool) : bool :=
  existsb (fun t => String.eqb (ToolRegistry.name t) name) tools.

Definition managementNames : list string :=
  ["instance_create"; "instance_list"; "instance_close"; "instance_close_all";
   "auth_export_state"].

Lemma isManagementTool_spec name :
  isManagementTool name = true <-> In name managementNames.
Proof.
  unfold isManagementTool, MANAGEMENT_TOOL_NAMES.
  rewrite bool_decide_eq_true, elem_of_list_to_set, <- list_elem_of_In. reflexivity.
Qed.

Lemma named_management name : named name MANAGEMENT_TOOLS = isManagementTool name.
Proof.
  destruct (isManagementTool name) eqn:E.
  - apply isManagementTool_spec in E.
    repeat (destruct E as [<-|E]; [reflexivity|]). destruct E.
  - destruct (named name MANAGEMENT_TOOLS) eqn:En; [|reflexivity].
    unfold named in En. apply existsb_exists in En as (t & Hin & Hn).
    apply String.eqb_eq in Hn. subst name.
    assert (In (ToolRegistry.name t) managementNames)
      by (change managementNames with (map ToolRegistry.name MANAGEMENT_TOOLS);
          now apply in_map).
    apply isManagementTool_spec in H. congruence.
Qed.

Lemma named_proxy name childTools :
  named name (map augmentWithInstanceId childTools) = named name childTools.
Proof.
  unfold named. induction childTools as [|t l IH]; [reflexivity|].
  cbn [map existsb]. now rewrite IH.
Qed.

(** The handlers [handleManagementTool] chooses from. *)
Definition managementHandlers : list (Handlers -> Handler) :=
  [handleInstanceCreate; handleInstanceList; handleInstanceClose; handleInstanceCloseAll;
   handleAuthExport].

Lemma handleManagementTool_cases name :
  In name managementNames ->
  exists pick, In pick managementHandlers
               /\ forall handlers args instanceManager,
                    handleManagementTool handlers name args instanceManager
                    = pick handlers args instanceManager.
Proof.
  intros Hin. unfold managementHandlers.
  destruct Hin as [<-|[<-|[<-|[<-|[<-|[]]]]]].
  - exists handleInstanceCreate. split; [now left|reflexivity].
  - exists handleInstanceList. split; [right; now left|reflexivity].
  - exists handleInstanceClose. split; [right; right; now left|reflexivity].
  - exists handleInstanceCloseAll. split; [right; right; right; now left|reflexivity].
  - exists handleAuthExport. split; [right; right; right; right; now left|reflexivity].
Qed.

(** X25. After [discoverTools], the tools [getTools] advertises are the
    tools [route] serves: a name that is advertised is routed to one of
    the five management handlers, never to the default branch of their
    switch, or else to [handleProxyTool]; a name that is not advertised
    gets the [Unknown tool] error. The advertised tools are the management
    tools followed by the child's tools under their own names. *)
Theorem advertised_tools_are_routed :
  forall (this : ToolRegistry.ToolRegistry) (childTools : list Tool) (name : string),
    map ToolRegistry.name (getTools (discoverTools this childTools))
    = managementNames ++ map ToolRegistry.name childTools
    /\ if named name (getTools (discoverTools this childTools)) then
         (exists pick,
             In pick managementHandlers
             /\ forall handlers callTool args instanceManager,
                  route handlers callTool (discoverTools this childTools) name args
                        instanceManager
                  = pick handlers (InstanceManager.coalesce args []) instanceManager)
         \/ (forall handlers callTool args instanceManager,
                route handlers callTool (discoverTools this childTools) name args
                      instanceManager
                = handleProxyTool callTool name (InstanceManager.coalesce args [])
                                  instanceManager)
       else
         forall handlers callTool args instanceManager,
           route handlers callTool (discoverTools this childTools) name args instanceManager
           = (inr (errorResponse ("Unknown tool: " +:+ name)), instanceManager).
Proof.
  intros this childTools name. split.
  - unfold getTools, discoverTools. cbn [allTools]. rewrite map_app. f_equal.
    induction childTools as [|t l IH]; [reflexivity|]. cbn [map]. now rewrite IH.
  - unfold getTools, discoverTools, named. cbn [allTools]. rewrite existsb_app.
    fold (named name MANAGEMENT_TOOLS). fold (named name (map augmentWithInstanceId childTools)).
    rewrite named_management, named_proxy.
    destruct (isManagementTool name) eqn:Em; cbn [orb].
    + left. apply isManagementTool_spec in Em.
      destruct (handleManagementTool_cases name Em) as (pick & Hin & Hpick).
      exists pick. split; [exact Hin|].
      intros handlers callTool args instanceManager. unfold route.
      apply isManagementTool_spec in Em. rewrite Em. apply Hpick.
    + destruct (named name childTools) eqn:Ep.
      * right. intros handlers callTool args instanceManager. unfold route.
        rewrite Em. unfold isProxyTool. cbn [proxyTools].
        fold (named name (map augmentWithInstanceId childTools)).
        now rewrite named_proxy, Ep.
      * intros handlers callTool args instanceManager. unfold route.
        rewrite Em. unfold isProxyTool. cbn [proxyTools].
        fold (named name (map augmentWithInstanceId childTools)).
        now rewrite named_proxy, Ep.
Qed.

Lemma Map_set_get {V} (m : Map V) k v : Map_get (Map_set m k v) k = Some v.
Proof.
  induction m as [|[k' v'] m IH]; cbn [Map_set Map_get].
  - now rewrite String.eqb_refl.
  - destruct (String.eqb k' k) eqn:E; cbn [Map_get]; now rewrite E.
Qed.

Lemma Map_set_get_other {V} (m : Map V) k k' v :
  k' <> k -> Map_get (Map_set m k v) k' = Map_get m k'.
Proof.
  intros Hne. induction m as [|[k'' v'] m IH]; cbn [Map_set Map_get].
  - destruct (String.eqb_spec k k'); [congruence|reflexivity].
  - destruct (String.eqb_spec k'' k) as [->|Hk]; cbn [Map_get].
    + destruct (String.eqb_spec k k'); [congruence|reflexivity].
    + now rewrite IH.
Qed.

(** X26. A call of a child's tool that names a ready instance reaches the
    child of that instance, under the same tool name and with the
    arguments it was given except [instanceId], which the child never
    sees; the child's answer is returned as it is and the manager is left
    alone. The advertised schema of the tool is the child's with
    [instanceId] added in front of the required members. *)
Theorem proxy_call_reaches_the_child :
  forall (handlers : Handlers)
         (callTool : InstanceManager.ManagedInstance.t -> string -> Map JSON
                     -> string + ToolCallResponse)
         (this : ToolRegistry.ToolRegistry) (childTools : list Tool) (tool : Tool)
         (args : Map JSON) (id : string)
         (instanceManager : InstanceManager.InstanceManager)
         (instance : InstanceManager.ManagedInstance.t),
    In tool childTools ->
    isManagementTool (ToolRegistry.name tool) = false ->
    List.NoDup (Map_keys args) ->
    Map_get args "instanceId" = Some (JString id) ->
    truthy id = true ->
    InstanceManager.getOrThrow instanceManager id = inr instance ->
    route handlers callTool (discoverTools this childTools) (ToolRegistry.name tool)
          (Some args) instanceManager
    = (match callTool instance (ToolRegistry.name tool) (Map_delete args "instanceId") with
       | inl message => inl (InstanceManager.HostError message)
       | inr result => inr result
       end,
       instanceManager)
    /\ Map_get (Map_delete args "instanceId") "instanceId" = None
    /\ Map_delete args "instanceId"
       = List.filter (fun e => negb (String.eqb (fst e) "instanceId")) args
    /\ In (augmentWithInstanceId tool) (getTools (discoverTools this childTools))
    /\ required (inputSchema (augmentWithInstanceId tool))
       = Some ("instanceId" :: InstanceManager.coalesce (required (inputSchema tool)) [])
    /\ exists advertised,
         properties (inputSchema (augmentWithInstanceId tool)) = Some advertised
         /\ Map_get advertised "instanceId"
            = Some (property "string"
                      "Target browser instance ID (from instance_create or instance_list)")
         /\ Forall (fun e => fst e = "instanceId"
                             \/ Map_get advertised (fst e)
                                = Map_get (InstanceManager.coalesce
                                             (properties (inputSchema tool)) [])
                                          (fst e))
                   (InstanceManager.coalesce (properties (inputSchema tool)) []).
Proof.
  intros handlers callTool this childTools tool args id instanceManager instance
         Hin Hm Hnd Hid Htruthy Hget.
  split; [|split; [|split; [|split; [|split]]]].
  - unfold route. rewrite Hm. unfold isProxyTool. cbn [proxyTools discoverTools].
    fold (named (ToolRegistry.name tool) (map augmentWithInstanceId childTools)).
    rewrite named_proxy.
    assert (Hn : named (ToolRegistry.name tool) childTools = true).
    { apply existsb_exists. exists tool. split; [exact Hin|apply String.eqb_refl]. }
    rewrite Hn. unfold handleProxyTool. rewrite Hid. cbn [truthyValue].
    rewrite Htruthy. cbn [negb]. rewrite Hget.
    destruct (callTool instance (ToolRegistry.name tool) (Map_delete args "instanceId"));
      reflexivity.
  - now apply Map_delete_get.
  - now apply Map_delete_filter.
  - unfold getTools, discoverTools. cbn [allTools]. apply in_or_app. right.
    now apply in_map.
  - unfold augmentWithInstanceId. cbn [inputSchema required].
    destruct (required (inputSchema tool)); reflexivity.
  - unfold augmentWithInstanceId. cbn [inputSchema properties].
    eexists. split; [reflexivity|]. split; [apply Map_set_get|].
    apply List.Forall_forall. intros [k v] _. cbn [fst].
    destruct (String.eqb_spec k "instanceId") as [->|Hne]; [now left|right].
    rewrite (Map_set_get_other _ _ _ _ Hne).
    destruct (properties (inputSchema tool)); reflexivity.
Qed.

Definition sampleHandlers : Handlers :=
  {| handleInstanceCreate := fun _ im => (inr (errorResponse "create"), im);
     handleInstanceList := fun _ im => (inr (errorResponse "list"), im);
     handleInstanceClose := fun _ im => (inr (errorResponse "close"), im);
     handleInstanceCloseAll := fun _ im => (inr (errorResponse "close all"), im);
     handleAuthExport := fun _ im => (inr (errorResponse "export"), im) |}.

(** A child that answers with the name of the tool and the names of the
    arguments it was given. *)
Definition echoChild (instance : InstanceManager.ManagedInstance.t) (name : string)
                     (args : Map JSON) : string + ToolCallResponse :=
  inr {| content := [TextContent (InstanceManager.ManagedInstance.id instance +:+ ":"
                                  +:+ name +:+ "(" +:+ join "," (Map_keys args) +:+ ")")];
         isError := None |}.

Definition navigateTool : Tool :=
  {| ToolRegistry.name := "browser_navigate";
     description := Some "Navigate to a URL";
     inputSchema :=
       {| ToolRegistry.type := "object";
          properties := Some [("url", property "string" "The URL to navigate to")];
          required := Some ["url"];
          additional := [] |};
     rest := [] |}.

Lemma proxy_call_reaches_the_child_witness :
  fst (route sampleHandlers echoChild (discoverTools new_ToolRegistry [navigateTool])
             "browser_navigate"
             (Some [("instanceId", JString "inst-3"); ("url", JString "https://example.com")])
             (snd (create sampleHost sampleManager emptyInstanceConfig launched)))
  = inr {| content := [TextContent "inst-3:browser_navigate(url)"]; isError := None |}.
Proof.
  destruct (proxy_call_reaches_the_child sampleHandlers echoChild new_ToolRegistry
              [navigateTool] navigateTool
              [("instanceId", JString "inst-3"); ("url", JString "https://example.com")]
              "inst-3"
              (snd (create sampleHost sampleManager emptyInstanceConfig launched))
              sampleInstance)
    as (Hroute & _).
  - now left.
  - reflexivity.
  - repeat constructor; cbn; intuition discriminate.
  - reflexivity.
  - reflexivity.
  - vm_compute. reflexivity.
  - etransitivity; [exact (f_equal fst Hroute)|reflexivity].
Defined.

(** ** Tool discovery *)

Lemma find_ready_none this :
  Consistent this ->
  List.find (fun i => match InstanceManager.ManagedInstance.status i with
                      | ready => true
                      | _ => false
                      end)
            (InstanceManager.list this) = None ->
  instances this = [].
Proof.
  intros [_ _ He _]. unfold InstanceManager.list, Map_values.
  destruct (instances this) as [|[k i] m]; [reflexivity|].
  inversion He as [|? ? [_ Hst] _]; subst. cbn [snd] in Hst.
  cbn [map snd List.find]. now rewrite Hst.
Qed.

(** X27. Discovery leaves no probe behind: on a manager reached by calls
    that do not overlap, [MultiplexerServer.discoverTools] leaves the
    registered instances exactly as they were, whether it asked an
    existing instance or created a probe, and whether it succeeded or
    threw; the tool registry is initialized exactly when it does not throw
    and is untouched otherwise. A probe is created, and an id spent on it,
    only when no instance is registered. *)
Theorem discovery_leaves_no_probe :
  forall (H : Host)
         (listTools : InstanceManager.Client.t -> string + list Tool)
         (config : InstanceManager.MultiplexerConfig.t) (ops : list Operation)
         (toolRegistry : ToolRegistry.ToolRegistry) (w : Launch),
    instances (snd (fst (MultiplexerServer.discoverTools H listTools
                           (run H (new_InstanceManager H config) ops) toolRegistry w)))
    = instances (run H (new_InstanceManager H config) ops)
    /\ match fst (fst (MultiplexerServer.discoverTools H listTools
                         (run H (new_InstanceManager H config) ops) toolRegistry w)) with
       | None =>
           exists childTools,
             snd (MultiplexerServer.discoverTools H listTools
                    (run H (new_InstanceManager H config) ops) toolRegistry w)
             = discoverTools toolRegistry childTools
       | Some e =>
           snd (MultiplexerServer.discoverTools H listTools
                  (run H (new_InstanceManager H config) ops) toolRegistry w)
           = toolRegistry
       end
    /\ (nextId (snd (fst (MultiplexerServer.discoverTools H listTools
                            (run H (new_InstanceManager H config) ops) toolRegistry w)))
        = nextId (run H (new_InstanceManager H config) ops)
        \/ (InstanceManager.list (run H (new_InstanceManager H config) ops) = []
            /\ nextId (snd (fst (MultiplexerServer.discoverTools H listTools
                                   (run H (new_InstanceManager H config) ops)
                                   toolRegistry w)))
               = S (nextId (run H (new_InstanceManager H config) ops)))).
Proof.
  intros H listTools config ops toolRegistry w.
  set (this := run H (new_InstanceManager H config) ops).
  assert (HC : Consistent this) by apply Consistent_run, Consistent_new.
  unfold MultiplexerServer.discoverTools. cbv zeta.
  destruct (List.find _ (InstanceManager.list this)) as [existing|] eqn:Ef.
  - unfold MultiplexerServer.registryDiscoverTools.
    destruct (InstanceManager.ManagedInstance.client existing) as [client|];
      [destruct (listTools client) as [message|childTools]|]; cbn [fst snd];
      repeat split; eauto.
  - pose proof (find_ready_none this HC Ef) as Hempty.
    pose proof (Consistent_fresh this HC) as Hfresh.
    destruct (create_registry H this MultiplexerServer.probeConfig w Hfresh)
      as (_ & _ & Hr).
    destruct (create H this MultiplexerServer.probeConfig w) as [[e|probe] this1].
    + cbn [fst snd] in *. split; [|split; [reflexivity|]].
      * destruct e; [destruct Hr as (-> & _)|destruct Hr as (-> & _)..]; reflexivity.
      * destruct e.
        -- left. now destruct Hr as (-> & _).
        -- right. destruct Hr as (_ & ->). unfold InstanceManager.list.
           now rewrite Hempty.
        -- right. destruct Hr as (_ & _ & ->). unfold InstanceManager.list.
           now rewrite Hempty.
        -- right. destruct Hr as (_ & ->). unfold InstanceManager.list.
           now rewrite Hempty.
        -- right. destruct Hr as (_ & ->). unfold InstanceManager.list.
           now rewrite Hempty.
    + cbn [fst snd] in Hr. destruct Hr as (Hi & Hid & _ & _ & Hn & _).
      destruct (close_registry this1 (InstanceManager.ManagedInstance.id probe))
        as (Hi' & Hn' & _).
      assert (Hc : fst (close this1 (InstanceManager.ManagedInstance.id probe)) = None).
      { unfold close. rewrite Hi, Hid.
        rewrite (Map_In_get (instances this ++ [(instanceId (nextId this), probe)])
                   (instanceId (nextId this)) probe); [reflexivity| |].
        - rewrite Hempty. repeat constructor. intros [].
        - apply in_or_app. right. now left. }
      destruct (close this1 (InstanceManager.ManagedInstance.id probe))
        as [closeError this2].
      cbn [fst snd] in Hi', Hn', Hc. subst closeError.
      rewrite Hi, Hid, (Map_delete_last _ _ _ Hfresh) in Hi'.
      unfold MultiplexerServer.registryDiscoverTools.
      destruct (InstanceManager.ManagedInstance.client probe) as [client|];
        [destruct (listTools client) as [message|childTools]|]; cbn [fst snd];
        (split; [exact Hi'|]); (split; [eauto|]);
        right; (split; [unfold InstanceManager.list; now rewrite Hempty|]);
        congruence.
Qed.

Example listing_tools_spends_the_first_id :
  let listTools := fun _ : InstanceManager.Client.t => inr [navigateTool] in
  let fresh := new_InstanceManager sampleHost defaultConfig in
  let after :=
    snd (fst (MultiplexerServer.discoverTools sampleHost listTools fresh
                new_ToolRegistry launched)) in
  InstanceManager.list after = []
  /\ match fst (create sampleHost after emptyInstanceConfig launched) with
     | inr instance => InstanceManager.ManagedInstance.id instance = "inst-2"
     | inl _ => False
     end.
Proof. vm_compute. split; reflexivity. Qed.
